(** * Game-tree search of [search.py]: minimax, alpha-beta and stochastic search

    A shallow embedding of the three search procedures of [search.py]
    ([minimax], [alphabeta], [stochastic]) over an abstract game, together
    with the properties the specification states about them.

    Modelling choices.
    - The external collaborators ([generateMoves], [makeMove], [evaluate],
      [encode]) are the fields of a record [Game]; every theorem that
      quantifies over a [Game] holds for any generator/evaluator pair.
    - [evaluate] returns an integer; the search values are integers extended
      with the two sentinels [-math.inf] and [math.inf] the code starts from.
    - A Python [dict] is an insertion-ordered association list: assigning to
      an existing key replaces the value in place, assigning to a new key
      appends.  A move tree is a dict from move keys to move trees.
    - [best_move] starts as [None], so the returned move list is a list of
      optional moves.
    - Python recursion is modelled with fuel: [None] means that the recursion
      was still running when the fuel was used up.
    - In [stochastic] the quotient [avg /= len(vals_to_avg)] is Python's
      division of two integers: the binary64 float nearest the exact
      quotient, represented by the rational it denotes, or [OverflowError]
      when that is out of range.  Exceptions are values of [exn]. *)

From Stdlib Require Import ZArith List Bool Lia QArith Orders OrdersTac.
Import ListNotations.
Open Scope Z_scope.

Set Warnings "-register-all,-notation-for-abbreviation".

(** ** Search values: integers with the two infinite sentinels *)

Inductive EVal : Type :=
| NegInf
| Fin (z : Z)
| PosInf.

(** Python's [a < b] on such values. *)
Definition ev_ltb (a b : EVal) : bool :=
  match a, b with
  | NegInf, NegInf => false
  | NegInf, _ => true
  | Fin x, Fin y => x <? y
  | Fin _, PosInf => true
  | Fin _, NegInf => false
  | PosInf, _ => false
  end.

(** [a > b], [a <= b] and [a >= b]. *)
Definition ev_gtb (a b : EVal) : bool := ev_ltb b a.
Definition ev_leb (a b : EVal) : bool := negb (ev_ltb b a).
Definition ev_geb (a b : EVal) : bool := negb (ev_ltb a b).

(** The order as propositions. *)
Definition ev_lt (a b : EVal) : Prop := ev_ltb a b = true.
Definition ev_le (a b : EVal) : Prop := ev_ltb b a = false.

(** The signature of the order, for the order tactic. *)
Module EV <: EqLtLe.
Definition t := EVal.
Definition eq := @eq EVal.
Definition lt := ev_lt.
Definition le := ev_le.
End EV.

(** ** Move trees: dicts from move keys to move trees *)

Inductive MoveTree (K : Type) : Type :=
| Node (entries : list (K * MoveTree K)).
Arguments Node {K} entries.

Definition entries {K} (t : MoveTree K) : list (K * MoveTree K) :=
  match t with Node es => es end.

Definition keys {K} (t : MoveTree K) : list K := map fst (entries t).

(** The number of leaf entries: entries whose own tree is empty. *)
Fixpoint leaves {K} (t : MoveTree K) : nat :=
  match t with
  | Node es =>
      (fix go (l : list (K * MoveTree K)) : nat :=
         match l with
         | [] => O
         | (_, sub) :: r =>
             ((match sub with Node [] => 1 | _ => leaves sub end) + go r)%nat
         end) es
  end.

Definition entry_leaves {K} (sub : MoveTree K) : nat :=
  match sub with Node [] => 1%nat | _ => leaves sub end.

Fixpoint leaves_list {K} (l : list (K * MoveTree K)) : nat :=
  match l with
  | [] => O
  | (_, sub) :: r => (entry_leaves sub + leaves_list r)%nat
  end.

Section Dict.
Context {K : Type}.
Variable K_eq_dec : forall a b : K, {a = b} + {a <> b}.

(** [d[k] = v] on the entry list. *)
Fixpoint set_assoc (k : K) (v : MoveTree K) (es : list (K * MoveTree K))
  : list (K * MoveTree K) :=
  match es with
  | [] => [(k, v)]
  | (k', v') :: r =>
      if K_eq_dec k k' then (k, v) :: r else (k', v') :: set_assoc k v r
  end.

Fixpoint get_assoc (k : K) (es : list (K * MoveTree K))
  : option (MoveTree K) :=
  match es with
  | [] => None
  | (k', v') :: r => if K_eq_dec k k' then Some v' else get_assoc k r
  end.

Definition dict_set (k : K) (v : MoveTree K) (d : MoveTree K) : MoveTree K :=
  Node (set_assoc k v (entries d)).

Definition dict_get (k : K) (d : MoveTree K) : option (MoveTree K) :=
  get_assoc k (entries d).

(** [d.update(other)]: every entry of [other] is assigned into [d], in
    order. *)
Definition dict_update (d other : MoveTree K) : MoveTree K :=
  fold_left (fun acc kv => dict_set (fst kv) (snd kv) acc) (entries other) d.

(** Assigning a list of entries one after the other. *)
Definition record_all (subs : list (K * MoveTree K)) (d : MoveTree K)
  : MoveTree K :=
  fold_left (fun acc kv => dict_set (fst kv) (snd kv) acc) subs d.
End Dict.

(** ** The game interface the search consumes *)

Record Game : Type := {
  Board : Type;
  Flags : Type;
  Move : Type;
  Key : Type;
  Key_eq_dec : forall a b : Key, {a = b} + {a <> b};
  encode : Move -> Key;
  generateMoves : bool -> Board -> Flags -> list Move;
  makeMove : bool -> Board -> Move -> Flags -> bool * Board * Flags;
  evaluate : Board -> Z
}.

(** What a search returns: (value, moveList, moveTree). *)
Definition Result (G : Game) : Type :=
  (EVal * list (option (Move G)) * MoveTree (Key G))%type.

(** The loop variables (value, best_move, moveList, moveTree). *)
Definition LoopSt (G : Game) : Type :=
  (EVal * option (Move G) * list (option (Move G)) * MoveTree (Key G))%type.

Section MinimaxAlphabeta.
Variable G : Game.

Local Notation tset := (dict_set (Key_eq_dec G)).

(** *** minimax *)

(** The loop of the [side == False] branch; [rec move] is the recursive
    call on the position after [move]. *)
Fixpoint mm_max_loop (rec : Move G -> option (Result G))
    (moves : list (Move G)) (value : EVal) (best_move : option (Move G))
    (moveList : list (option (Move G))) (moveTree : MoveTree (Key G))
  : option (LoopSt G) :=
  match moves with
  | [] => Some (value, best_move, moveList, moveTree)
  | move :: rest =>
      match rec move with
      | None => None
      | Some (recValue, recMoveList, recMoveTree) =>
          if ev_gtb recValue value
          then mm_max_loop rec rest recValue (Some move) recMoveList
                 (tset (encode G move) recMoveTree moveTree)
          else mm_max_loop rec rest value best_move moveList
                 (tset (encode G move) recMoveTree moveTree)
      end
  end.

(** The loop of the [side == True] branch. *)
Fixpoint mm_min_loop (rec : Move G -> option (Result G))
    (moves : list (Move G)) (value : EVal) (best_move : option (Move G))
    (moveList : list (option (Move G))) (moveTree : MoveTree (Key G))
  : option (LoopSt G) :=
  match moves with
  | [] => Some (value, best_move, moveList, moveTree)
  | move :: rest =>
      match rec move with
      | None => None
      | Some (recValue, recMoveList, recMoveTree) =>
          if ev_ltb recValue value
          then mm_min_loop rec rest recValue (Some move) recMoveList
                 (tset (encode G move) recMoveTree moveTree)
          else mm_min_loop rec rest value best_move moveList
                 (tset (encode G move) recMoveTree moveTree)
      end
  end.

(** [moveList.insert(0, best_move); return value, moveList, moveTree] *)
Definition finish (st : option (LoopSt G)) : option (Result G) :=
  match st with
  | None => None
  | Some (value, best_move, moveList, moveTree) =>
      Some (value, best_move :: moveList, moveTree)
  end.

Fixpoint minimax (fuel : nat) (side : bool) (board : Board G)
    (flags : Flags G) (depth : Z) : option (Result G) :=
  if depth =? 0 then Some (Fin (evaluate G board), [], Node [])
  else
    match fuel with
    | O => None
    | S fuel' =>
        let possible_moves := generateMoves G side board flags in
        let rec := fun move =>
          let '(newside, newboard, newflags) :=
            makeMove G side board move flags in
          minimax fuel' newside newboard newflags (depth - 1) in
        if negb side
        then finish (mm_max_loop rec possible_moves NegInf None [] (Node []))
        else finish (mm_min_loop rec possible_moves PosInf None [] (Node []))
    end.

(** *** alphabeta *)

(** The [side == False] loop: [beta] is fixed, [alpha] is raised. *)
Fixpoint ab_max_loop (rec : Move G -> EVal -> EVal -> option (Result G))
    (moves : list (Move G)) (value : EVal) (best_move : option (Move G))
    (moveList : list (option (Move G))) (moveTree : MoveTree (Key G))
    (alpha beta : EVal) : option (LoopSt G) :=
  match moves with
  | [] => Some (value, best_move, moveList, moveTree)
  | move :: rest =>
      match rec move alpha beta with
      | None => None
      | Some (recValue, recMoveList, recMoveTree) =>
          let '(value, best_move, moveList) :=
            if ev_gtb recValue value
            then (recValue, Some move, recMoveList)
            else (value, best_move, moveList) in
          let moveTree := tset (encode G move) recMoveTree moveTree in
          if ev_geb value beta
          then Some (value, best_move, moveList, moveTree)
          else
            let alpha := if ev_gtb value alpha then value else alpha in
            ab_max_loop rec rest value best_move moveList moveTree alpha beta
      end
  end.

(** The [side == True] loop: [alpha] is fixed, [beta] is lowered. *)
Fixpoint ab_min_loop (rec : Move G -> EVal -> EVal -> option (Result G))
    (moves : list (Move G)) (value : EVal) (best_move : option (Move G))
    (moveList : list (option (Move G))) (moveTree : MoveTree (Key G))
    (alpha beta : EVal) : option (LoopSt G) :=
  match moves with
  | [] => Some (value, best_move, moveList, moveTree)
  | move :: rest =>
      match rec move alpha beta with
      | None => None
      | Some (recValue, recMoveList, recMoveTree) =>
          let '(value, best_move, moveList) :=
            if ev_ltb recValue value
            then (recValue, Some move, recMoveList)
            else (value, best_move, moveList) in
          let moveTree := tset (encode G move) recMoveTree moveTree in
          if ev_leb value alpha
          then Some (value, best_move, moveList, moveTree)
          else
            let beta := if ev_ltb value beta then value else beta in
            ab_min_loop rec rest value best_move moveList moveTree alpha beta
      end
  end.

Fixpoint alphabeta (fuel : nat) (side : bool) (board : Board G)
    (flags : Flags G) (depth : Z) (alpha beta : EVal)
  : option (Result G) :=
  if depth =? 0 then Some (Fin (evaluate G board), [], Node [])
  else
    match fuel with
    | O => None
    | S fuel' =>
        let possible_moves := generateMoves G side board flags in
        let rec := fun move a b =>
          let '(newside, newboard, newflags) :=
            makeMove G side board move flags in
          alphabeta fuel' newside newboard newflags (depth - 1) a b in
        if negb side
        then finish (ab_max_loop rec possible_moves NegInf None []
                       (Node []) alpha beta)
        else finish (ab_min_loop rec possible_moves PosInf None []
                       (Node []) alpha beta)
    end.

End MinimaxAlphabeta.

(** ** The alpha-beta window contract

    [m] is the minimax value of a position, [r] what alpha-beta returns for
    it inside the window ([alpha], [beta]).  A bound that is still the
    sentinel it started from cuts nothing off. *)
Definition lowok (alpha m : EVal) : Prop := ev_lt alpha m \/ alpha = NegInf.
Definition highok (m beta : EVal) : Prop := ev_lt m beta \/ beta = PosInf.

Definition sound {A : Type} (alpha beta m : EVal) (p : A) (r : EVal) (q : A)
  : Prop :=
  (lowok alpha m -> highok m beta -> r = m /\ q = p) /\
  (~ lowok alpha m -> ev_le r alpha) /\
  (~ highok m beta -> ev_le beta r).

Definition ab_refines {G : Game} (recM : Move G -> option (Result G))
    (recA : Move G -> EVal -> EVal -> option (Result G)) : Prop :=
  forall move m p t, recM move = Some (m, p, t) ->
  forall alpha beta, exists r q t',
    recA move alpha beta = Some (r, q, t') /\
    (ev_lt alpha beta -> sound alpha beta m p r q).

(** ** What the trees record *)

(** Entry [kv] is what a minimax loop records for [move]: its key and the
    tree its recursive call returned. *)
Definition recorded_mm {G : Game} (rec : Move G -> option (Result G))
    (move : Move G) (kv : Key G * MoveTree (Key G)) : Prop :=
  fst kv = encode G move /\ exists v p, rec move = Some (v, p, snd kv).

(** The same for an alpha-beta loop, whose recursive call also takes the
    bounds current at that move. *)
Definition recorded_ab {G : Game}
    (rec : Move G -> EVal -> EVal -> option (Result G))
    (move : Move G) (kv : Key G * MoveTree (Key G)) : Prop :=
  fst kv = encode G move /\ exists a b v p, rec move a b = Some (v, p, snd kv).

(** The recursive calls of [minimax] and [alphabeta] at a position. *)
Definition child_mm (G : Game) (fuel : nat) (side : bool) (board : Board G)
    (flags : Flags G) (depth : Z) : Move G -> option (Result G) :=
  fun move =>
    let '(newside, newboard, newflags) := makeMove G side board move flags in
    minimax G fuel newside newboard newflags (depth - 1).

Definition child_ab (G : Game) (fuel : nat) (side : bool) (board : Board G)
    (flags : Flags G) (depth : Z)
  : Move G -> EVal -> EVal -> option (Result G) :=
  fun move a b =>
    let '(newside, newboard, newflags) := makeMove G side board move flags in
    alphabeta G fuel newside newboard newflags (depth - 1) a b.

(** The recursive call on [m] returns, with a value satisfying [P]. *)
Definition valued (G : Game) (rec : Move G -> option (Result G))
    (m : Move G) (P : EVal -> Prop) : Prop :=
  exists rv rl rt, rec m = Some (rv, rl, rt) /\ P rv.

(** Induction over a tree and the trees below it. *)
Fixpoint MoveTree_forall_ind {K : Type} (P : MoveTree K -> Prop)
    (H : forall es, Forall (fun kv => P (snd kv)) es -> P (Node es))
    (t : MoveTree K) : P t :=
  match t with
  | Node es =>
      H es ((fix go (l : list (K * MoveTree K))
               : Forall (fun kv => P (snd kv)) l :=
               match l with
               | [] => Forall_nil _
               | (k, sub) :: r =>
                   Forall_cons (k, sub) (MoveTree_forall_ind P H sub) (go r)
               end) es)
  end.

(** The same game with another move generator and another transition. *)
Definition with_moves (G : Game)
    (gen : bool -> Board G -> Flags G -> list (Move G))
    (mk : bool -> Board G -> Move G -> Flags G -> bool * Board G * Flags G)
  : Game :=
  {| Board := Board G; Flags := Flags G; Move := Move G; Key := Key G;
     Key_eq_dec := Key_eq_dec G; encode := encode G;
     generateMoves := gen; makeMove := mk; evaluate := evaluate G |}.

(** ** Concrete games

    A game given by a table: positions are numbered, a move names the
    position it leads to and is its own key, and the side alternates with
    every move. *)
Definition table_game (moves : nat -> list nat) (value : nat -> Z) : Game :=
  {| Board := nat; Flags := unit; Move := nat; Key := nat;
     Key_eq_dec := Nat.eq_dec; encode := fun m => m;
     generateMoves := fun _ b _ => moves b;
     makeMove := fun side _ m fl => (negb side, m, fl);
     evaluate := value |}.

(** Two plies, two moves each; after move 1 is worth 3, the first reply to
    move 2 (worth 2) already cuts move 2 off. *)
Definition pruning_game : Game :=
  table_game
    (fun b => match b with
              | 0 => [1; 2] | 1 => [3; 4] | 2 => [5; 6] | _ => []
              end%nat)
    (fun b => match b with
              | 3%nat => 3 | 4%nat => 5 | 5%nat => 2 | 6%nat => 9 | _ => 0
              end).

(** Three plies in which the two replies at position 2, moves 4 and 5,
    share the key 4. *)
Definition colliding_game : Game :=
  {| Board := nat; Flags := unit; Move := nat; Key := nat;
     Key_eq_dec := Nat.eq_dec;
     encode := fun m => match m with 5%nat => 4%nat | _ => m end;
     generateMoves := fun _ b _ =>
       match b with
       | 0 => [1; 2] | 1 => [3] | 3 => [7] | 2 => [4; 5]
       | 4 => [8; 9; 10] | 5 => [11] | _ => []
       end%nat;
     makeMove := fun side _ m fl => (negb side, m, fl);
     evaluate := fun b =>
       match b with
       | 7%nat => 5 | 8%nat => 1 | 9%nat => 1 | 10%nat => 1 | _ => 0
       end |}.

(** One line of play 0 -> 1 -> 2, and no move at position 2. *)
Definition mate_game : Game :=
  table_game
    (fun b => match b with 0 => [1] | 1 => [2] | _ => [] end%nat)
    (fun b => match b with 2%nat => 7 | _ => 0 end).

(** ** stochastic *)

(** The exceptions [stochastic] can end in.  [ChooserError] is whatever the
    injected chooser raises; [OutOfFuel] never happens (the [while] loop is
    bounded by [depth]). *)
Inductive exn : Type :=
| IndexError
| ZeroDivisionError
| OverflowError
| UnboundLocalError
| KeyError
| ChooserError
| OutOfFuel.

Inductive result (A : Type) : Type :=
| Ok (a : A)
| Raise (e : exn).
Arguments Ok {A} a.
Arguments Raise {A} e.

Definition bind {A B : Type} (c : result A) (k : A -> result B) : result B :=
  match c with
  | Ok a => k a
  | Raise e => Raise e
  end.

Notation "x <- c ;; k" := (bind c (fun x => k))
  (at level 61, c at next level, right associativity).
Notation "' pat <- c ;; k" := (bind c (fun x => match x with pat => k end))
  (at level 61, pat pattern, c at next level, right associativity).

(** The running minimum starts as [float('inf')]. *)
Inductive QVal : Type :=
| QFin (q : Q)
| QInf.

(** [val < min] *)
Definition qv_ltb (val : Q) (min : QVal) : bool :=
  match min with
  | QInf => true
  | QFin m => negb (Qle_bool m val)
  end.

(** *** Python's division of one [int] by another

    [a / b] is the binary64 float nearest the exact quotient, a tie going
    to the even significand.  It raises [ZeroDivisionError] when [b] is 0
    and [OverflowError] when the rounded quotient is 2^1024 or more.  A
    float is represented by the rational it denotes, in lowest terms; the
    two zeros are one value, and no comparison tells them apart. *)

(** [num / den] rounded to the nearest integer, a tie going to the even
    one ([0 <= num], [0 < den]). *)
Definition round_half_even (num den : Z) : Z :=
  let q := num / den in
  match 2 * (num mod den) ?= den with
  | Lt => q
  | Gt => q + 1
  | Eq => if Z.even q then q else q + 1
  end.

(** [2 ^ e <= x / n] ([0 < x], [0 < n]). *)
Definition ge_pow2 (x n e : Z) : bool :=
  if 0 <=? e then n * 2 ^ e <=? x else n <=? x * 2 ^ (- e).

(** The float nearest [a / b] ([b <> 0]), [None] when it is out of range.
    [lead] is the exponent of the leading bit of the quotient and [e] that
    of the last bit kept: 53 bits are kept, and no bit below 2^-1074. *)
Definition float_quotient (a b : Z) : option Q :=
  if a =? 0 then Some (0 # 1)
  else
    let x := Z.abs a in
    let n := Z.abs b in
    let e0 := Z.log2 x - Z.log2 n in
    let lead := if ge_pow2 x n e0 then e0 else e0 - 1 in
    let e := Z.max (lead - 52) (-1074) in
    let m := if 0 <=? e then round_half_even x (n * 2 ^ e)
             else round_half_even (x * 2 ^ (- e)) n in
    let s := Z.sgn a * Z.sgn b in
    if (0 <=? e) && (2 ^ 1024 <=? m * 2 ^ e) then None
    else Some (Qred (if 0 <=? e then inject_Z (s * m * 2 ^ e)
                     else Qmake (s * m) (Z.to_pos (2 ^ (- e))))).

Definition py_truediv (a b : Z) : result Q :=
  if b =? 0 then Raise ZeroDivisionError
  else match float_quotient a b with
       | None => Raise OverflowError
       | Some q => Ok q
       end.
Arguments py_truediv : simpl never.

(** [avg = 0; for val in vals_to_avg: avg += val; avg /= len(vals_to_avg)] *)
Definition avg (vals_to_avg : list Z) : result Q :=
  py_truediv (fold_left Z.add vals_to_avg 0) (Z.of_nat (length vals_to_avg)).
Arguments avg : simpl never.

Section Stochastic.
Variable G : Game.
(** The chooser: a state (the random source), and [None] when it raises. *)
Variable R : Type.
Variable chooser : R -> list (Move G) -> option (Move G * R).

Local Notation tset := (dict_set (Key_eq_dec G)).
Local Notation tget := (dict_get (Key_eq_dec G)).
Local Notation Tree := (MoveTree (Key G)).
Local Notation Pos := (bool * Board G * Flags G)%type.

(** The [for] loop of [backtrackPath] from index 1 on: [prev] is
    [path[i-1]], the head of [rest] is [path[i]]. *)
Fixpoint backtrack_loop (prev : Move G) (rest : list (Move G)) (mTree : Tree)
  : result Tree :=
  match rest with
  | [] => Ok mTree
  | cur :: rest' =>
      match tget (encode G prev) mTree with
      | None => Raise KeyError
      | Some sub =>
          backtrack_loop cur rest'
            (tset (encode G cur) (Node [(encode G prev, sub)]) mTree)
      end
  end.

Definition backtrackPath (mTree : Tree) (path : list (Move G)) : result Tree :=
  match path with
  | [] => Raise IndexError
  | first :: rest =>
      mTree' <- backtrack_loop first rest
                  (tset (encode G first) (Node []) mTree) ;;
      let final := last path first in
      match tget (encode G final) mTree' with
      | None => Raise KeyError
      | Some sub => Ok (Node [(encode G final, sub)])
      end
  end.

(** The [while (curr_depth <= depth)] loop of one rollout. *)
Fixpoint rollout_loop (fuel : nat) (depth : Z) (i_move : Move G)
    (curr_depth : Z) (path : list (Move G)) (pos : Pos)
    (vals_to_avg : list Z) (moveTree : Tree) (rs : R)
  : result (list Z * Tree * list (Move G) * R) :=
  if curr_depth <=? depth then
    let '(i_side, i_board, i_flags) := pos in
    if curr_depth =? depth then
      let value := evaluate G i_board in
      let vals_to_avg := vals_to_avg ++ [value] in
      child_tree <- backtrackPath (Node []) path ;;
      match tget (encode G i_move) moveTree with
      | None => Raise KeyError
      | Some sub =>
          Ok (vals_to_avg,
              tset (encode G i_move)
                (dict_update (Key_eq_dec G) sub child_tree) moveTree,
              path, rs)
      end
    else
      match fuel with
      | O => Raise OutOfFuel
      | S fuel' =>
          let possible_moves := generateMoves G i_side i_board i_flags in
          match chooser rs possible_moves with
          | None => Raise ChooserError
          | Some (move, rs') =>
              rollout_loop fuel' depth i_move (curr_depth + 1) (move :: path)
                (makeMove G i_side i_board move i_flags)
                vals_to_avg moveTree rs'
          end
      end
  else Ok (vals_to_avg, moveTree, path, rs).

(** [for j in range(breadth)]; [path] is unbound ([None]) until the first
    rollout binds it. *)
Fixpoint breadth_loop (depth : Z) (i_move : Move G) (initial_move : Pos)
    (j : nat) (vals_to_avg : list Z) (moveTree : Tree)
    (path : option (list (Move G))) (rs : R)
  : result (list Z * Tree * option (list (Move G)) * R) :=
  match j with
  | O => Ok (vals_to_avg, moveTree, path, rs)
  | S j' =>
      '(vals, mt, p, rs') <-
        rollout_loop (Z.to_nat depth) depth i_move 1 [] initial_move
          vals_to_avg moveTree rs ;;
      breadth_loop depth i_move initial_move j' vals mt (Some p) rs'
  end.

(** [for i_move in initial_moves] *)
Fixpoint moves_loop (side : bool) (board : Board G) (flags : Flags G)
    (depth breadth : Z) (initial_moves : list (Move G))
    (moveList : list (list (Move G))) (initial_move_averages : list Q)
    (moveTree : Tree) (path : option (list (Move G))) (rs : R)
  : result (list (list (Move G)) * list Q * Tree) :=
  match initial_moves with
  | [] => Ok (moveList, initial_move_averages, moveTree)
  | i_move :: rest =>
      let moveTree := tset (encode G i_move) (Node []) moveTree in
      let initial_move := makeMove G side board i_move flags in
      '(vals_to_avg, moveTree, path, rs) <-
        breadth_loop depth i_move initial_move (Z.to_nat breadth) []
          moveTree path rs ;;
      match path with
      | None => Raise UnboundLocalError
      | Some p =>
          let p := i_move :: p in
          let moveList := moveList ++ [p] in
          q <- avg vals_to_avg ;;
          moves_loop side board flags depth breadth rest moveList
            (initial_move_averages ++ [q]) moveTree (Some p) rs
      end
  end.

(** [for i, val in enumerate(initial_move_averages)]; the running maximum
    the source also keeps is never read and is left out. *)
Fixpoint min_loop (i : nat) (averages : list Q) (min : QVal) (min_idx : nat)
  : QVal * nat :=
  match averages with
  | [] => (min, min_idx)
  | val :: rest =>
      if qv_ltb val min then min_loop (S i) rest (QFin val) i
      else min_loop (S i) rest min min_idx
  end.

Definition stochastic (side : bool) (board : Board G) (flags : Flags G)
    (depth breadth : Z) (rs : R)
  : result (QVal * list (Move G) * Tree) :=
  '(moveList, averages, moveTree) <-
    moves_loop side board flags depth breadth
      (generateMoves G side board flags) [] [] (Node []) None rs ;;
  let '(min, min_idx) := min_loop 0 averages QInf 0 in
  match nth_error moveList min_idx with
  | None => Raise IndexError
  | Some p => Ok (min, p, moveTree)
  end.

(** *** What the specification says a rollout is *)

(** [k] plies chosen by the chooser from [pos]: the moves in the order
    played, the position reached and the chooser state. *)
Fixpoint play (k : nat) (pos : Pos) (rs : R)
  : option (list (Move G) * Pos * R) :=
  match k with
  | O => Some ([], pos, rs)
  | S k' =>
      let '(s, b, f) := pos in
      match chooser rs (generateMoves G s b f) with
      | None => None
      | Some (move, rs') =>
          match play k' (makeMove G s b move f) rs' with
          | None => None
          | Some (mvs, pos', rs'') => Some (move :: mvs, pos', rs'')
          end
      end
  end.

(** A move sequence unwound into nested single-child nodes. *)
Fixpoint unwind (mvs : list (Move G)) : Tree :=
  match mvs with
  | [] => Node []
  | m :: r => Node [(encode G m, unwind r)]
  end.

(** [j] rollouts of [k] plies from [pos], one after the other: for each its
    moves and the evaluation of the leaf it reached. *)
Fixpoint rollouts (j k : nat) (pos : Pos) (rs : R)
  : option (list (list (Move G) * Z) * R) :=
  match j with
  | O => Some ([], rs)
  | S j' =>
      match play k pos rs with
      | None => None
      | Some (mvs, (_, b', _), rs') =>
          match rollouts j' k pos rs' with
          | None => None
          | Some (ros, rs'') => Some ((mvs, evaluate G b') :: ros, rs'')
          end
      end
  end.

(** The chains of the rollouts merged, in order, into a sub-tree. *)
Definition merge_rollouts (ros : list (list (Move G) * Z)) (sub : Tree)
  : Tree :=
  fold_left (fun t ro => dict_update (Key_eq_dec G) t (unwind (fst ro)))
    ros sub.

(** The rollouts of every first move, in generation order. *)
Fixpoint samples (side : bool) (board : Board G) (flags : Flags G)
    (j k : nat) (moves : list (Move G)) (rs : R)
  : option (list (Move G * list (list (Move G) * Z))) :=
  match moves with
  | [] => Some []
  | i_move :: rest =>
      match rollouts j k (makeMove G side board i_move flags) rs with
      | None => None
      | Some (ros, rs') =>
          match samples side board flags j k rest rs' with
          | None => None
          | Some l => Some ((i_move, ros) :: l)
          end
      end
  end.

End Stochastic.

(** A game for rollouts: 0 -> 1 | 2, 1 -> 3 | 4, 2 -> 5. *)
Definition rollout_game : Game :=
  table_game
    (fun b => match b with 0 => [1; 2] | 1 => [3; 4] | 2 => [5] | _ => [] end%nat)
    (fun b => match b with 3%nat => 10 | 4%nat => 20 | 5%nat => 12 | _ => 0 end).

(** A game whose leaves are next to each other where floats are not:
    0 -> 1 | 2, 1 -> 3, 2 -> 4, with 3 worth 2^53 + 1 and 4 worth 2^53. *)
Definition rounding_game : Game :=
  table_game
    (fun b => match b with 0 => [1; 2] | 1 => [3] | 2 => [4] | _ => [] end%nat)
    (fun b => match b with
              | 3%nat => 9007199254740993
              | 4%nat => 9007199254740992
              | _ => 0
              end).

(** A chooser that walks through the candidates: its state counts the
    calls; it raises on an empty list, as [random.choice] does. *)
Definition cycle_chooser (n : nat) (l : list nat) : option (nat * nat) :=
  match l with
  | [] => None
  | _ => Some (nth (Nat.modulo n (length l)) l O, S n)
  end.

(** What [path] is bound to after the rollouts [ros], starting from [path]:
    the reversed move sequence of the last one. *)
Definition final_path {M : Type} (ros : list (list M * Z))
    (path : option (list M)) : option (list M) :=
  fold_left (fun _ ro => Some (rev (fst ro))) ros path.

(** What a first move's sample contributes: its path (the first move, then
    the last rollout's moves, latest first, as [path.insert(0, move)] left
    them), its estimate and its entry of the tree. *)
Definition sample_path {M : Type} (s : M * list (list M * Z)) : list M :=
  fst s :: rev (fst (last (snd s) ([], 0))).

Definition sample_avg {M : Type} (s : M * list (list M * Z)) : result Q :=
  avg (map snd (snd s)).

(** The estimates of the first moves, one after the other. *)
Fixpoint sample_avgs {M : Type} (smp : list (M * list (list M * Z)))
  : result (list Q) :=
  match smp with
  | [] => Ok []
  | s :: rest =>
      q <- sample_avg s ;;
      qs <- sample_avgs rest ;;
      Ok (q :: qs)
  end.

(** The arithmetic mean of a non-empty list, as the specification words
    the estimate: the exact quotient. *)
Definition mean (vals : list Z) : Q :=
  Qmake (fold_left Z.add vals 0) (Pos.of_nat (length vals)).

Definition sample_tree (G : Game) (t : MoveTree (Key G))
    (s : Move G * list (list (Move G) * Z)) : MoveTree (Key G) :=
  dict_set (Key_eq_dec G) (encode G (fst s))
    (merge_rollouts G (snd s) (Node [])) t.


(** ** Lines of play *)

(** A move list as the searches return it is a legal line from a position:
    every move is one the generator yields at the position reached, and
    [None] can only end the list. *)
Fixpoint legal_line (G : Game) (side : bool) (board : Board G)
    (flags : Flags G) (path : list (option (Move G))) : Prop :=
  match path with
  | [] => True
  | None :: rest => rest = []
  | Some m :: rest =>
      In m (generateMoves G side board flags) /\
      let '(s', b', f') := makeMove G side board m flags in
      legal_line G s' b' f' rest
  end.

(** The position reached by playing the moves of a list (up to the first
    [None]). *)
Fixpoint follow (G : Game) (side : bool) (board : Board G) (flags : Flags G)
    (path : list (option (Move G))) : bool * Board G * Flags G :=
  match path with
  | Some m :: rest =>
      let '(s', b', f') := makeMove G side board m flags in
      follow G s' b' f' rest
  | _ => (side, board, flags)
  end.

Definition board_of {G : Game} (pos : bool * Board G * Flags G) : Board G :=
  snd (fst pos).

(** The value a returned line stands for: the sentinel when the line ends
    in [None], the evaluation of the board it leads to otherwise, and then
    the line is as long as the depth. *)
Definition line_value (G : Game) (side : bool) (board : Board G)
    (flags : Flags G) (depth : Z) (v : EVal) (p : list (option (Move G)))
  : Prop :=
  (In None p -> v = NegInf \/ v = PosInf) /\
  (~ In None p ->
   Z.of_nat (length p) = depth /\
   v = Fin (evaluate G (board_of (follow G side board flags p)))).

(** A game that never ends: from position [b] one can move to [b + 1] and
    to [b + 2]; a position is worth its number. *)
Definition ladder_game : Game :=
  table_game (fun b => [S b; S (S b)]) (fun b => Z.of_nat b).

(** ** Comparing and reading trees *)

(** [entries_prefix P ea em]: the entries [ea] match, key by key and with
    sub-trees related by [P], the first entries of [em]. *)
Fixpoint entries_prefix {K : Type} (P : MoveTree K -> MoveTree K -> Prop)
    (ea em : list (K * MoveTree K)) : Prop :=
  match ea, em with
  | [], _ => True
  | (ka, sa) :: ra, (km, sm) :: rm => ka = km /\ P sa sm /\ entries_prefix P ra rm
  | _ :: _, [] => False
  end.

(** [tree_prefix ta tm]: [ta] is [tm] pruned: at every node the entries of
    [ta] are the first entries of [tm], with pruned sub-trees. *)
Fixpoint tree_prefix {K : Type} (ta tm : MoveTree K) {struct ta} : Prop :=
  match ta, tm with
  | Node ea, Node em =>
      (fix go (ea em : list (K * MoveTree K)) {struct ea} : Prop :=
         match ea, em with
         | [], _ => True
         | (ka, sa) :: ra, (km, sm) :: rm =>
             ka = km /\ tree_prefix sa sm /\ go ra rm
         | _ :: _, [] => False
         end) ea em
  end.

(** The moves of a line can be looked up one below the other in a tree. *)
Fixpoint line_in_tree (G : Game) (path : list (option (Move G)))
    (t : MoveTree (Key G)) : Prop :=
  match path with
  | Some m :: rest =>
      exists sub,
        dict_get (Key_eq_dec G) (encode G m) t = Some sub /\
        line_in_tree G rest sub
  | _ => True
  end.

(** The invariant of the loops about the best move so far: its tree is
    under its key, and no move still to come has that key. *)
Definition best_kept (G : Game) (b : option (Move G))
    (l : list (option (Move G))) (t : MoveTree (Key G))
    (moves : list (Move G)) : Prop :=
  match b with
  | None => True
  | Some m =>
      (exists sub,
          dict_get (Key_eq_dec G) (encode G m) t = Some sub /\
          line_in_tree G l sub) /\
      ~ In (encode G m) (map (encode G) moves)
  end.

(** ** The mirrored game

    The same game seen from the other side: the roles of the two sides are
    exchanged and every evaluation is negated. *)
Definition ev_neg (a : EVal) : EVal :=
  match a with
  | NegInf => PosInf
  | Fin z => Fin (- z)
  | PosInf => NegInf
  end.

Definition mirror (G : Game) : Game :=
  {| Board := Board G; Flags := Flags G; Move := Move G; Key := Key G;
     Key_eq_dec := Key_eq_dec G; encode := encode G;
     generateMoves := fun s b f => generateMoves G (negb s) b f;
     makeMove := fun s b m f =>
       let '(s', b', f') := makeMove G (negb s) b m f in (negb s', b', f');
     evaluate := fun b => - evaluate G b |}.

Definition neg_result {G : Game} (r : option (Result G))
  : option (Result (mirror G)) :=
  match r with
  | Some (v, p, t) => Some (ev_neg v, p, t)
  | None => None
  end.

Definition neg_loop {G : Game} (st : option (LoopSt G))
  : option (LoopSt (mirror G)) :=
  match st with
  | Some (v, b, l, t) => Some (ev_neg v, b, l, t)
  | None => None
  end.

(** ** A chooser without state

    [fixed_chooser pick] answers from the candidates alone; [pick] answers
    [None] where the chooser raises. *)
Definition fixed_chooser {M : Type} (pick : list M -> option M)
  : unit -> list M -> option (M * unit) :=
  fun _ l => match pick l with Some m => Some (m, tt) | None => None end.

(** The one rollout such a chooser can make after first move [m]: its moves
    and the position it ends in (the position after [m] where the chooser
    raises on the way). *)
Definition fixed_line (G : Game) (pick : list (Move G) -> option (Move G))
    (side : bool) (board : Board G) (flags : Flags G) (depth : Z)
    (m : Move G) : list (Move G) * (bool * Board G * Flags G) :=
  match play G unit (fixed_chooser pick) (Z.to_nat (depth - 1))
          (makeMove G side board m flags) tt with
  | Some (mvs, pos', _) => (mvs, pos')
  | None => ([], makeMove G side board m flags)
  end.

(** The evaluation of the leaf of that rollout. *)
Definition fixed_leaf (G : Game) (pick : list (Move G) -> option (Move G))
    (side : bool) (board : Board G) (flags : Flags G) (depth : Z)
    (m : Move G) : Z :=
  evaluate G (board_of (snd (fixed_line G pick side board flags depth m))).

(** ** random

    Returns (value, moveList, moveTree) for one move picked by the
    chooser, or for no move when none is legal. *)
Definition random (G : Game) (R : Type)
    (chooser : R -> list (Move G) -> option (Move G * R))
    (side : bool) (board : Board G) (flags : Flags G) (rs : R)
  : result (Z * list (Move G) * MoveTree (Key G)) :=
  let moves := generateMoves G side board flags in
  if (0 <? length moves)%nat then
    match chooser rs moves with
    | None => Raise ChooserError
    | Some (move, _) =>
        let '(newside, newboard, newflags) :=
          makeMove G side board move flags in
        let value := evaluate G newboard in
        Ok (value, [move], Node [(encode G move, Node [])])
    end
  else Ok (evaluate G board, [], Node []).

(** ** The value of a game

    The definition the comments of [minimax] give: the utility of the node
    when it is terminal, else the max over the actions of the value of the
    successor for player MAX and the min for player MIN.  Here for a
    position searched [n] plies deep, with -inf or +inf when there is no
    move. *)
Definition ev_max (a b : EVal) : EVal := if ev_ltb a b then b else a.
Definition ev_min (a b : EVal) : EVal := if ev_ltb b a then b else a.

Fixpoint game_value (G : Game) (n : nat) (side : bool) (board : Board G)
    (flags : Flags G) : EVal :=
  match n with
  | O => Fin (evaluate G board)
  | S n' =>
      let vals :=
        map (fun m => let '(s', b', f') := makeMove G side board m flags in
                      game_value G n' s' b' f')
          (generateMoves G side board flags) in
      if side then fold_right ev_min PosInf vals
      else fold_right ev_max NegInf vals
  end.

(** ** generateMoves

    The generator of [search.py] over the chess library it calls:
    [pieces side board] is [board[side]], [fro_of piece] is [piece[:2]],
    [availableMoves] and [getPromote] are the library's.  A move is
    (fro, to, promote). *)
Section GenerateMoves.
Variables LBoard LFlags Piece Square Promote : Type.
Variable pieces : bool -> LBoard -> list Piece.
Variable fro_of : Piece -> Square.
Variable availableMoves : bool -> LBoard -> Piece -> LFlags -> list Square.
Variable getPromote : bool -> LBoard -> Square -> Square -> Promote.

Definition generateMoves_lib (side : bool) (board : LBoard) (flags : LFlags)
  : list (Square * Square * Promote) :=
  flat_map
    (fun piece =>
       let fro := fro_of piece in
       map (fun to => (fro, to, getPromote side board fro to))
         (availableMoves side board piece flags))
    (pieces side board).
End GenerateMoves.

(** ** How deep a tree goes *)

Fixpoint height {K : Type} (t : MoveTree K) : nat :=
  match t with
  | Node es =>
      (fix go (l : list (K * MoveTree K)) : nat :=
         match l with
         | [] => O
         | (_, sub) :: r => Nat.max (S (height sub)) (go r)
         end) es
  end.

Fixpoint heights {K : Type} (l : list (K * MoveTree K)) : nat :=
  match l with
  | [] => O
  | (_, sub) :: r => Nat.max (S (height sub)) (heights r)
  end.
(** * Properties *)

(** ** The order on search values *)

Module EVTot <: IsTotalOrder EV.
#[global] Instance eq_equiv : Equivalence EV.eq.
Proof. unfold EV.eq; split; congruence. Qed.
#[global] Instance lt_strorder : StrictOrder EV.lt.
Proof.
  split.
  - intros x; unfold complement, EV.lt, ev_lt; destruct x; cbn;
      rewrite ?Z.ltb_lt; try discriminate; lia.
  - intros x y z; unfold EV.lt, ev_lt; destruct x, y, z; cbn;
      rewrite ?Z.ltb_lt; try discriminate; auto; lia.
Qed.
#[global] Instance lt_compat : Proper (EV.eq ==> EV.eq ==> iff) EV.lt.
Proof. unfold EV.eq; intros x x' -> y y' ->; reflexivity. Qed.
Lemma le_lteq : forall x y, EV.le x y <-> EV.lt x y \/ EV.eq x y.
Proof.
  intros x y; unfold EV.le, EV.lt, EV.eq, ev_le, ev_lt.
  destruct x, y; cbn; rewrite ?Z.ltb_lt, ?Z.ltb_ge; split; intros H; auto;
    try discriminate;
    try (destruct H as [H|H]; [discriminate H || lia | discriminate H]).
  - destruct (Z.eq_dec z z0); [right; congruence | left; lia].
  - destruct H as [H|H]; [lia|]. inversion H; lia.
Qed.
Lemma lt_total : forall x y, EV.lt x y \/ EV.eq x y \/ EV.lt y x.
Proof.
  intros x y; unfold EV.lt, EV.eq, ev_lt.
  destruct x, y; cbn; rewrite ?Z.ltb_lt; auto.
  destruct (Z.lt_trichotomy z z0) as [H|[H|H]];
    [left; lia | right; left; congruence | right; right; lia].
Qed.
End EVTot.

Module EVOrd := MakeOrderTac EV EVTot.

Lemma ev_le_NegInf x : ev_le NegInf x.
Proof. destruct x; reflexivity. Qed.

Lemma ev_le_PosInf x : ev_le x PosInf.
Proof. destruct x; reflexivity. Qed.

Ltac ev_prep :=
  unfold ev_gtb, ev_geb, ev_leb in *;
  repeat match goal with
  | H : negb _ = true |- _ => apply negb_true_iff in H
  | H : negb _ = false |- _ => apply negb_false_iff in H
  | H : ev_ltb ?a ?b = true |- _ => change (ev_lt a b) in H
  | H : ev_ltb ?a ?b = false |- _ => change (ev_le b a) in H
  end.

Ltac ev_bounds :=
  repeat match goal with
  | x : EVal |- _ =>
      lazymatch goal with
      | _ : ev_le NegInf x |- _ => fail
      | _ => pose proof (ev_le_NegInf x); pose proof (ev_le_PosInf x)
      end
  end.

Ltac ev_order := ev_prep; ev_bounds; EVOrd.order.

Lemma lowok_cases alpha m :
  lowok alpha m \/ (~ lowok alpha m /\ ev_le m alpha /\ alpha <> NegInf).
Proof.
  unfold lowok. destruct (ev_ltb alpha m) eqn:E.
  - left; left; exact E.
  - destruct alpha; try (left; right; reflexivity);
      right;
      (split;
       [intros [H|H]; [unfold ev_lt in H; congruence | discriminate]
       | split; [exact E | discriminate]]).
Qed.

Lemma highok_cases m beta :
  highok m beta \/ (~ highok m beta /\ ev_le beta m /\ beta <> PosInf).
Proof.
  unfold highok. destruct (ev_ltb m beta) eqn:E.
  - left; left; exact E.
  - destruct beta; try (left; right; reflexivity);
      right;
      (split;
       [intros [H|H]; [unfold ev_lt in H; congruence | discriminate]
       | split; [exact E | discriminate]]).
Qed.

Ltac ev_hyps :=
  repeat match goal with
  | H : lowok _ _ |- _ => destruct H as [H|H]
  | H : highok _ _ |- _ => destruct H as [H|H]
  | H : ~ lowok ?a ?m |- _ =>
      destruct (lowok_cases a m) as [?|(_ & ? & ?)]; [contradiction|clear H]
  | H : ~ highok ?m ?b |- _ =>
      destruct (highok_cases m b) as [?|(_ & ? & ?)]; [contradiction|clear H]
  | H : _ /\ _ |- _ => destruct H
  | H : _ \/ _ |- _ => destruct H
  end.

Ltac ev_fin :=
  solve [ ev_order | exfalso; ev_order | reflexivity | assumption
        | congruence ].

Ltac ev_auto :=
  intros; ev_hyps;
  repeat match goal with
  | |- _ /\ _ => split
  | |- context [if ?c then _ else _] => destruct c eqn:?
  end;
  first [ ev_fin
        | left; ev_fin | right; ev_fin
        | left; split; ev_fin | right; split; ev_fin ].

(** ** Alpha-beta against minimax *)

Section AlphaBetaSound.
Variable G : Game.

(** The running value of a minimax loop only moves in its direction, and
    when it ends where it started no move replaced the best one. *)
Lemma mm_max_loop_mono rec moves :
  forall M b l t M' b' l' t',
    mm_max_loop G rec moves M b l t = Some (M', b', l', t') ->
    ev_le M M' /\ (M' = M -> b' = b /\ l' = l).
Proof.
  induction moves as [|move rest IH]; intros M b l t M' b' l' t' H; simpl in H.
  - inversion H; subst. split; [ev_order | auto].
  - destruct (rec move) as [[[rv rl] rt]|]; [|discriminate].
    destruct (ev_gtb rv M) eqn:E; apply IH in H; destruct H as [H1 H2].
    + split; [ev_order | intros; exfalso; ev_order].
    + split; [ev_order | auto].
Qed.

Lemma mm_min_loop_mono rec moves :
  forall M b l t M' b' l' t',
    mm_min_loop G rec moves M b l t = Some (M', b', l', t') ->
    ev_le M' M /\ (M' = M -> b' = b /\ l' = l).
Proof.
  induction moves as [|move rest IH]; intros M b l t M' b' l' t' H; simpl in H.
  - inversion H; subst. split; [ev_order | auto].
  - destruct (rec move) as [[[rv rl] rt]|]; [|discriminate].
    destruct (ev_ltb rv M) eqn:E; apply IH in H; destruct H as [H1 H2].
    + split; [ev_order | intros; exfalso; ev_order].
    + split; [ev_order | auto].
Qed.



Lemma ab_max_loop_sound recM recA (Hrec : @ab_refines G recM recA)
    alpha beta (Hab : ev_lt alpha beta) moves :
  forall M bM lM tM v b l tA a M' bM' lM' tM',
    mm_max_loop G recM moves M bM lM tM = Some (M', bM', lM', tM') ->
    ev_lt v beta -> ev_lt M beta ->
    (a = alpha /\ ev_le v alpha \/ a = v /\ ev_le alpha v) ->
    (lowok alpha M -> v = M /\ b = bM /\ l = lM) ->
    (~ lowok alpha M -> ev_le v alpha) ->
    exists v' b' l' tA',
      ab_max_loop G recA moves v b l tA a beta = Some (v', b', l', tA') /\
      sound alpha beta M' (bM' :: lM') v' (b' :: l').
Proof.
  induction moves as [|move rest IH];
    intros M bM lM tM v b l tA a M' bM' lM' tM' Hmm Hv HM Hamax Hlow Hnlow;
    simpl in Hmm |- *.
  - inversion Hmm; subst M' bM' lM' tM'. exists v, b, l, tA. split; [reflexivity|].
    unfold sound. split; [|split].
    + intros H1 _. destruct (Hlow H1) as (E1 & -> & ->). auto.
    + auto.
    + intros H; exfalso. apply H. left. exact HM.
  - destruct (recM move) as [[[t p] tt]|] eqn:EM; [|discriminate].
    destruct (Hrec _ _ _ _ EM a beta) as (r & q & t' & EA & Hs).
    rewrite EA.
    assert (Hlt : ev_lt a beta) by (destruct Hamax as [[? ?]|[? ?]]; ev_order).
    specialize (Hs Hlt). destruct Hs as (Hs1 & Hs2 & Hs3).
    assert (Hchild : (r = t /\ q = p /\ lowok a t /\ highok t beta) \/
                     (ev_le r a /\ ev_le t a /\ a <> NegInf) \/
                     (ev_le beta r /\ ev_le beta t /\ beta <> PosInf)).
    { destruct (lowok_cases a t) as [L|(L & L1 & L2)];
      destruct (highok_cases t beta) as [Hh|(Hh & H1 & H2)].
      - left. destruct (Hs1 L Hh); auto.
      - right; right; auto.
      - right; left; auto.
      - right; left; auto. }
    clear Hs1 Hs2 Hs3.
    destruct (lowok_cases alpha M) as [L|(L & L1 & L2)];
      [destruct (Hlow L) as (HvM & HbM & HlM) | pose proof (Hnlow L) as HvM];
      clear Hlow Hnlow;
      destruct Hamax as [[Ea Ha]|[Ea Ha]];
      destruct Hchild as [(Er & Eq & Hc1 & Hc2)|[(Hc1 & Hc2 & Hc3)|(Hc1 & Hc2 & Hc3)]];
      destruct (ev_gtb r v) eqn:Eab; destruct (ev_gtb t M) eqn:Emm;
      cbn;
      match goal with |- context [ev_geb ?x beta] => destruct (ev_geb x beta) eqn:Ecut end;
      try solve [exfalso; ev_auto].
    all: try solve [eapply IH; [exact Hmm | ..]; ev_auto].
    all: pose proof (mm_max_loop_mono _ _ _ _ _ _ _ _ _ _ Hmm) as [Hm1 Hm2].
    all: do 4 eexists; (split; [reflexivity|]).
    all: unfold sound; split; [|split]; try solve [ev_auto].
    all: intros Hl Hh;
      match goal with
      | Hm : ?m' = ?x -> _ /\ _ |- _ =>
          assert (E : m' = x) by ev_auto; destruct (Hm E) as [-> ->]
      end;
      split; [ev_auto | congruence].
Qed.

Lemma ab_min_loop_sound recM recA (Hrec : @ab_refines G recM recA)
    alpha beta (Hab : ev_lt alpha beta) moves :
  forall M bM lM tM v b l tA bt M' bM' lM' tM',
    mm_min_loop G recM moves M bM lM tM = Some (M', bM', lM', tM') ->
    ev_lt alpha v -> ev_lt alpha M ->
    (bt = beta /\ ev_le beta v \/ bt = v /\ ev_le v beta) ->
    (highok M beta -> v = M /\ b = bM /\ l = lM) ->
    (~ highok M beta -> ev_le beta v) ->
    exists v' b' l' tA',
      ab_min_loop G recA moves v b l tA alpha bt = Some (v', b', l', tA') /\
      sound alpha beta M' (bM' :: lM') v' (b' :: l').
Proof.
  induction moves as [|move rest IH];
    intros M bM lM tM v b l tA bt M' bM' lM' tM' Hmm Hv HM Hbmin Hhigh Hnhigh;
    simpl in Hmm |- *.
  - inversion Hmm; subst M' bM' lM' tM'. exists v, b, l, tA.
    split; [reflexivity|].
    unfold sound. split; [|split].
    + intros _ H1. destruct (Hhigh H1) as (E1 & -> & ->). auto.
    + intros H; exfalso. apply H. left. exact HM.
    + auto.
  - destruct (recM move) as [[[t p] tt]|] eqn:EM; [|discriminate].
    destruct (Hrec _ _ _ _ EM alpha bt) as (r & q & t' & EA & Hs).
    rewrite EA.
    assert (Hlt : ev_lt alpha bt)
      by (destruct Hbmin as [[? ?]|[? ?]]; ev_order).
    specialize (Hs Hlt). destruct Hs as (Hs1 & Hs2 & Hs3).
    assert (Hchild : (r = t /\ q = p /\ lowok alpha t /\ highok t bt) \/
                     (ev_le r alpha /\ ev_le t alpha /\ alpha <> NegInf) \/
                     (ev_le bt r /\ ev_le bt t /\ bt <> PosInf)).
    { destruct (lowok_cases alpha t) as [L|(L & L1 & L2)];
      destruct (highok_cases t bt) as [Hh|(Hh & H1 & H2)].
      - left. destruct (Hs1 L Hh); auto.
      - right; right; auto.
      - right; left; auto.
      - right; left; auto. }
    clear Hs1 Hs2 Hs3.
    destruct (highok_cases M beta) as [L|(L & L1 & L2)];
      [destruct (Hhigh L) as (HvM & HbM & HlM) | pose proof (Hnhigh L) as HvM];
      clear Hhigh Hnhigh;
      destruct Hbmin as [[Ea Ha]|[Ea Ha]];
      destruct Hchild as
        [(Er & Eq & Hc1 & Hc2)|[(Hc1 & Hc2 & Hc3)|(Hc1 & Hc2 & Hc3)]];
      destruct (ev_ltb r v) eqn:Eab; destruct (ev_ltb t M) eqn:Emm;
      cbn;
      match goal with
      | |- context [ev_leb ?x alpha] => destruct (ev_leb x alpha) eqn:Ecut
      end;
      try solve [exfalso; ev_auto].
    all: try solve [eapply IH; [exact Hmm | ..]; ev_auto].
    all: pose proof (mm_min_loop_mono _ _ _ _ _ _ _ _ _ _ Hmm) as [Hm1 Hm2].
    all: do 4 eexists; (split; [reflexivity|]).
    all: unfold sound; split; [|split]; try solve [ev_auto].
    all: intros Hl Hh;
      match goal with
      | Hm : ?m' = ?x -> _ /\ _ |- _ =>
          assert (E : m' = x) by ev_auto; destruct (Hm E) as [-> ->]
      end;
      split; [ev_auto | congruence].
Qed.

(** The loops return as soon as every recursive call does. *)
Lemma mm_max_loop_total rec moves :
  (forall move, In move moves -> exists r, rec move = Some r) ->
  forall v b l t, exists st, mm_max_loop G rec moves v b l t = Some st.
Proof.
  induction moves as [|move rest IH]; intros Hrec v b l t; simpl.
  - eauto.
  - destruct (Hrec move (or_introl eq_refl)) as [[[rv rl] rt] ->].
    destruct (ev_gtb rv v); apply IH; intros; apply Hrec; right; assumption.
Qed.

Lemma mm_min_loop_total rec moves :
  (forall move, In move moves -> exists r, rec move = Some r) ->
  forall v b l t, exists st, mm_min_loop G rec moves v b l t = Some st.
Proof.
  induction moves as [|move rest IH]; intros Hrec v b l t; simpl.
  - eauto.
  - destruct (Hrec move (or_introl eq_refl)) as [[[rv rl] rt] ->].
    destruct (ev_ltb rv v); apply IH; intros; apply Hrec; right; assumption.
Qed.

Lemma ab_max_loop_total rec moves :
  (forall move a b, In move moves -> exists r, rec move a b = Some r) ->
  forall v b l t alpha beta,
    exists st, ab_max_loop G rec moves v b l t alpha beta = Some st.
Proof.
  induction moves as [|move rest IH]; intros Hrec v b l t alpha beta; simpl.
  - eauto.
  - destruct (Hrec move alpha beta (or_introl eq_refl)) as [[[rv rl] rt] ->].
    destruct (ev_gtb rv v); cbn;
      match goal with
      | |- context [ev_geb ?x beta] => destruct (ev_geb x beta)
      end; eauto; apply IH; intros; apply Hrec; right; assumption.
Qed.

Lemma ab_min_loop_total rec moves :
  (forall move a b, In move moves -> exists r, rec move a b = Some r) ->
  forall v b l t alpha beta,
    exists st, ab_min_loop G rec moves v b l t alpha beta = Some st.
Proof.
  induction moves as [|move rest IH]; intros Hrec v b l t alpha beta; simpl.
  - eauto.
  - destruct (Hrec move alpha beta (or_introl eq_refl)) as [[[rv rl] rt] ->].
    destruct (ev_ltb rv v); cbn;
      match goal with
      | |- context [ev_leb ?x alpha] => destruct (ev_leb x alpha)
      end; eauto; apply IH; intros; apply Hrec; right; assumption.
Qed.

(** A loop that returned made every recursive call return. *)
Lemma mm_max_loop_some rec moves :
  forall v b l t st, mm_max_loop G rec moves v b l t = Some st ->
  forall move, In move moves -> exists r, rec move = Some r.
Proof.
  induction moves as [|move rest IH]; intros v b l t st H m Hin; simpl in *.
  - contradiction.
  - destruct (rec move) as [[[rv rl] rt]|] eqn:E; [|discriminate].
    destruct Hin as [<-|Hin]; [eauto|].
    destruct (ev_gtb rv v); eapply IH; eauto.
Qed.

Lemma mm_min_loop_some rec moves :
  forall v b l t st, mm_min_loop G rec moves v b l t = Some st ->
  forall move, In move moves -> exists r, rec move = Some r.
Proof.
  induction moves as [|move rest IH]; intros v b l t st H m Hin; simpl in *.
  - contradiction.
  - destruct (rec move) as [[[rv rl] rt]|] eqn:E; [|discriminate].
    destruct Hin as [<-|Hin]; [eauto|].
    destruct (ev_ltb rv v); eapply IH; eauto.
Qed.

(** With enough fuel for the depth, minimax returns. *)
Lemma minimax_total fuel :
  forall side board flags depth,
    0 <= depth -> (Z.to_nat depth <= fuel)%nat ->
    exists r, minimax G fuel side board flags depth = Some r.
Proof.
  induction fuel as [|n IH]; intros side board flags depth Hd Hf.
  - assert (depth = 0) by lia. subst. simpl. eauto.
  - simpl. destruct (depth =? 0) eqn:E; [eauto|].
    apply Z.eqb_neq in E.
    assert (Hrec : forall move, exists r,
      (let '(newside, newboard, newflags) := makeMove G side board move flags in
       minimax G n newside newboard newflags (depth - 1)) = Some r).
    { intros move. destruct (makeMove G side board move flags) as [[s' b'] f'].
      apply IH; lia. }
    destruct side; simpl.
    + destruct (mm_min_loop_total _ (generateMoves G true board flags)
                  (fun move _ => Hrec move) PosInf None [] (Node []))
        as [[[[v b] l] t] ->]. simpl. eauto.
    + destruct (mm_max_loop_total _ (generateMoves G false board flags)
                  (fun move _ => Hrec move) NegInf None [] (Node []))
        as [[[[v b] l] t] ->]. simpl. eauto.
Qed.

(** The window contract of alpha-beta, for every window. *)
Lemma alphabeta_sound fuel :
  forall side board flags depth m p t,
    minimax G fuel side board flags depth = Some (m, p, t) ->
    forall alpha beta, exists r q t',
      alphabeta G fuel side board flags depth alpha beta = Some (r, q, t') /\
      (ev_lt alpha beta -> sound alpha beta m p r q).
Proof.
  induction fuel as [|n IH]; intros side board flags depth m p t H alpha beta;
    simpl in H |- *.
  - destruct (depth =? 0); [|discriminate]. inversion H; subst.
    do 3 eexists; split; [reflexivity|]. intros Hab.
    unfold sound; split; [|split]; ev_auto.
  - destruct (depth =? 0).
    { inversion H; subst.
      do 3 eexists; split; [reflexivity|]. intros Hab.
      unfold sound; split; [|split]; ev_auto. }
    set (recM := fun move =>
      let '(newside, newboard, newflags) := makeMove G side board move flags in
      minimax G n newside newboard newflags (depth - 1)) in *.
    set (recA := fun move a b =>
      let '(newside, newboard, newflags) := makeMove G side board move flags in
      alphabeta G n newside newboard newflags (depth - 1) a b).
    assert (Hrec : ab_refines recM recA).
    { intros move m0 p0 t0 E a b. unfold recM, recA in *.
      destruct (makeMove G side board move flags) as [[s' b'] f'].
      eapply IH; eauto. }
    destruct side; simpl in H |- *.
    + destruct (mm_min_loop G recM _ PosInf None [] (Node []))
        as [[[[M' bM'] lM'] tM']|] eqn:E; [|discriminate].
      simpl in H. inversion H; subst m p t. clear H.
      destruct (ev_ltb alpha beta) eqn:Hab.
      * destruct (ab_min_loop_sound recM recA Hrec alpha beta Hab _
                    _ _ _ _ PosInf None [] (Node []) beta _ _ _ _ E)
          as (v' & b' & l' & tA' & -> & Hs); try solve [ev_auto].
        simpl. do 3 eexists; split; [reflexivity|]. intros _. exact Hs.
      * destruct (ab_min_loop_total recA (generateMoves G true board flags))
          with (v := PosInf) (b := @None (Move G))
               (l := @nil (option (Move G))) (t := @Node (Key G) [])
               (alpha := alpha) (beta := beta)
          as [[[[v' b'] l'] tA'] ->].
        { intros move a b Hin.
          destruct (mm_min_loop_some _ _ _ _ _ _ _ E move Hin)
            as [[[m0 p0] t0] Em].
          destruct (Hrec _ _ _ _ Em a b) as (r & q & t1 & -> & _). eauto. }
        simpl. do 3 eexists; split; [reflexivity|].
        intros Hc. exfalso. unfold ev_lt in Hc. congruence.
    + destruct (mm_max_loop G recM _ NegInf None [] (Node []))
        as [[[[M' bM'] lM'] tM']|] eqn:E; [|discriminate].
      simpl in H. inversion H; subst m p t. clear H.
      destruct (ev_ltb alpha beta) eqn:Hab.
      * destruct (ab_max_loop_sound recM recA Hrec alpha beta Hab _
                    _ _ _ _ NegInf None [] (Node []) alpha _ _ _ _ E)
          as (v' & b' & l' & tA' & -> & Hs); try solve [ev_auto].
        simpl. do 3 eexists; split; [reflexivity|]. intros _. exact Hs.
      * destruct (ab_max_loop_total recA (generateMoves G false board flags))
          with (v := NegInf) (b := @None (Move G))
               (l := @nil (option (Move G))) (t := @Node (Key G) [])
               (alpha := alpha) (beta := beta)
          as [[[[v' b'] l'] tA'] ->].
        { intros move a b Hin.
          destruct (mm_max_loop_some _ _ _ _ _ _ _ E move Hin)
            as [[[m0 p0] t0] Em].
          destruct (Hrec _ _ _ _ Em a b) as (r & q & t1 & -> & _). eauto. }
        simpl. do 3 eexists; split; [reflexivity|].
        intros Hc. exfalso. unfold ev_lt in Hc. congruence.
Qed.

End AlphaBetaSound.

(** Both searches return, with the same value and path, at the default bounds. *)
Lemma alphabeta_equals_minimax_total (G : Game) (fuel : nat) (side : bool)
    (board : Board G) (flags : Flags G) (depth : Z) :
  0 <= depth -> (Z.to_nat depth <= fuel)%nat ->
  exists value path treeM treeA,
    minimax G fuel side board flags depth = Some (value, path, treeM) /\
    alphabeta G fuel side board flags depth NegInf PosInf
      = Some (value, path, treeA).
Proof.
  intros Hd Hf.
  destruct (minimax_total G fuel side board flags depth Hd Hf)
    as [[[m p] t] Hm].
  destruct (alphabeta_sound G fuel _ _ _ _ _ _ _ Hm NegInf PosInf)
    as (r & q & t' & Ha & Hs).
  destruct (Hs eq_refl) as (Hs1 & _).
  destruct Hs1 as [-> ->]; [right; reflexivity | right; reflexivity |].
  exists m, p, t, t'. auto.
Qed.

(** C1. For every game (move generator, transition, evaluator, encoder), every
    position, side and flags and every depth >= 0, with enough fuel for the
    depth both searches return, and [alphabeta] called with the default
    bounds [-inf], [+inf] returns the same value and the same move path as
    [minimax]; only the trees may differ. *)
Theorem alphabeta_equals_minimax (G : Game) (fuel : nat) (side : bool)
    (board : Board G) (flags : Flags G) (depth : Z) :
  0 <= depth -> (Z.to_nat depth <= fuel)%nat ->
  exists value path treeM treeA,
    minimax G fuel side board flags depth = Some (value, path, treeM) /\
    alphabeta G fuel side board flags depth NegInf PosInf
      = Some (value, path, treeA).
Proof. apply alphabeta_equals_minimax_total. Qed.

(** ** Fuel

    A result does not depend on the fuel: more fuel gives the same result. *)

Section Fuel.
Variable G : Game.

Lemma minimax_S fuel side board flags depth :
  minimax G (S fuel) side board flags depth
  = if depth =? 0 then Some (Fin (evaluate G board), [], Node [])
    else if negb side
         then finish G (mm_max_loop G (child_mm G fuel side board flags depth)
                          (generateMoves G side board flags)
                          NegInf None [] (Node []))
         else finish G (mm_min_loop G (child_mm G fuel side board flags depth)
                          (generateMoves G side board flags)
                          PosInf None [] (Node [])).
Proof. reflexivity. Qed.

Lemma alphabeta_S fuel side board flags depth alpha beta :
  alphabeta G (S fuel) side board flags depth alpha beta
  = if depth =? 0 then Some (Fin (evaluate G board), [], Node [])
    else if negb side
         then finish G (ab_max_loop G (child_ab G fuel side board flags depth)
                          (generateMoves G side board flags)
                          NegInf None [] (Node []) alpha beta)
         else finish G (ab_min_loop G (child_ab G fuel side board flags depth)
                          (generateMoves G side board flags)
                          PosInf None [] (Node []) alpha beta).
Proof. reflexivity. Qed.

Lemma mm_max_loop_ext rec rec' moves :
  (forall m r, rec m = Some r -> rec' m = Some r) ->
  forall v b l t st,
    mm_max_loop G rec moves v b l t = Some st ->
    mm_max_loop G rec' moves v b l t = Some st.
Proof.
  intros Hext. induction moves as [|move rest IH]; intros v b l t st H;
    simpl in H |- *; [exact H|].
  destruct (rec move) as [[[rv rl] rt]|] eqn:E; [|discriminate].
  rewrite (Hext _ _ E). destruct (ev_gtb rv v); apply IH; exact H.
Qed.

Lemma mm_min_loop_ext rec rec' moves :
  (forall m r, rec m = Some r -> rec' m = Some r) ->
  forall v b l t st,
    mm_min_loop G rec moves v b l t = Some st ->
    mm_min_loop G rec' moves v b l t = Some st.
Proof.
  intros Hext. induction moves as [|move rest IH]; intros v b l t st H;
    simpl in H |- *; [exact H|].
  destruct (rec move) as [[[rv rl] rt]|] eqn:E; [|discriminate].
  rewrite (Hext _ _ E). destruct (ev_ltb rv v); apply IH; exact H.
Qed.

Lemma ab_max_loop_ext rec rec' moves :
  (forall m a b r, rec m a b = Some r -> rec' m a b = Some r) ->
  forall v b l t alpha beta st,
    ab_max_loop G rec moves v b l t alpha beta = Some st ->
    ab_max_loop G rec' moves v b l t alpha beta = Some st.
Proof.
  intros Hext. induction moves as [|move rest IH];
    intros v b l t alpha beta st H; simpl in H |- *; [exact H|].
  destruct (rec move alpha beta) as [[[rv rl] rt]|] eqn:E; [|discriminate].
  rewrite (Hext _ _ _ _ E).
  destruct (ev_gtb rv v); cbn in H |- *;
    match goal with
    | |- context [ev_geb ?x beta] => destruct (ev_geb x beta)
    end; auto.
Qed.

Lemma ab_min_loop_ext rec rec' moves :
  (forall m a b r, rec m a b = Some r -> rec' m a b = Some r) ->
  forall v b l t alpha beta st,
    ab_min_loop G rec moves v b l t alpha beta = Some st ->
    ab_min_loop G rec' moves v b l t alpha beta = Some st.
Proof.
  intros Hext. induction moves as [|move rest IH];
    intros v b l t alpha beta st H; simpl in H |- *; [exact H|].
  destruct (rec move alpha beta) as [[[rv rl] rt]|] eqn:E; [|discriminate].
  rewrite (Hext _ _ _ _ E).
  destruct (ev_ltb rv v); cbn in H |- *;
    match goal with
    | |- context [ev_leb ?x alpha] => destruct (ev_leb x alpha)
    end; auto.
Qed.

Lemma finish_some (x y : option (LoopSt G)) r :
  (forall st, x = Some st -> y = Some st) ->
  finish G x = Some r -> finish G y = Some r.
Proof.
  intros H. destruct x as [st|]; [|discriminate].
  rewrite (H st eq_refl). auto.
Qed.

Lemma minimax_fuel_mono fuel :
  forall side board flags depth r,
    minimax G fuel side board flags depth = Some r ->
    minimax G (S fuel) side board flags depth = Some r.
Proof.
  induction fuel as [|n IH]; intros side board flags depth r H.
  - simpl in H |- *. destruct (depth =? 0); [exact H | discriminate].
  - rewrite minimax_S in H |- *. destruct (depth =? 0); [exact H|].
    assert (Hext : forall m r0,
      child_mm G n side board flags depth m = Some r0 ->
      child_mm G (S n) side board flags depth m = Some r0).
    { intros m r0. unfold child_mm.
      destruct (makeMove G side board m flags) as [[s' b'] f']. apply IH. }
    destruct (negb side); revert H; apply finish_some; intros st;
      [apply mm_max_loop_ext | apply mm_min_loop_ext]; exact Hext.
Qed.

Lemma alphabeta_fuel_mono fuel :
  forall side board flags depth alpha beta r,
    alphabeta G fuel side board flags depth alpha beta = Some r ->
    alphabeta G (S fuel) side board flags depth alpha beta = Some r.
Proof.
  induction fuel as [|n IH]; intros side board flags depth alpha beta r H.
  - simpl in H |- *. destruct (depth =? 0); [exact H | discriminate].
  - rewrite alphabeta_S in H |- *. destruct (depth =? 0); [exact H|].
    assert (Hext : forall m a b r0,
      child_ab G n side board flags depth m a b = Some r0 ->
      child_ab G (S n) side board flags depth m a b = Some r0).
    { intros m a b r0. unfold child_ab.
      destruct (makeMove G side board m flags) as [[s' b'] f']. apply IH. }
    destruct (negb side); revert H; apply finish_some; intros st;
      [apply ab_max_loop_ext | apply ab_min_loop_ext]; exact Hext.
Qed.

End Fuel.

(** ** The base case and positions without a move *)

(** C2. With depth 0, [minimax] and [alphabeta] return exactly
    (evaluate(board), [], {}) for every side, board, flags, bounds and fuel;
    the result is the same whatever move generator and transition the game
    has, so none of them is consulted. *)
Theorem depth_zero_base_case (G : Game) (fuel : nat) (side : bool)
    (board : Board G) (flags : Flags G) (alpha beta : EVal) :
  minimax G fuel side board flags 0
    = Some (Fin (evaluate G board), [], Node []) /\
  alphabeta G fuel side board flags 0 alpha beta
    = Some (Fin (evaluate G board), [], Node []) /\
  forall gen mk,
    minimax (with_moves G gen mk) fuel side board flags 0
      = Some (Fin (evaluate G board), [], Node []) /\
    alphabeta (with_moves G gen mk) fuel side board flags 0 alpha beta
      = Some (Fin (evaluate G board), [], Node []).
Proof.
  repeat split; destruct fuel; reflexivity.
Qed.

(** At a position without a legal move and a depth other than 0, both
    searches return the sentinel their loop started from, the move list
    [[None]] and the empty tree. *)
Lemma no_moves_sentinel (G : Game) (fuel : nat) (side : bool)
    (board : Board G) (flags : Flags G) (depth : Z) (alpha beta : EVal) :
  depth <> 0 -> generateMoves G side board flags = [] ->
  minimax G (S fuel) side board flags depth
    = Some (if side then PosInf else NegInf, [None], Node []) /\
  alphabeta G (S fuel) side board flags depth alpha beta
    = Some (if side then PosInf else NegInf, [None], Node []).
Proof.
  intros Hd Hm. apply Z.eqb_neq in Hd. simpl. rewrite Hd, Hm.
  destruct side; split; reflexivity.
Qed.

(** C3. At position 2 of [mate_game], which has no legal move, depth 1:
    [minimax] and [alphabeta] agree, but what they return is the sentinel
    (-inf for the maximizer, +inf for the minimizer) with the move list
    [[None]], not the evaluation 7 of the position with an empty list. *)
Theorem no_moves_returns_sentinel :
  generateMoves mate_game false 2%nat tt = [] /\
  evaluate mate_game 2%nat = 7 /\
  minimax mate_game 1 false 2%nat tt 1 = Some (NegInf, [None], Node []) /\
  alphabeta mate_game 1 false 2%nat tt 1 NegInf PosInf
    = Some (NegInf, [None], Node []) /\
  minimax mate_game 1 true 2%nat tt 1 = Some (PosInf, [None], Node []) /\
  alphabeta mate_game 1 true 2%nat tt 1 NegInf PosInf
    = Some (PosInf, [None], Node []).
Proof.
  repeat split;
    try (apply (no_moves_sentinel mate_game 0 false 2%nat tt 1); 
         [discriminate | reflexivity]);
    apply (no_moves_sentinel mate_game 0 true 2%nat tt 1);
    (discriminate || reflexivity).
Qed.

(** C4. At the root of [mate_game] the maximizer has the legal move 1, and
    depth is 3; the only line ends in a position without a move, whose value
    is the sentinel -inf, so the comparison [recValue > value] never fires
    and the chosen move is [None], not move 1.  The same happens in
    [alphabeta], and to the minimizer one ply later. *)
Theorem best_move_none_despite_legal_move :
  generateMoves mate_game false 0%nat tt = [1%nat] /\
  minimax mate_game 3 false 0%nat tt 3
    = Some (NegInf, [None], Node [(1%nat, Node [(2%nat, Node [])])]) /\
  alphabeta mate_game 3 false 0%nat tt 3 NegInf PosInf
    = Some (NegInf, [None], Node [(1%nat, Node [(2%nat, Node [])])]) /\
  child_mm mate_game 2 false 0%nat tt 3 1%nat
    = Some (NegInf, [Some 2%nat; None], Node [(2%nat, Node [])]).
Proof.
  repeat split; vm_compute; reflexivity.
Qed.

(** ** Dict facts *)

Section DictFacts.
Context {K : Type}.
Variable K_eq_dec : forall a b : K, {a = b} + {a <> b}.

Lemma get_set_same k v (es : list (K * MoveTree K)) :
  get_assoc K_eq_dec k (set_assoc K_eq_dec k v es) = Some v.
Proof.
  induction es as [|[k' v'] r IH]; simpl.
  - destruct (K_eq_dec k k); congruence.
  - destruct (K_eq_dec k k') as [E|E]; simpl.
    + destruct (K_eq_dec k k); congruence.
    + destruct (K_eq_dec k k'); [contradiction | exact IH].
Qed.

Lemma dict_get_set_same k v (d : MoveTree K) :
  dict_get K_eq_dec k (dict_set K_eq_dec k v d) = Some v.
Proof. apply get_set_same. Qed.

Lemma set_assoc_fresh k v (es : list (K * MoveTree K)) :
  ~ In k (map fst es) -> set_assoc K_eq_dec k v es = es ++ [(k, v)].
Proof.
  induction es as [|[k' v'] r IH]; simpl; intros H.
  - reflexivity.
  - destruct (K_eq_dec k k') as [E|E].
    + exfalso; apply H; left; congruence.
    + rewrite IH; [reflexivity | tauto].
Qed.

Lemma set_assoc_keys k v (es : list (K * MoveTree K)) k' :
  In k' (map fst (set_assoc K_eq_dec k v es)) <->
  k' = k \/ In k' (map fst es).
Proof.
  induction es as [|[k0 v0] r IH]; simpl.
  - intuition congruence.
  - destruct (K_eq_dec k k0) as [E|E]; simpl.
    + subst. intuition congruence.
    + rewrite IH. intuition congruence.
Qed.

Lemma record_all_keys subs : forall (d : MoveTree K) k,
  In k (keys (record_all K_eq_dec subs d)) <->
  In k (keys d) \/ In k (map fst subs).
Proof.
  unfold record_all.
  induction subs as [|[k0 v0] r IH]; intros d k; simpl.
  - tauto.
  - rewrite IH. unfold keys, dict_set. simpl. rewrite set_assoc_keys. simpl.
    intuition congruence.
Qed.

Lemma record_all_nodup subs : forall d : MoveTree K,
  NoDup (keys d ++ map fst subs) ->
  record_all K_eq_dec subs d = Node (entries d ++ subs).
Proof.
  unfold record_all.
  induction subs as [|[k0 v0] r IH]; intros d H; simpl.
  - rewrite app_nil_r. destruct d; reflexivity.
  - assert (Hk : ~ In k0 (keys d)).
    { simpl in H. apply NoDup_remove_2 in H. intros Hin. apply H.
      apply in_or_app; left; exact Hin. }
    rewrite IH.
    + unfold dict_set; simpl. rewrite set_assoc_fresh by exact Hk.
      rewrite <- app_assoc. reflexivity.
    + unfold keys, dict_set; simpl. rewrite set_assoc_fresh by exact Hk.
      rewrite map_app, <- app_assoc. exact H.
Qed.

End DictFacts.

(** ** Counting leaf entries *)

Lemma leaves_Node {K} (es : list (K * MoveTree K)) :
  leaves (Node es) = leaves_list es.
Proof.
  induction es as [|[k sub] r IH].
  - reflexivity.
  - simpl in IH |- *. rewrite IH. reflexivity.
Qed.

Lemma leaves_list_app {K} (l1 l2 : list (K * MoveTree K)) :
  leaves_list (l1 ++ l2) = (leaves_list l1 + leaves_list l2)%nat.
Proof.
  induction l1 as [|[k sub] r IH]; simpl; [reflexivity | rewrite IH; lia].
Qed.

Lemma entry_leaves_pos {K} (t : MoveTree K) : (1 <= entry_leaves t)%nat.
Proof.
  induction t as [es IH] using MoveTree_forall_ind.
  destruct es as [|[k sub] r]; [simpl; lia|].
  unfold entry_leaves. rewrite leaves_Node. simpl.
  inversion IH; subst. simpl in *. lia.
Qed.

Lemma entry_leaves_le {K} (ta tm : MoveTree K) :
  (leaves ta <= leaves tm)%nat -> (entry_leaves ta <= entry_leaves tm)%nat.
Proof.
  intros H. pose proof (entry_leaves_pos ta). pose proof (entry_leaves_pos tm).
  destruct ta as [[|ea ra]]; [simpl; exact H1|].
  destruct tm as [[|em rm]].
  - unfold entry_leaves in H0. simpl in H. simpl in H0. lia.
  - exact H.
Qed.

(** ** What the loops record in the tree *)

Section Trees.
Variable G : Game.
Local Notation rall := (record_all (Key_eq_dec G)).

Lemma mm_max_loop_tree rec moves :
  forall v b l t v' b' l' t',
    mm_max_loop G rec moves v b l t = Some (v', b', l', t') ->
    exists subs, Forall2 (recorded_mm rec) moves subs /\ t' = rall subs t.
Proof.
  induction moves as [|move rest IH]; intros v b l t v' b' l' t' H;
    simpl in H.
  - inversion H; subst. exists []. split; [constructor | reflexivity].
  - destruct (rec move) as [[[rv rl] rt]|] eqn:E; [|discriminate].
    destruct (ev_gtb rv v); apply IH in H; destruct H as (subs & HF & ->);
      exists ((encode G move, rt) :: subs);
      (split; [constructor; [split; [reflexivity | simpl; eauto] | exact HF]
              | reflexivity]).
Qed.

Lemma mm_min_loop_tree rec moves :
  forall v b l t v' b' l' t',
    mm_min_loop G rec moves v b l t = Some (v', b', l', t') ->
    exists subs, Forall2 (recorded_mm rec) moves subs /\ t' = rall subs t.
Proof.
  induction moves as [|move rest IH]; intros v b l t v' b' l' t' H;
    simpl in H.
  - inversion H; subst. exists []. split; [constructor | reflexivity].
  - destruct (rec move) as [[[rv rl] rt]|] eqn:E; [|discriminate].
    destruct (ev_ltb rv v); apply IH in H; destruct H as (subs & HF & ->);
      exists ((encode G move, rt) :: subs);
      (split; [constructor; [split; [reflexivity | simpl; eauto] | exact HF]
              | reflexivity]).
Qed.

(** An alpha-beta loop records a prefix of the moves; when moves are left
    over, the last recorded one brought the value to the bound. *)
Lemma ab_max_loop_tree rec moves :
  forall v b l t alpha beta v' b' l' t',
    ab_max_loop G rec moves v b l t alpha beta = Some (v', b', l', t') ->
    exists explored skipped subs,
      moves = explored ++ skipped /\
      Forall2 (recorded_ab rec) explored subs /\
      t' = rall subs t /\
      (skipped <> [] -> explored <> [] /\ ev_le beta v').
Proof.
  induction moves as [|move rest IH];
    intros v b l t alpha beta v' b' l' t' H; simpl in H.
  - inversion H; subst. exists [], [], [].
    split; [reflexivity|]. split; [constructor|]. split; [reflexivity|].
    intros Hc; congruence.
  - destruct (rec move alpha beta) as [[[rv rl] rt]|] eqn:E; [|discriminate].
    assert (Hrec : recorded_ab rec move (encode G move, rt)).
    { split; [reflexivity | simpl; eauto]. }
    destruct (ev_gtb rv v); cbn in H;
      match type of H with
      | context [ev_geb ?x beta] => destruct (ev_geb x beta) eqn:Ecut
      end.
    1, 3: inversion H; subst; exists [move], rest, [(encode G move, rt)];
      (split; [reflexivity|]); (split; [constructor; [assumption | constructor]|]);
      (split; [reflexivity|]); intros _; (split; [discriminate | ev_order]).
    all: apply IH in H; destruct H as (ex & sk & subs & -> & HF & -> & Hc);
      exists (move :: ex), sk, ((encode G move, rt) :: subs);
      (split; [reflexivity|]); (split; [constructor; assumption|]);
      (split; [reflexivity|]); intros Hsk;
      (split; [discriminate | apply Hc; exact Hsk]).
Qed.

Lemma ab_min_loop_tree rec moves :
  forall v b l t alpha beta v' b' l' t',
    ab_min_loop G rec moves v b l t alpha beta = Some (v', b', l', t') ->
    exists explored skipped subs,
      moves = explored ++ skipped /\
      Forall2 (recorded_ab rec) explored subs /\
      t' = rall subs t /\
      (skipped <> [] -> explored <> [] /\ ev_le v' alpha).
Proof.
  induction moves as [|move rest IH];
    intros v b l t alpha beta v' b' l' t' H; simpl in H.
  - inversion H; subst. exists [], [], [].
    split; [reflexivity|]. split; [constructor|]. split; [reflexivity|].
    intros Hc; congruence.
  - destruct (rec move alpha beta) as [[[rv rl] rt]|] eqn:E; [|discriminate].
    assert (Hrec : recorded_ab rec move (encode G move, rt)).
    { split; [reflexivity | simpl; eauto]. }
    destruct (ev_ltb rv v); cbn in H;
      match type of H with
      | context [ev_leb ?x alpha] => destruct (ev_leb x alpha) eqn:Ecut
      end.
    1, 3: inversion H; subst; exists [move], rest, [(encode G move, rt)];
      (split; [reflexivity|]); (split; [constructor; [assumption | constructor]|]);
      (split; [reflexivity|]); intros _; (split; [discriminate | ev_order]).
    all: apply IH in H; destruct H as (ex & sk & subs & -> & HF & -> & Hc);
      exists (move :: ex), sk, ((encode G move, rt) :: subs);
      (split; [reflexivity|]); (split; [constructor; assumption|]);
      (split; [reflexivity|]); intros Hsk;
      (split; [discriminate | apply Hc; exact Hsk]).
Qed.

Lemma recorded_mm_keys rec moves subs :
  Forall2 (recorded_mm (G := G) rec) moves subs ->
  map fst subs = map (encode G) moves.
Proof.
  induction 1 as [|m kv ms ss [H1 _] _ IH]; simpl; congruence.
Qed.

Lemma recorded_ab_keys rec moves subs :
  Forall2 (recorded_ab (G := G) rec) moves subs ->
  map fst subs = map (encode G) moves.
Proof.
  induction 1 as [|m kv ms ss [H1 _] _ IH]; simpl; congruence.
Qed.

End Trees.

(** The shape of the trees the two searches return at a depth other than 0. *)
Lemma search_tree_shape (G : Game) (fuel : nat) (side : bool)
    (board : Board G) (flags : Flags G) (depth : Z) (alpha beta : EVal) :
  depth <> 0 ->
  (forall v p t,
      minimax G (S fuel) side board flags depth = Some (v, p, t) ->
      exists subs,
        Forall2 (recorded_mm (child_mm G fuel side board flags depth))
          (generateMoves G side board flags) subs /\
        t = record_all (Key_eq_dec G) subs (Node []) /\
        (forall k, In k (keys t) <->
                   In k (map (encode G) (generateMoves G side board flags))))
  /\
  (forall v p t,
      alphabeta G (S fuel) side board flags depth alpha beta
        = Some (v, p, t) ->
      exists explored skipped subs,
        generateMoves G side board flags = explored ++ skipped /\
        Forall2 (recorded_ab (child_ab G fuel side board flags depth))
          explored subs /\
        t = record_all (Key_eq_dec G) subs (Node []) /\
        (forall k, In k (keys t) <-> In k (map (encode G) explored)) /\
        (skipped <> [] ->
         explored <> [] /\
         if side then ev_le v alpha else ev_le beta v)).
Proof.
  intros Hd. apply Z.eqb_neq in Hd. split; intros v p t H; simpl in H;
    rewrite Hd in H.
  - change (fun move : Move G =>
              let '(newside, newboard, newflags) :=
                makeMove G side board move flags in
              minimax G fuel newside newboard newflags (depth - 1))
      with (child_mm G fuel side board flags depth) in H.
    assert (Hl : exists v' b' l',
      (if side
       then mm_min_loop G (child_mm G fuel side board flags depth)
              (generateMoves G side board flags) PosInf None [] (Node [])
       else mm_max_loop G (child_mm G fuel side board flags depth)
              (generateMoves G side board flags) NegInf None [] (Node []))
      = Some (v', b', l', t)).
    { destruct side; simpl in H;
        match type of H with
        | finish _ ?x = _ => destruct x as [[[[v' b'] l'] t']|]
        end; simpl in H; inversion H; subst; eauto. }
    destruct Hl as (v' & b' & l' & Hl).
    assert (Ht : exists subs,
      Forall2 (recorded_mm (child_mm G fuel side board flags depth))
        (generateMoves G side board flags) subs /\
      t = record_all (Key_eq_dec G) subs (Node [])).
    { destruct side;
        [eapply mm_min_loop_tree | eapply mm_max_loop_tree]; exact Hl. }
    destruct Ht as (subs & HF & ->). exists subs.
    split; [exact HF|]. split; [reflexivity|].
    intros k. rewrite record_all_keys, (recorded_mm_keys _ _ _ _ HF).
    simpl. tauto.
  - change (fun (move : Move G) (a b : EVal) =>
              let '(newside, newboard, newflags) :=
                makeMove G side board move flags in
              alphabeta G fuel newside newboard newflags (depth - 1) a b)
      with (child_ab G fuel side board flags depth) in H.
    assert (Ht : exists explored skipped subs,
      generateMoves G side board flags = explored ++ skipped /\
      Forall2 (recorded_ab (child_ab G fuel side board flags depth))
        explored subs /\
      t = record_all (Key_eq_dec G) subs (Node []) /\
      (skipped <> [] ->
       explored <> [] /\ if side then ev_le v alpha else ev_le beta v)).
    { destruct side; simpl in H;
        match type of H with
        | finish _ ?x = _ => destruct x as [[[[v' b'] l'] t']|] eqn:Hl
        end; simpl in H; inversion H; subst;
        [eapply ab_min_loop_tree | eapply ab_max_loop_tree]; exact Hl. }
    destruct Ht as (ex & sk & subs & Hg & HF & -> & Hc).
    exists ex, sk, subs.
    split; [exact Hg|]. split; [exact HF|]. split; [reflexivity|].
    split; [|exact Hc].
    intros k. rewrite record_all_keys, (recorded_ab_keys _ _ _ _ HF).
    simpl. tauto.
Qed.

(** ** Where an alpha-beta loop stops *)

Section CutPoint.
Variable G : Game.
Local Notation rall := (record_all (Key_eq_dec G)).
Local Notation tset := (dict_set (Key_eq_dec G)).

(** One turn of the loops. *)
Lemma ab_max_loop_cons rec move rest v b l t alpha beta :
  ab_max_loop G rec (move :: rest) v b l t alpha beta
  = match rec move alpha beta with
    | None => None
    | Some (rv, rl, rt) =>
        let v2 := if ev_gtb rv v then rv else v in
        let b2 := if ev_gtb rv v then Some move else b in
        let l2 := if ev_gtb rv v then rl else l in
        let t2 := tset (encode G move) rt t in
        if ev_geb v2 beta then Some (v2, b2, l2, t2)
        else ab_max_loop G rec rest v2 b2 l2 t2
               (if ev_gtb v2 alpha then v2 else alpha) beta
    end.
Proof.
  simpl. destruct (rec move alpha beta) as [[[rv rl] rt]|]; [|reflexivity].
  destruct (ev_gtb rv v); reflexivity.
Qed.

Lemma ab_min_loop_cons rec move rest v b l t alpha beta :
  ab_min_loop G rec (move :: rest) v b l t alpha beta
  = match rec move alpha beta with
    | None => None
    | Some (rv, rl, rt) =>
        let v2 := if ev_ltb rv v then rv else v in
        let b2 := if ev_ltb rv v then Some move else b in
        let l2 := if ev_ltb rv v then rl else l in
        let t2 := tset (encode G move) rt t in
        if ev_leb v2 alpha then Some (v2, b2, l2, t2)
        else ab_min_loop G rec rest v2 b2 l2 t2 alpha
               (if ev_ltb v2 beta then v2 else beta)
    end.
Proof.
  simpl. destruct (rec move alpha beta) as [[[rv rl] rt]|]; [|reflexivity].
  destruct (ev_ltb rv v); reflexivity.
Qed.

(** The maximizer's loop records the moves up to the first one after which
    the value has reached [beta], and no other: the result is that of the
    loop on the recorded moves alone, after every recorded move but the
    last the value is still below [beta], and moves are left over only
    when the value has reached [beta]. *)
Lemma ab_max_loop_explored rec moves :
  forall v b l t alpha beta v' b' l' t',
    ab_max_loop G rec moves v b l t alpha beta = Some (v', b', l', t') ->
    exists explored skipped subs,
      moves = explored ++ skipped /\
      Forall2 (recorded_ab rec) explored subs /\
      t' = rall subs t /\
      ab_max_loop G rec explored v b l t alpha beta = Some (v', b', l', t') /\
      (forall e1 e2, explored = e1 ++ e2 -> e1 <> [] -> e2 <> [] ->
         exists v1 b1 l1 t1,
           ab_max_loop G rec e1 v b l t alpha beta = Some (v1, b1, l1, t1) /\
           ev_lt v1 beta) /\
      (skipped <> [] -> explored <> [] /\ ev_le beta v').
Proof.
  induction moves as [|move rest IH];
    intros v b l t alpha beta v' b' l' t' H.
  - exists [], [], [].
    split; [reflexivity|]. split; [constructor|].
    split; [simpl in H; inversion H; reflexivity|]. split; [exact H|].
    split; [|intros Hc; congruence].
    intros e1 e2 He Hn. symmetry in He. apply app_eq_nil in He.
    destruct He. contradiction.
  - rewrite ab_max_loop_cons in H.
    destruct (rec move alpha beta) as [[[rv rl] rt]|] eqn:E; [|discriminate].
    cbv zeta in H.
    assert (Hrec : recorded_ab rec move (encode G move, rt)).
    { split; [reflexivity | simpl; eauto]. }
    destruct (ev_geb (if ev_gtb rv v then rv else v) beta) eqn:Ecut.
    + exists [move], rest, [(encode G move, rt)].
      split; [reflexivity|]. split; [constructor; [exact Hrec | constructor]|].
      split; [inversion H; reflexivity|].
      split; [rewrite ab_max_loop_cons, E; cbv zeta; rewrite Ecut; exact H|].
      split.
      * intros e1 e2 He Hn1 Hn2. exfalso.
        destruct e1 as [|m1 [|m2 e1]]; [congruence| |discriminate].
        destruct e2; [congruence | discriminate].
      * intros _. split; [discriminate|].
        inversion H; subst. unfold ev_geb in Ecut.
        apply negb_true_iff in Ecut. exact Ecut.
    + apply IH in H.
      destruct H as (ex & sk & subs & -> & HF & -> & Hrun & Hpre & Hc).
      exists (move :: ex), sk, ((encode G move, rt) :: subs).
      split; [reflexivity|]. split; [constructor; assumption|].
      split; [reflexivity|].
      split; [rewrite ab_max_loop_cons, E; cbv zeta; rewrite Ecut; exact Hrun|].
      split.
      * intros e1 e2 He Hn1 Hn2.
        destruct e1 as [|m1 e1]; [congruence|].
        simpl in He. inversion He; subst m1 ex. clear He.
        rewrite ab_max_loop_cons, E. cbv zeta. rewrite Ecut.
        destruct e1 as [|m2 e1].
        -- simpl. do 4 eexists. split; [reflexivity|].
           unfold ev_geb in Ecut. apply negb_false_iff in Ecut. exact Ecut.
        -- apply (Hpre (m2 :: e1) e2 eq_refl); [discriminate | exact Hn2].
      * intros Hsk. split; [discriminate | apply Hc; exact Hsk].
Qed.

(** The same for the minimizer, with [alpha] as the bound. *)
Lemma ab_min_loop_explored rec moves :
  forall v b l t alpha beta v' b' l' t',
    ab_min_loop G rec moves v b l t alpha beta = Some (v', b', l', t') ->
    exists explored skipped subs,
      moves = explored ++ skipped /\
      Forall2 (recorded_ab rec) explored subs /\
      t' = rall subs t /\
      ab_min_loop G rec explored v b l t alpha beta = Some (v', b', l', t') /\
      (forall e1 e2, explored = e1 ++ e2 -> e1 <> [] -> e2 <> [] ->
         exists v1 b1 l1 t1,
           ab_min_loop G rec e1 v b l t alpha beta = Some (v1, b1, l1, t1) /\
           ev_lt alpha v1) /\
      (skipped <> [] -> explored <> [] /\ ev_le v' alpha).
Proof.
  induction moves as [|move rest IH];
    intros v b l t alpha beta v' b' l' t' H.
  - exists [], [], [].
    split; [reflexivity|]. split; [constructor|].
    split; [simpl in H; inversion H; reflexivity|]. split; [exact H|].
    split; [|intros Hc; congruence].
    intros e1 e2 He Hn. symmetry in He. apply app_eq_nil in He.
    destruct He. contradiction.
  - rewrite ab_min_loop_cons in H.
    destruct (rec move alpha beta) as [[[rv rl] rt]|] eqn:E; [|discriminate].
    cbv zeta in H.
    assert (Hrec : recorded_ab rec move (encode G move, rt)).
    { split; [reflexivity | simpl; eauto]. }
    destruct (ev_leb (if ev_ltb rv v then rv else v) alpha) eqn:Ecut.
    + exists [move], rest, [(encode G move, rt)].
      split; [reflexivity|]. split; [constructor; [exact Hrec | constructor]|].
      split; [inversion H; reflexivity|].
      split; [rewrite ab_min_loop_cons, E; cbv zeta; rewrite Ecut; exact H|].
      split.
      * intros e1 e2 He Hn1 Hn2. exfalso.
        destruct e1 as [|m1 [|m2 e1]]; [congruence| |discriminate].
        destruct e2; [congruence | discriminate].
      * intros _. split; [discriminate|].
        inversion H; subst. unfold ev_leb in Ecut.
        apply negb_true_iff in Ecut. exact Ecut.
    + apply IH in H.
      destruct H as (ex & sk & subs & -> & HF & -> & Hrun & Hpre & Hc).
      exists (move :: ex), sk, ((encode G move, rt) :: subs).
      split; [reflexivity|]. split; [constructor; assumption|].
      split; [reflexivity|].
      split; [rewrite ab_min_loop_cons, E; cbv zeta; rewrite Ecut; exact Hrun|].
      split.
      * intros e1 e2 He Hn1 Hn2.
        destruct e1 as [|m1 e1]; [congruence|].
        simpl in He. inversion He; subst m1 ex. clear He.
        rewrite ab_min_loop_cons, E. cbv zeta. rewrite Ecut.
        destruct e1 as [|m2 e1].
        -- simpl. do 4 eexists. split; [reflexivity|].
           unfold ev_leb in Ecut. apply negb_false_iff in Ecut. exact Ecut.
        -- apply (Hpre (m2 :: e1) e2 eq_refl); [discriminate | exact Hn2].
      * intros Hsk. split; [discriminate | apply Hc; exact Hsk].
Qed.

End CutPoint.

(** C5. At a depth other than 0, the tree [minimax] returns is the result
    of assigning, for every generated move in generation order, the tree of
    that move's recursive call under the move's key, whether or not the move
    became the best one.  The tree [alphabeta] returns is built the same way
    from the moves up to the cutoff point and from no move after it: the
    recorded moves are a prefix of the generated ones, the result is that of
    the loop run on the recorded moves alone, after every recorded move but
    the last the value is still strictly short of the bound (below beta for
    the maximizer, above alpha for the minimizer), and moves are left over
    only when the last recorded move has brought the value to the bound, so
    that the move that triggers the cutoff is recorded and is the last one.
    In both, the keys of the tree are exactly the keys of the recorded
    moves.  With a positive depth and enough fuel for it both searches
    return. *)
Theorem tree_records_explored_moves (G : Game) (fuel : nat) (side : bool)
    (board : Board G) (flags : Flags G) (depth : Z) (alpha beta : EVal) :
  depth <> 0 ->
  let moves := generateMoves G side board flags in
  let rec := child_ab G fuel side board flags depth in
  let run := fun ms =>
    if side
    then ab_min_loop G rec ms PosInf None [] (Node []) alpha beta
    else ab_max_loop G rec ms NegInf None [] (Node []) alpha beta in
  (forall v p t,
      minimax G (S fuel) side board flags depth = Some (v, p, t) ->
      exists subs,
        Forall2 (recorded_mm (child_mm G fuel side board flags depth))
          moves subs /\
        t = record_all (Key_eq_dec G) subs (Node []) /\
        (forall k, In k (keys t) <-> In k (map (encode G) moves)))
  /\
  (forall v p t,
      alphabeta G (S fuel) side board flags depth alpha beta
        = Some (v, p, t) ->
      exists explored skipped subs,
        moves = explored ++ skipped /\
        Forall2 (recorded_ab rec) explored subs /\
        t = record_all (Key_eq_dec G) subs (Node []) /\
        (forall k, In k (keys t) <-> In k (map (encode G) explored)) /\
        finish G (run explored) = Some (v, p, t) /\
        (forall e1 e2,
            explored = e1 ++ e2 -> e1 <> [] -> e2 <> [] ->
            exists v1 b1 l1 t1,
              run e1 = Some (v1, b1, l1, t1) /\
              if side then ev_lt alpha v1 else ev_lt v1 beta) /\
        (skipped <> [] ->
         explored <> [] /\
         if side then ev_le v alpha else ev_le beta v))
  /\
  (0 < depth -> (Z.to_nat depth <= S fuel)%nat ->
   (exists r, minimax G (S fuel) side board flags depth = Some r) /\
   (exists r, alphabeta G (S fuel) side board flags depth alpha beta
              = Some r)).
Proof.
  intros Hd moves rec run. split; [|split].
  - intros v p t H.
    destruct (search_tree_shape G fuel side board flags depth alpha beta Hd)
      as [Hm _].
    exact (Hm v p t H).
  - intros v p t H. rewrite alphabeta_S in H.
    replace (depth =? 0) with false in H by (symmetry; apply Z.eqb_neq; exact Hd).
    fold rec moves in H.
    assert (Ht : exists explored skipped subs,
      moves = explored ++ skipped /\
      Forall2 (recorded_ab rec) explored subs /\
      t = record_all (Key_eq_dec G) subs (Node []) /\
      finish G (run explored) = Some (v, p, t) /\
      (forall e1 e2,
          explored = e1 ++ e2 -> e1 <> [] -> e2 <> [] ->
          exists v1 b1 l1 t1,
            run e1 = Some (v1, b1, l1, t1) /\
            if side then ev_lt alpha v1 else ev_lt v1 beta) /\
      (skipped <> [] ->
       explored <> [] /\ if side then ev_le v alpha else ev_le beta v)).
    { unfold run. destruct side; cbn [negb] in H;
        match type of H with
        | finish _ ?x = _ => destruct x as [[[[v' b'] l'] t']|] eqn:Hl
        end; simpl in H; inversion H; subst;
        [apply ab_min_loop_explored in Hl | apply ab_max_loop_explored in Hl];
        destruct Hl as (ex & sk & subs & Hg & HF & Ht & Hrun & Hpre & Hc);
        exists ex, sk, subs; rewrite Hrun;
        (split; [exact Hg|]); (split; [exact HF|]); (split; [exact Ht|]);
        (split; [reflexivity|]); (split; [exact Hpre | exact Hc]). }
    destruct Ht as (ex & sk & subs & Hg & HF & -> & Hrun & Hpre & Hc).
    exists ex, sk, subs.
    split; [exact Hg|]. split; [exact HF|]. split; [reflexivity|].
    split; [|split; [exact Hrun|split; [exact Hpre | exact Hc]]].
    intros k. rewrite record_all_keys, (recorded_ab_keys _ _ _ _ HF).
    simpl. tauto.
  - intros Hp Hf.
    destruct (minimax_total G (S fuel) side board flags depth
                ltac:(lia) Hf) as [[[m p] t] Hm].
    split; [eauto|].
    destruct (alphabeta_sound G (S fuel) _ _ _ _ _ _ _ Hm alpha beta)
      as (r & q & t' & Ha & _).
    eauto.
Qed.

(** At position 2 of [pruning_game] the minimizer has the replies 5, worth
    2, and 6, worth 9.  At depth 1 [minimax] records both; [alphabeta] with
    alpha = 3 records 5, which brings the value down to alpha, and leaves 6
    out. *)
Lemma tree_records_explored_moves_witness :
  1 <> 0 /\ 0 < 1 /\ (Z.to_nat 1 <= 1)%nat /\
  (exists r, minimax pruning_game 1 true 2%nat tt 1 = Some r) /\
  (exists subs,
      Forall2 (recorded_mm (child_mm pruning_game 0 true 2%nat tt 1))
        [5%nat; 6%nat] subs /\
      Node [(5%nat, Node []); (6%nat, Node [])]
      = record_all (Key_eq_dec pruning_game) subs (Node [])) /\
  (exists explored skipped subs,
      [5%nat; 6%nat] = explored ++ skipped /\
      skipped <> [] /\
      Forall2 (recorded_ab (child_ab pruning_game 0 true 2%nat tt 1))
        explored subs /\
      Node [(5%nat, Node [])]
      = record_all (Key_eq_dec pruning_game) subs (Node []) /\
      ev_le (Fin 2) (Fin 3)).
Proof.
  split; [discriminate|]. split; [lia|]. split; [simpl; lia|].
  destruct (tree_records_explored_moves pruning_game 0 true 2%nat tt 1
              (Fin 3) PosInf ltac:(discriminate)) as (Hm & Ha & Htot).
  split; [apply Htot; [lia | simpl; lia]|].
  split.
  - destruct (Hm (Fin 2) [Some 5%nat]
                (Node [(5%nat, Node []); (6%nat, Node [])]) eq_refl)
      as (subs & H1 & H2 & _).
    exists subs. auto.
  - destruct (Ha (Fin 2) [Some 5%nat] (Node [(5%nat, Node [])]) eq_refl)
      as (ex & sk & subs & H1 & H2 & H3 & H4 & _ & _ & H5).
    assert (Hsk : sk <> []).
    { intros ->. rewrite app_nil_r in H1.
      assert (Hin : In 6%nat (keys (Node [(5%nat, Node [])]
                                    : MoveTree (Key pruning_game)))).
      { apply H4. rewrite <- H1. simpl. auto. }
      simpl in Hin. destruct Hin as [Hin|[]]. discriminate. }
    exists ex, sk, subs.
    split; [exact H1|]. split; [exact Hsk|]. split; [exact H2|].
    split; [exact H3|]. apply (H5 Hsk).
Defined.

(** ** Leaf entries of the two trees *)

Section Leaves.
Variable G : Game.
Hypothesis keys_nodup :
  forall side board flags,
    NoDup (map (encode G) (generateMoves G side board flags)).

Lemma leaves_list_recorded recM recA :
  (forall m a b vm pm tm va pa ta,
      recM m = Some (vm, pm, tm) -> recA m a b = Some (va, pa, ta) ->
      (leaves ta <= leaves tm)%nat) ->
  forall explored sa sm,
    Forall2 (recorded_ab (G := G) recA) explored sa ->
    Forall2 (recorded_mm (G := G) recM) explored sm ->
    (leaves_list sa <= leaves_list sm)%nat.
Proof.
  intros Hle explored.
  induction explored as [|m ms IH]; intros sa sm Ha Hm;
    inversion Ha; inversion Hm; subst; simpl.
  - lia.
  - destruct y as [ka ta], y0 as [km tm].
    destruct H1 as (_ & a & b & va & pa & Ea).
    destruct H6 as (_ & vm & pm & Em). simpl in *.
    pose proof (entry_leaves_le _ _ (Hle _ _ _ _ _ _ _ _ _ Em Ea)).
    specialize (IH _ _ H3 H8). lia.
Qed.

Lemma loop_trees_leaves recM recA moves tm ta :
  (forall m a b vm pm tm va pa ta,
      recM m = Some (vm, pm, tm) -> recA m a b = Some (va, pa, ta) ->
      (leaves ta <= leaves tm)%nat) ->
  NoDup (map (encode G) moves) ->
  (exists subs, Forall2 (recorded_mm (G := G) recM) moves subs /\
                tm = record_all (Key_eq_dec G) subs (Node [])) ->
  (exists explored skipped subs,
      moves = explored ++ skipped /\
      Forall2 (recorded_ab (G := G) recA) explored subs /\
      ta = record_all (Key_eq_dec G) subs (Node [])) ->
  (leaves ta <= leaves tm)%nat.
Proof.
  intros Hle Hnd (sm & HFm & ->) (ex & sk & sa & -> & HFa & ->).
  apply Forall2_app_inv_l in HFm.
  destruct HFm as (s1 & s2 & HF1 & HF2 & ->).
  rewrite !record_all_nodup.
  - cbn [entries app]. rewrite !leaves_Node, leaves_list_app.
    pose proof (leaves_list_recorded recM recA Hle ex sa s1 HFa HF1). lia.
  - simpl. rewrite map_app, (recorded_mm_keys _ _ _ _ HF1),
      (recorded_mm_keys _ _ _ _ HF2), <- map_app. exact Hnd.
  - simpl. rewrite (recorded_ab_keys _ _ _ _ HFa).
    rewrite map_app in Hnd. apply NoDup_app_remove_r in Hnd. exact Hnd.
Qed.

Lemma alphabeta_leaves_le fuel :
  forall side board flags depth alpha beta vm pm tm va pa ta,
    minimax G fuel side board flags depth = Some (vm, pm, tm) ->
    alphabeta G fuel side board flags depth alpha beta = Some (va, pa, ta) ->
    (leaves ta <= leaves tm)%nat.
Proof.
  induction fuel as [|n IH];
    intros side board flags depth alpha beta vm pm tm va pa ta Hm Ha.
  - simpl in Hm, Ha. destruct (depth =? 0); [|discriminate].
    inversion Hm; inversion Ha; subst. lia.
  - destruct (Z.eq_dec depth 0) as [->|Hd].
    + simpl in Hm, Ha. inversion Hm; inversion Ha; subst. lia.
    + destruct (search_tree_shape G n side board flags depth
                  alpha beta Hd) as [H1 H2].
      destruct (H1 _ _ _ Hm) as (sm & HFm & Etm & _).
      destruct (H2 _ _ _ Ha) as (ex & sk & sa & Hg & HFa & Eta & _).
      eapply (loop_trees_leaves
                (child_mm G n side board flags depth)
                (child_ab G n side board flags depth)
                (generateMoves G side board flags)).
      * intros m a b vm' pm' tm' va' pa' ta' Em Ea.
        unfold child_mm, child_ab in Em, Ea.
        destruct (makeMove G side board m flags) as [[s' b'] f'].
        eapply IH; eauto.
      * apply keys_nodup.
      * eauto.
      * exists ex, sk, sa. auto.
Qed.

End Leaves.

(** Distinct keys are needed: in [colliding_game] the two replies at
    position 2 share a key, alpha-beta stops after the first (three leaves
    below it) and minimax overwrites it with the second (one leaf). *)
Lemma leaves_need_distinct_keys :
  exists v p tm ta,
    minimax colliding_game 3 false 0%nat tt 3 = Some (v, p, tm) /\
    alphabeta colliding_game 3 false 0%nat tt 3 NegInf PosInf
      = Some (v, p, ta) /\
    leaves tm = 2%nat /\ leaves ta = 4%nat.
Proof.
  do 4 eexists. split; [vm_compute; reflexivity|].
  split; [vm_compute; reflexivity|]. split; reflexivity.
Qed.

Lemma pruning_game_keys_nodup :
  forall side board flags,
    NoDup (map (encode pruning_game)
             (generateMoves pruning_game side board flags)).
Proof.
  intros s b f. cbn.
  do 3 (destruct b as [|b];
        [repeat constructor; simpl; intuition discriminate|]).
  constructor.
Defined.

(** C6. When the keys of the moves generated at a position are distinct,
    then for every depth >= 0 (and enough fuel for it) both searches return
    and the tree of [alphabeta] with the default bounds has at most as many
    leaf entries as the tree of [minimax] (as it has for any bounds and any
    depth whenever both return); and there is an input with a
    cutoff, depth 2 from the root of [pruning_game], where it has strictly
    fewer (3 against 4) while value and path agree. *)
Theorem alphabeta_explores_no_more_leaves (G : Game) (fuel : nat)
    (side : bool) (board : Board G) (flags : Flags G) (depth : Z) :
  (forall s b f, NoDup (map (encode G) (generateMoves G s b f))) ->
  0 <= depth -> (Z.to_nat depth <= fuel)%nat ->
  (exists vm pm tm va pa ta,
      minimax G fuel side board flags depth = Some (vm, pm, tm) /\
      alphabeta G fuel side board flags depth NegInf PosInf
        = Some (va, pa, ta) /\
      (leaves ta <= leaves tm)%nat) /\
  (forall fuel' depth' alpha beta vm pm tm va pa ta,
      minimax G fuel' side board flags depth' = Some (vm, pm, tm) ->
      alphabeta G fuel' side board flags depth' alpha beta
        = Some (va, pa, ta) ->
      (leaves ta <= leaves tm)%nat) /\
  (exists v p tm ta,
      minimax pruning_game 2 false 0%nat tt 2 = Some (v, p, tm) /\
      alphabeta pruning_game 2 false 0%nat tt 2 NegInf PosInf
        = Some (v, p, ta) /\
      tm = Node [(1%nat, Node [(3%nat, Node []); (4%nat, Node [])]);
                 (2%nat, Node [(5%nat, Node []); (6%nat, Node [])])] /\
      ta = Node [(1%nat, Node [(3%nat, Node []); (4%nat, Node [])]);
                 (2%nat, Node [(5%nat, Node [])])] /\
      (leaves ta < leaves tm)%nat).
Proof.
  intros Hnd Hd Hf. split; [|split].
  - destruct (alphabeta_equals_minimax_total G fuel side board flags depth
                Hd Hf) as (v & p & tm & ta & Hm & Ha).
    exists v, p, tm, v, p, ta. split; [exact Hm|]. split; [exact Ha|].
    eapply alphabeta_leaves_le; eauto.
  - intros fuel' depth' alpha beta vm pm tm va pa ta Hm Ha.
    eapply alphabeta_leaves_le; eauto.
  - do 4 eexists. split; [vm_compute; reflexivity|].
    split; [vm_compute; reflexivity|].
    split; [reflexivity|]. split; [reflexivity|]. vm_compute. lia.
Qed.

Lemma alphabeta_explores_no_more_leaves_witness :
  (forall s b f,
      NoDup (map (encode pruning_game) (generateMoves pruning_game s b f)))
  /\ 0 <= 2 /\ (Z.to_nat 2 <= 2)%nat /\
  exists vm pm tm va pa ta,
    minimax pruning_game 2 false 0%nat tt 2 = Some (vm, pm, tm) /\
    alphabeta pruning_game 2 false 0%nat tt 2 NegInf PosInf
      = Some (va, pa, ta) /\
    (leaves ta <= leaves tm)%nat.
Proof.
  split; [exact pruning_game_keys_nodup|].
  split; [lia|]. split; [simpl; lia|].
  destruct (alphabeta_explores_no_more_leaves pruning_game 2 false 0%nat tt 2
              pruning_game_keys_nodup ltac:(lia) ltac:(simpl; lia))
    as (H & _).
  exact H.
Defined.

Lemma alphabeta_equals_minimax_witness :
  0 <= 2 /\ (Z.to_nat 2 <= 2)%nat /\
  exists value path treeM treeA,
    minimax pruning_game 2 false 0%nat tt 2 = Some (value, path, treeM) /\
    alphabeta pruning_game 2 false 0%nat tt 2 NegInf PosInf
      = Some (value, path, treeA).
Proof.
  split; [lia|]. split; [simpl; lia|].
  apply (alphabeta_equals_minimax pruning_game 2 false 0%nat tt 2);
    [lia | simpl; lia].
Defined.

(** ** The selection rule of the loops *)

Section Selection.
Variable G : Game.

(** The maximizer's loop either keeps what it started with, no recursive
    value exceeding the starting value, or ends on the first move whose
    value is strictly above the starting value and all earlier values and
    at least every later value. *)
Lemma mm_max_loop_selection rec moves :
  forall v b l t v' b' l' t',
    mm_max_loop G rec moves v b l t = Some (v', b', l', t') ->
    (v' = v /\ b' = b /\ l' = l /\
     forall x, In x moves -> valued G rec x (fun rv => ev_le rv v)) \/
    (exists pre m post rt,
        moves = pre ++ m :: post /\ rec m = Some (v', l', rt) /\
        b' = Some m /\ ev_lt v v' /\
        (forall x, In x pre -> valued G rec x (fun rv => ev_lt rv v')) /\
        (forall x, In x post -> valued G rec x (fun rv => ev_le rv v'))).
Proof.
  induction moves as [|move rest IH]; intros v b l t v' b' l' t' H;
    simpl in H.
  - inversion H; subst. left. split; [reflexivity|]. split; [reflexivity|].
    split; [reflexivity|]. intros x [].
  - destruct (rec move) as [[[rv rl] rt]|] eqn:E; [|discriminate].
    destruct (ev_gtb rv v) eqn:Ev; apply IH in H;
      destruct H as [(-> & -> & -> & Hall)
                    |(pre & m & post & rt' & -> & Em & -> & Hlt & Hpre & Hpost)].
    + right. exists [], move, rest, rt.
      split; [reflexivity|]. split; [exact E|]. split; [reflexivity|].
      split; [ev_order|]. split; [intros x []|exact Hall].
    + right. exists (move :: pre), m, post, rt'.
      split; [reflexivity|]. split; [exact Em|]. split; [reflexivity|].
      split; [ev_order|]. split; [|exact Hpost].
      intros x [<-|Hx]; [exists rv, rl, rt; split; [exact E | exact Hlt]
                        | auto].
    + left. split; [reflexivity|]. split; [reflexivity|].
      split; [reflexivity|].
      intros x [<-|Hx]; [exists rv, rl, rt; split; [exact E | ev_order]
                        | auto].
    + right. exists (move :: pre), m, post, rt'.
      split; [reflexivity|]. split; [exact Em|]. split; [reflexivity|].
      split; [exact Hlt|]. split; [|exact Hpost].
      intros x [<-|Hx]; [exists rv, rl, rt; split; [exact E | ev_order]
                        | auto].
Qed.

Lemma mm_min_loop_selection rec moves :
  forall v b l t v' b' l' t',
    mm_min_loop G rec moves v b l t = Some (v', b', l', t') ->
    (v' = v /\ b' = b /\ l' = l /\
     forall x, In x moves -> valued G rec x (fun rv => ev_le v rv)) \/
    (exists pre m post rt,
        moves = pre ++ m :: post /\ rec m = Some (v', l', rt) /\
        b' = Some m /\ ev_lt v' v /\
        (forall x, In x pre -> valued G rec x (fun rv => ev_lt v' rv)) /\
        (forall x, In x post -> valued G rec x (fun rv => ev_le v' rv))).
Proof.
  induction moves as [|move rest IH]; intros v b l t v' b' l' t' H;
    simpl in H.
  - inversion H; subst. left. split; [reflexivity|]. split; [reflexivity|].
    split; [reflexivity|]. intros x [].
  - destruct (rec move) as [[[rv rl] rt]|] eqn:E; [|discriminate].
    destruct (ev_ltb rv v) eqn:Ev; apply IH in H;
      destruct H as [(-> & -> & -> & Hall)
                    |(pre & m & post & rt' & -> & Em & -> & Hlt & Hpre & Hpost)].
    + right. exists [], move, rest, rt.
      split; [reflexivity|]. split; [exact E|]. split; [reflexivity|].
      split; [ev_order|]. split; [intros x []|exact Hall].
    + right. exists (move :: pre), m, post, rt'.
      split; [reflexivity|]. split; [exact Em|]. split; [reflexivity|].
      split; [ev_order|]. split; [|exact Hpost].
      intros x [<-|Hx]; [exists rv, rl, rt; split; [exact E | exact Hlt]
                        | auto].
    + left. split; [reflexivity|]. split; [reflexivity|].
      split; [reflexivity|].
      intros x [<-|Hx]; [exists rv, rl, rt; split; [exact E | ev_order]
                        | auto].
    + right. exists (move :: pre), m, post, rt'.
      split; [reflexivity|]. split; [exact Em|]. split; [reflexivity|].
      split; [exact Hlt|]. split; [|exact Hpost].
      intros x [<-|Hx]; [exists rv, rl, rt; split; [exact E | ev_order]
                        | auto].
Qed.

End Selection.

(** ** Stochastic search *)

Section DictFacts2.
Context {K : Type}.
Variable K_eq_dec : forall a b : K, {a = b} + {a <> b}.

Lemma set_assoc_twice k v1 v2 (es : list (K * MoveTree K)) :
  set_assoc K_eq_dec k v2 (set_assoc K_eq_dec k v1 es)
  = set_assoc K_eq_dec k v2 es.
Proof.
  induction es as [|[k' v'] r IH]; simpl.
  - destruct (K_eq_dec k k); congruence.
  - destruct (K_eq_dec k k') as [E|E]; simpl.
    + destruct (K_eq_dec k k); congruence.
    + destruct (K_eq_dec k k'); [contradiction | rewrite IH; reflexivity].
Qed.

Lemma dict_set_twice k v1 v2 (d : MoveTree K) :
  dict_set K_eq_dec k v2 (dict_set K_eq_dec k v1 d) = dict_set K_eq_dec k v2 d.
Proof. unfold dict_set. simpl. rewrite set_assoc_twice. reflexivity. Qed.

End DictFacts2.

Lemma last_cons {A} (l : list A) : forall a d, last (a :: l) d = last l a.
Proof.
  induction l as [|b l IH]; intros a d; [reflexivity|].
  change (last (a :: b :: l) d) with (last (b :: l) d).
  rewrite !IH. reflexivity.
Qed.

(** *** The quotient *)

Lemma avg_nil : avg [] = Raise ZeroDivisionError.
Proof. reflexivity. Qed.

(** Of a non-empty list the quotient is a float, unless it is out of
    range. *)
Lemma avg_nonempty vals :
  vals <> [] -> (exists q, avg vals = Ok q) \/ avg vals = Raise OverflowError.
Proof.
  intros H. unfold avg, py_truediv.
  replace (Z.of_nat (length vals) =? 0) with false.
  - destruct (float_quotient _ _); eauto.
  - symmetry. apply Z.eqb_neq. destruct vals; [congruence | simpl length; lia].
Qed.

Lemma sample_avgs_Forall2 {M} (smp : list (M * list (list M * Z))) : forall qs,
  sample_avgs smp = Ok qs <-> Forall2 (fun s q => sample_avg s = Ok q) smp qs.
Proof.
  induction smp as [|s smp IH]; intros qs; cbn [sample_avgs].
  - split; intros H.
    + inversion H; subst. constructor.
    + inversion H; subst. reflexivity.
  - split; intros H.
    + destruct (sample_avg s) as [q|e] eqn:Eq; [|discriminate].
      cbn [bind] in H.
      destruct (sample_avgs smp) as [l|e] eqn:El; [|discriminate].
      cbn [bind] in H. inversion H; subst.
      constructor; [exact Eq | apply IH; reflexivity].
    + inversion H; subst. rewrite H2. cbn [bind].
      apply IH in H4. rewrite H4. reflexivity.
Qed.

Lemma Forall2_in_l {A B} (P : A -> B -> Prop) l l' :
  Forall2 P l l' -> forall x, In x l -> exists y, In y l' /\ P x y.
Proof.
  induction 1 as [|a b l l' Hab _ IH]; intros x Hx; [contradiction|].
  destruct Hx as [<-|Hx].
  - exists b. split; [left; reflexivity | exact Hab].
  - destruct (IH x Hx) as (y & Hy & Hp). exists y. split; [right|]; assumption.
Qed.

Section StochasticFacts.
Variable G : Game.
Variable R : Type.
Variable chooser : R -> list (Move G) -> option (Move G * R).

Local Notation tset := (dict_set (Key_eq_dec G)).
Local Notation tget := (dict_get (Key_eq_dec G)).

(** [backtrackPath] builds the chain of the path read backwards. *)
Lemma backtrack_loop_chain rest :
  forall prev done mTree,
    tget (encode G prev) mTree = Some (unwind G (rev done)) ->
    exists mTree',
      backtrack_loop G prev rest mTree = Ok mTree' /\
      tget (encode G (last rest prev)) mTree'
      = Some (unwind G (rev (done ++ removelast (prev :: rest)))).
Proof.
  induction rest as [|cur rest IH]; intros prev done mTree H.
  - exists mTree. split; [reflexivity|]. simpl. rewrite app_nil_r. exact H.
  - simpl backtrack_loop. rewrite H.
    destruct (IH cur (done ++ [prev])
                (tset (encode G cur)
                   (Node [(encode G prev, unwind G (rev done))]) mTree))
      as (mTree' & E & Hg).
    { rewrite dict_get_set_same, rev_app_distr. reflexivity. }
    exists mTree'. split; [exact E|].
    rewrite last_cons. rewrite Hg. rewrite <- app_assoc. reflexivity.
Qed.

Lemma backtrackPath_unwind mTree path :
  path <> [] -> backtrackPath G mTree path = Ok (unwind G (rev path)).
Proof.
  destruct path as [|first rest]; [congruence|]. intros _.
  unfold backtrackPath.
  destruct (backtrack_loop_chain rest first []
              (tset (encode G first) (Node []) mTree))
    as (mTree' & E & Hg).
  { rewrite dict_get_set_same. reflexivity. }
  rewrite E. unfold bind.
  rewrite (last_cons rest first first), Hg.
  assert (Hrev : rev (first :: rest)
                 = last rest first :: rev (removelast (first :: rest))).
  { rewrite <- (last_cons rest first first), <- rev_unit,
      <- app_removelast_last by discriminate. reflexivity. }
  rewrite Hrev. reflexivity.
Qed.

Lemma play_length k : forall pos rs mvs pos' rs',
  play G R chooser k pos rs = Some (mvs, pos', rs') -> length mvs = k.
Proof.
  induction k as [|k IH]; intros [[s b] f] rs mvs pos' rs' H; simpl in H.
  - inversion H; reflexivity.
  - destruct (chooser rs (generateMoves G s b f)) as [[move rs1]|];
      [|discriminate].
    destruct (play G R chooser k (makeMove G s b move f) rs1)
      as [[[mvs1 pos1] rs2]|] eqn:E; [|discriminate].
    inversion H; subst. simpl. f_equal. eapply IH; eauto.
Qed.

(** The [while] loop plays the remaining plies and then records the leaf. *)
Lemma rollout_loop_play k :
  forall fuel depth i_move curr_depth path pos vals mt rs,
    curr_depth <= depth -> k = Z.to_nat (depth - curr_depth) ->
    (k <= fuel)%nat ->
    rollout_loop G R chooser fuel depth i_move curr_depth path pos vals mt rs
    = match play G R chooser k pos rs with
      | None => Raise ChooserError
      | Some (mvs, (_, b', _), rs') =>
          child_tree <- backtrackPath G (Node []) (rev mvs ++ path) ;;
          match tget (encode G i_move) mt with
          | None => Raise KeyError
          | Some sub =>
              Ok (vals ++ [evaluate G b'],
                  tset (encode G i_move)
                    (dict_update (Key_eq_dec G) sub child_tree) mt,
                  rev mvs ++ path, rs')
          end
      end.
Proof.
  induction k as [|k IH];
    intros fuel depth i_move cd path [[s b] f] vals mt rs Hle Hk Hf.
  - assert (cd = depth) by lia. subst cd.
    destruct fuel; simpl; rewrite Z.leb_refl, Z.eqb_refl; reflexivity.
  - assert (Hlt : cd < depth) by lia.
    destruct fuel as [|fuel]; [lia|].
    simpl rollout_loop.
    replace (cd <=? depth) with true by (symmetry; apply Z.leb_le; lia).
    replace (cd =? depth) with false by (symmetry; apply Z.eqb_neq; lia).
    simpl play.
    destruct (chooser rs (generateMoves G s b f)) as [[move rs1]|];
      [|reflexivity].
    rewrite (IH fuel depth i_move (cd + 1) (move :: path)) by lia.
    destruct (play G R chooser k (makeMove G s b move f) rs1)
      as [[[mvs [[s' b'] f']] rs2]|]; [|reflexivity].
    simpl rev. rewrite <- !app_assoc. reflexivity.
Qed.

Lemma rollouts_length j k : forall pos rs ros rs',
  rollouts G R chooser j k pos rs = Some (ros, rs') ->
  length ros = j /\ Forall (fun ro => length (fst ro) = k) ros.
Proof.
  induction j as [|j IH]; intros pos rs ros rs' H; simpl in H.
  - inversion H; subst. split; [reflexivity | constructor].
  - destruct (play G R chooser k pos rs) as [[[mvs [[s' b'] f']] rs1]|] eqn:E;
      [|discriminate].
    destruct (rollouts G R chooser j k pos rs1) as [[ros1 rs2]|] eqn:E2;
      [|discriminate].
    inversion H; subst. destruct (IH _ _ _ _ E2) as [H1 H2].
    split; [simpl; congruence|].
    constructor; [simpl; eapply play_length; eauto | exact H2].
Qed.

(** The rollouts of one first move: [breadth_loop] against [rollouts]. *)
Lemma breadth_loop_rollouts j :
  forall depth i_move pos vals mt path rs sub,
    2 <= depth -> tget (encode G i_move) mt = Some sub ->
    breadth_loop G R chooser depth i_move pos j vals mt path rs
    = match rollouts G R chooser j (Z.to_nat (depth - 1)) pos rs with
      | None => Raise ChooserError
      | Some (ros, rs') =>
          Ok (vals ++ map snd ros,
              tset (encode G i_move) (merge_rollouts G ros sub) mt,
              final_path ros path, rs')
      end.
Proof.
  induction j as [|j IH]; intros depth i_move pos vals mt path rs sub Hd Hg.
  - simpl. rewrite app_nil_r. unfold merge_rollouts. simpl.
    f_equal. f_equal. f_equal. f_equal.
    destruct mt as [es]. unfold dict_set, dict_get in *. simpl in *.
    f_equal. clear - Hg. induction es as [|[k' v'] r IHes]; simpl in *.
    + discriminate.
    + destruct (Key_eq_dec G (encode G i_move) k') as [E|E].
      * inversion Hg; subst. reflexivity.
      * rewrite <- IHes by exact Hg. reflexivity.
  - simpl breadth_loop. simpl rollouts.
    rewrite (rollout_loop_play (Z.to_nat (depth - 1))) by lia.
    destruct (play G R chooser (Z.to_nat (depth - 1)) pos rs)
      as [[[mvs [[s' b'] f']] rs1]|] eqn:E; [|reflexivity].
    rewrite app_nil_r.
    assert (Hm : rev mvs <> []).
    { apply play_length in E. destruct mvs; [simpl in E; lia|].
      simpl. intros Hc. apply app_eq_nil in Hc. destruct Hc; discriminate. }
    rewrite (backtrackPath_unwind _ _ Hm), rev_involutive. unfold bind.
    rewrite Hg.
    rewrite (IH depth i_move pos _ _ _ rs1
               (dict_update (Key_eq_dec G) sub (unwind G mvs)))
      by (auto; apply dict_get_set_same).
    destruct (rollouts G R chooser j (Z.to_nat (depth - 1)) pos rs1)
      as [[ros rs2]|]; [|reflexivity].
    rewrite dict_set_twice, <- app_assoc. reflexivity.
Qed.

Lemma final_path_last {M} (ros : list (list M * Z)) : forall path,
  ros <> [] ->
  final_path ros path = Some (rev (fst (last ros ([], 0)))).
Proof.
  unfold final_path.
  induction ros as [|ro ros IH]; intros path H; [congruence|].
  destruct ros as [|ro' ros]; [reflexivity|].
  change (fold_left _ (ro :: ro' :: ros) path)
    with (fold_left (fun (_ : option (list M)) (ro0 : list M * Z) =>
                       Some (rev (fst ro0))) (ro' :: ros)
            (Some (rev (fst ro)))).
  rewrite IH by discriminate. reflexivity.
Qed.

(** The whole outer loop against [samples]: once every rollout has its
    moves, the loop ends as the quotients do. *)
Lemma moves_loop_samples side board flags depth breadth moves :
  2 <= depth -> 1 <= breadth ->
  forall moveList avgs mt path rs smp,
    samples G R chooser side board flags (Z.to_nat breadth)
      (Z.to_nat (depth - 1)) moves rs = Some smp ->
    moves_loop G R chooser side board flags depth breadth moves
      moveList avgs mt path rs
    = (qs <- sample_avgs smp ;;
       Ok (moveList ++ map sample_path smp, avgs ++ qs,
           fold_left (sample_tree G) smp mt)).
Proof.
  intros Hd Hb.
  induction moves as [|i_move rest IH]; intros moveList avgs mt path rs smp Hs.
  - simpl in Hs. inversion Hs; subst smp. simpl. rewrite !app_nil_r.
    reflexivity.
  - cbn [samples] in Hs. cbn [moves_loop].
    rewrite (breadth_loop_rollouts _ depth i_move _ _ _ _ _ (Node []))
      by (auto; apply dict_get_set_same).
    destruct (rollouts G R chooser (Z.to_nat breadth) (Z.to_nat (depth - 1))
                (makeMove G side board i_move flags) rs)
      as [[ros rs1]|] eqn:E; [|discriminate].
    destruct (samples G R chooser side board flags (Z.to_nat breadth)
                (Z.to_nat (depth - 1)) rest rs1) as [l|] eqn:E2;
      [|discriminate].
    inversion Hs; subst smp. clear Hs.
    unfold bind at 1.
    destruct (rollouts_length _ _ _ _ _ _ E) as [Hlen _].
    assert (Hne : ros <> [])
      by (destruct ros; [simpl in Hlen; lia | discriminate]).
    rewrite (final_path_last ros path Hne).
    cbn [app sample_avgs]. unfold sample_avg at 1. cbn [snd].
    destruct (avg (map snd ros)) as [q|e]; [|reflexivity].
    cbn [bind]. rewrite (IH _ _ _ _ _ l E2).
    destruct (sample_avgs l) as [qs|e]; [|reflexivity].
    cbn [bind map fold_left]. unfold sample_tree at 2, sample_path at 2.
    cbn [fst snd].
    rewrite dict_set_twice, <- !app_assoc. reflexivity.
Qed.

(** When some rollout has no moves, the loop ends in the chooser's error,
    unless a quotient before it was out of range. *)
Lemma moves_loop_no_samples side board flags depth breadth moves :
  2 <= depth -> 1 <= breadth ->
  forall moveList avgs mt path rs,
    samples G R chooser side board flags (Z.to_nat breadth)
      (Z.to_nat (depth - 1)) moves rs = None ->
    moves_loop G R chooser side board flags depth breadth moves
      moveList avgs mt path rs = Raise ChooserError \/
    moves_loop G R chooser side board flags depth breadth moves
      moveList avgs mt path rs = Raise OverflowError.
Proof.
  intros Hd Hb.
  induction moves as [|i_move rest IH]; intros moveList avgs mt path rs Hs.
  - discriminate.
  - cbn [samples] in Hs. cbn [moves_loop].
    rewrite (breadth_loop_rollouts _ depth i_move _ _ _ _ _ (Node []))
      by (auto; apply dict_get_set_same).
    destruct (rollouts G R chooser (Z.to_nat breadth) (Z.to_nat (depth - 1))
                (makeMove G side board i_move flags) rs)
      as [[ros rs1]|] eqn:E; [|left; reflexivity].
    unfold bind at 1. unfold bind at 2.
    destruct (rollouts_length _ _ _ _ _ _ E) as [Hlen _].
    assert (Hne : ros <> [])
      by (destruct ros; [simpl in Hlen; lia | discriminate]).
    rewrite (final_path_last ros path Hne). cbn [app].
    assert (Hm : map snd ros <> [])
      by (destruct ros; [congruence | discriminate]).
    destruct (avg_nonempty _ Hm) as [[q ->]| ->]; [|right; reflexivity].
    cbn [bind]. apply IH.
    destruct (samples G R chooser side board flags (Z.to_nat breadth)
                (Z.to_nat (depth - 1)) rest rs1); [discriminate | reflexivity].
Qed.

End StochasticFacts.

(** *** The final selection *)

Lemma qv_ltb_fin val m : qv_ltb val (QFin m) = true <-> (val < m)%Q.
Proof.
  unfold qv_ltb. rewrite negb_true_iff. split; intros H.
  - apply Qnot_le_lt. intros Hc. apply Qle_bool_iff in Hc. congruence.
  - destruct (Qle_bool m val) eqn:E; [|reflexivity].
    apply Qle_bool_iff in E. exfalso. eapply Qlt_not_le; eauto.
Qed.

Lemma qv_ltb_fin_false val m : qv_ltb val (QFin m) = false <-> (m <= val)%Q.
Proof.
  unfold qv_ltb. rewrite negb_false_iff. apply Qle_bool_iff.
Qed.

(** The loop either keeps the minimum it started with, no average being
    below it, or ends on the first average that is strictly below the
    starting minimum and all earlier averages and at most every later one. *)
Lemma min_loop_selects avgs :
  forall i min idx min' idx',
    min_loop i avgs min idx = (min', idx') ->
    (min' = min /\ idx' = idx /\
     forall x, In x avgs -> qv_ltb x min = false) \/
    (exists pre q post,
        avgs = pre ++ q :: post /\ min' = QFin q /\
        idx' = (i + length pre)%nat /\ qv_ltb q min = true /\
        (forall x, In x pre -> (q < x)%Q) /\
        (forall x, In x post -> (q <= x)%Q)).
Proof.
  induction avgs as [|val rest IH]; intros i min idx min' idx' H; simpl in H.
  - inversion H; subst. left. split; [reflexivity|]. split; [reflexivity|].
    intros x [].
  - destruct (qv_ltb val min) eqn:Ev; apply IH in H;
      destruct H as [(-> & -> & Hall)
                    |(pre & q & post & -> & -> & -> & Hq & Hpre & Hpost)].
    + right. exists [], val, rest.
      split; [reflexivity|]. split; [reflexivity|].
      split; [simpl; lia|]. split; [exact Ev|].
      split; [intros x []|].
      intros x Hx. apply qv_ltb_fin_false. auto.
    + right. exists (val :: pre), q, post.
      apply qv_ltb_fin in Hq.
      split; [reflexivity|]. split; [reflexivity|].
      split; [simpl; lia|].
      split.
      { destruct min as [m|]; [|reflexivity].
        apply qv_ltb_fin. apply qv_ltb_fin in Ev.
        eapply Qlt_trans; eauto. }
      split; [|exact Hpost].
      intros x [<-|Hx]; [exact Hq | auto].
    + left. split; [reflexivity|]. split; [reflexivity|].
      intros x [<-|Hx]; [exact Ev | auto].
    + right. exists (val :: pre), q, post.
      split; [reflexivity|]. split; [reflexivity|].
      split; [simpl; lia|]. split; [exact Hq|]. split; [|exact Hpost].
      intros x [<-|Hx]; [|auto].
      destruct min as [m|]; [|discriminate].
      apply qv_ltb_fin in Hq. apply qv_ltb_fin_false in Ev.
      eapply Qlt_le_trans; eauto.
Qed.

(** *** When [stochastic] raises *)

Section StochasticErrors.
Variable G : Game.
Variable R : Type.
Variable chooser : R -> list (Move G) -> option (Move G * R).

Lemma stochastic_no_moves side board flags depth breadth rs :
  generateMoves G side board flags = [] ->
  stochastic G R chooser side board flags depth breadth rs = Raise IndexError.
Proof. intros H. unfold stochastic. rewrite H. reflexivity. Qed.

Lemma stochastic_breadth_nonpositive side board flags depth breadth rs m rest :
  generateMoves G side board flags = m :: rest -> breadth <= 0 ->
  stochastic G R chooser side board flags depth breadth rs
  = Raise UnboundLocalError.
Proof.
  intros H Hb. unfold stochastic. rewrite H. simpl.
  replace (Z.to_nat breadth) with O by lia. reflexivity.
Qed.

Lemma stochastic_depth_one side board flags breadth rs m rest :
  generateMoves G side board flags = m :: rest -> 1 <= breadth ->
  stochastic G R chooser side board flags 1 breadth rs = Raise IndexError.
Proof.
  intros H Hb. unfold stochastic. rewrite H. simpl.
  destruct (Z.to_nat breadth) as [|j] eqn:E; [lia|].
  simpl. destruct (makeMove G side board m flags) as [[s' b'] f'].
  reflexivity.
Qed.

(** With a depth below 1 the [while] loop never runs. *)
Lemma breadth_loop_nonpositive depth i_move pos j :
  depth <= 0 ->
  forall vals mt path rs,
    breadth_loop G R chooser depth i_move pos j vals mt path rs
    = Ok (vals, mt, match j with O => path | S _ => Some [] end, rs).
Proof.
  intros Hd. induction j as [|j IH]; intros vals mt path rs.
  - reflexivity.
  - simpl breadth_loop.
    assert (E : forall fuel,
      rollout_loop G R chooser fuel depth i_move 1 [] pos vals mt rs
      = Ok (vals, mt, [], rs)).
    { intros fuel. destruct fuel; simpl;
        replace (1 <=? depth) with false
          by (symmetry; apply Z.leb_gt; lia); reflexivity. }
    rewrite E. unfold bind. rewrite IH. destruct j; reflexivity.
Qed.

Lemma stochastic_depth_nonpositive side board flags depth breadth rs m rest :
  generateMoves G side board flags = m :: rest -> 1 <= breadth -> depth <= 0 ->
  stochastic G R chooser side board flags depth breadth rs
  = Raise ZeroDivisionError.
Proof.
  intros H Hb Hd. unfold stochastic. rewrite H. simpl moves_loop.
  rewrite breadth_loop_nonpositive by exact Hd.
  destruct (Z.to_nat breadth) as [|j] eqn:E; [lia|]. reflexivity.
Qed.

(** A result means a depth of at least 2, a breadth of at least 1 and a
    legal move. *)
Lemma stochastic_ok_inv side board flags depth breadth rs r :
  stochastic G R chooser side board flags depth breadth rs = Ok r ->
  2 <= depth /\ 1 <= breadth /\ generateMoves G side board flags <> [].
Proof.
  intros H.
  destruct (generateMoves G side board flags) as [|m rest] eqn:Em.
  { rewrite stochastic_no_moves in H by exact Em. discriminate. }
  destruct (Z_le_gt_dec breadth 0) as [Hb|Hb].
  { rewrite (stochastic_breadth_nonpositive _ _ _ _ _ _ _ _ Em Hb) in H.
    discriminate. }
  destruct (Z_le_gt_dec depth 0) as [Hd|Hd].
  { rewrite (stochastic_depth_nonpositive _ _ _ _ _ _ _ _ Em) in H
      by lia. discriminate. }
  destruct (Z.eq_dec depth 1) as [->|Hd1].
  { rewrite (stochastic_depth_one _ _ _ _ _ _ _ Em) in H by lia.
    discriminate. }
  split; [lia|]. split; [lia | discriminate].
Qed.

Lemma samples_shape side board flags j k moves : forall rs smp,
  samples G R chooser side board flags j k moves rs = Some smp ->
  map fst smp = moves /\
  Forall (fun s => length (snd s) = j /\
                   Forall (fun ro => length (fst ro) = k) (snd s)) smp.
Proof.
  induction moves as [|m rest IH]; intros rs smp H; simpl in H.
  - inversion H; subst. split; [reflexivity | constructor].
  - destruct (rollouts G R chooser j k (makeMove G side board m flags) rs)
      as [[ros rs1]|] eqn:E; [|discriminate].
    destruct (samples G R chooser side board flags j k rest rs1)
      as [l|] eqn:E2; [|discriminate].
    inversion H; subst. destruct (IH _ _ E2) as [H1 H2].
    split; [simpl; congruence|].
    constructor; [simpl; eapply rollouts_length; eauto | exact H2].
Qed.

(** A result means that every rollout had its moves. *)
Lemma stochastic_ok_samples side board flags depth breadth rs r :
  stochastic G R chooser side board flags depth breadth rs = Ok r ->
  exists smp,
    samples G R chooser side board flags (Z.to_nat breadth)
      (Z.to_nat (depth - 1)) (generateMoves G side board flags) rs
    = Some smp.
Proof.
  intros H. destruct (stochastic_ok_inv _ _ _ _ _ _ _ H) as (Hd & Hb & Hm).
  destruct (samples G R chooser side board flags (Z.to_nat breadth)
              (Z.to_nat (depth - 1)) (generateMoves G side board flags) rs)
    as [smp|] eqn:Es; [eauto|].
  unfold stochastic in H.
  destruct (moves_loop_no_samples G R chooser side board flags depth breadth
              _ Hd Hb [] [] (Node []) None rs Es) as [E|E];
    rewrite E in H; discriminate.
Qed.

(** With a depth of at least 2 and a breadth of at least 1, the result is a
    function of the samples alone. *)
Lemma stochastic_by_samples side board flags depth breadth rs smp :
  2 <= depth -> 1 <= breadth ->
  samples G R chooser side board flags (Z.to_nat breadth)
    (Z.to_nat (depth - 1)) (generateMoves G side board flags) rs = Some smp ->
  stochastic G R chooser side board flags depth breadth rs
  = (qs <- sample_avgs smp ;;
     let '(min, min_idx) := min_loop 0 qs QInf 0 in
     match nth_error (map sample_path smp) min_idx with
     | None => Raise IndexError
     | Some p => Ok (min, p, fold_left (sample_tree G) smp (Node []))
     end).
Proof.
  intros Hd Hb Es. unfold stochastic.
  rewrite (moves_loop_samples G R chooser side board flags depth breadth
             _ Hd Hb [] [] (Node []) None rs smp Es).
  destruct (sample_avgs smp); reflexivity.
Qed.

(** The result of [stochastic] in terms of the samples. *)
Lemma stochastic_samples side board flags depth breadth rs v p t :
  stochastic G R chooser side board flags depth breadth rs = Ok (v, p, t) ->
  exists smp pre s post,
    samples G R chooser side board flags (Z.to_nat breadth)
      (Z.to_nat (depth - 1)) (generateMoves G side board flags) rs
    = Some smp /\
    t = fold_left (sample_tree G) smp (Node []) /\
    smp = pre ++ s :: post /\
    (exists qs, sample_avgs smp = Ok qs) /\
    p = sample_path s /\
    exists q,
      v = QFin q /\ sample_avg s = Ok q /\
      (forall x, In x pre ->
                 exists qx, sample_avg x = Ok qx /\ (q < qx)%Q) /\
      (forall x, In x post ->
                 exists qx, sample_avg x = Ok qx /\ (q <= qx)%Q).
Proof.
  intros H. destruct (stochastic_ok_inv _ _ _ _ _ _ _ H) as (Hd & Hb & Hm).
  destruct (stochastic_ok_samples _ _ _ _ _ _ _ H) as [smp Es].
  rewrite (stochastic_by_samples _ _ _ _ _ _ _ Hd Hb Es) in H.
  destruct (sample_avgs smp) as [qs|e] eqn:Eq; [|discriminate].
  cbn [bind] in H.
  destruct (min_loop 0 qs QInf 0) as [mn idx] eqn:El.
  destruct (nth_error (map sample_path smp) idx) as [p'|] eqn:En;
    [|discriminate].
  inversion H; subst v p t. clear H.
  exists smp.
  apply sample_avgs_Forall2 in Eq.
  apply min_loop_selects in El.
  destruct El as [(-> & -> & Hall)
                 |(pre & q & post & -> & -> & -> & _ & Hpre & Hpost)].
  - destruct Eq as [|s0 q0 smp qs E0 Eq].
    + destruct (samples_shape _ _ _ _ _ _ _ _ Es) as [Hk _].
      simpl in Hk. congruence.
    + specialize (Hall _ (or_introl eq_refl)). discriminate.
  - apply Forall2_app_inv_r in Eq.
    destruct Eq as (l1 & l2 & F1 & F2 & ->).
    inversion F2 as [|s q' l2' post' Esq F3]; subst.
    exists l1, s, l2'.
    split; [exact Es|]. split; [reflexivity|]. split; [reflexivity|].
    split.
    { exists (pre ++ q :: post). apply sample_avgs_Forall2.
      apply Forall2_app; [exact F1 | constructor; assumption]. }
    split.
    { cbn [Nat.add] in En. rewrite <- (Forall2_length F1) in En.
      rewrite map_app, nth_error_app2 in En by (rewrite length_map; lia).
      rewrite length_map, Nat.sub_diag in En. simpl in En. congruence. }
    exists q. split; [reflexivity|]. split; [exact Esq|].
    split.
    + intros x Hx. destruct (Forall2_in_l _ _ _ F1 x Hx) as (qx & Hq & Ex).
      exists qx. split; [exact Ex | apply Hpre; exact Hq].
    + intros x Hx. destruct (Forall2_in_l _ _ _ F3 x Hx) as (qx & Hq & Ex).
      exists qx. split; [exact Ex | apply Hpost; exact Hq].
Qed.

End StochasticErrors.

Section StochasticTheorems.
Variable G : Game.
Variable R : Type.
Variable chooser : R -> list (Move G) -> option (Move G * R).

Local Notation tget := (dict_get (Key_eq_dec G)).

Lemma get_set_other k k' v (es : list (Key G * MoveTree (Key G))) :
  k <> k' ->
  get_assoc (Key_eq_dec G) k (set_assoc (Key_eq_dec G) k' v es)
  = get_assoc (Key_eq_dec G) k es.
Proof.
  intros Hk. induction es as [|[k0 v0] r IH]; simpl.
  - destruct (Key_eq_dec G k k'); [contradiction | reflexivity].
  - destruct (Key_eq_dec G k' k0) as [E|E]; simpl.
    + subst k0. destruct (Key_eq_dec G k k'); [contradiction | reflexivity].
    + destruct (Key_eq_dec G k k0); [reflexivity | exact IH].
Qed.

Lemma sample_trees_other smp : forall t k,
  ~ In k (map (fun s => encode G (fst s)) smp) ->
  tget k (fold_left (sample_tree G) smp t) = tget k t.
Proof.
  induction smp as [|s smp IH]; intros t k H; simpl in *; [reflexivity|].
  rewrite IH by tauto. unfold sample_tree, dict_get, dict_set. simpl.
  apply get_set_other. intros E. apply H. left. congruence.
Qed.

Lemma sample_trees_get smp : forall t s,
  NoDup (map (fun s => encode G (fst s)) smp) -> In s smp ->
  tget (encode G (fst s)) (fold_left (sample_tree G) smp t)
  = Some (merge_rollouts G (snd s) (Node [])).
Proof.
  induction smp as [|s0 smp IH]; intros t s Hnd Hin; simpl in *; [contradiction|].
  inversion Hnd; subst.
  destruct Hin as [->|Hin].
  - rewrite sample_trees_other by assumption.
    unfold sample_tree. apply dict_get_set_same.
  - apply IH; assumption.
Qed.

End StochasticTheorems.

(** C7, as the specification states it, fails: the estimate is a float.
    At depth 2 and breadth 1 from the root of [rounding_game] the one
    rollout of first move 1 ends on a leaf worth 2^53 + 1 and that of first
    move 2 on a leaf worth 2^53; both quotients are the float 2^53, and
    [stochastic] returns that value with the path of first move 1, whose
    mean is not the returned value and is above the mean of first move
    2. *)
Lemma stochastic_mean_is_rounded :
  samples rounding_game nat cycle_chooser false 0%nat tt 1 1
    (generateMoves rounding_game false 0%nat tt) 0%nat
  = Some [(1%nat, [([3%nat], 9007199254740993)]);
          (2%nat, [([4%nat], 9007199254740992)])] /\
  stochastic rounding_game nat cycle_chooser false 0%nat tt 2 1 0%nat
  = Ok (QFin (9007199254740992 # 1), [1%nat; 3%nat],
        Node [(1%nat, Node [(3%nat, Node [])]);
              (2%nat, Node [(4%nat, Node [])])]) /\
  ~ (9007199254740992 # 1 == mean [9007199254740993%Z])%Q /\
  (mean [9007199254740992%Z] < mean [9007199254740993%Z])%Q.
Proof.
  split; [vm_compute; reflexivity|]. split; [vm_compute; reflexivity|].
  split; [intros H; vm_compute in H; discriminate | reflexivity].
Qed.

(** C7, amended. Whenever [stochastic] returns, its result is read off the
    samples of the first moves (one per generated move, in generation
    order, each with [breadth] rollouts).  The estimate of a first move is
    the float that Python's division gives for the sum of the leaf
    evaluations of its rollouts over their number, that is their arithmetic
    mean rounded to a float.  The value returned is the estimate of one
    first move, strictly below the estimate of every earlier first move and
    at most the estimate of every later one, and the path starts with that
    first move.  The side does not enter the selection: from any side,
    board and flags that lead to the same samples the result is the
    same. *)
Theorem stochastic_returns_min_estimate (G : Game) (R : Type)
    (chooser : R -> list (Move G) -> option (Move G * R))
    (side : bool) (board : Board G) (flags : Flags G) (depth breadth : Z)
    (rs : R) v p t :
  stochastic G R chooser side board flags depth breadth rs = Ok (v, p, t) ->
  exists smp pre s post q,
    samples G R chooser side board flags (Z.to_nat breadth)
      (Z.to_nat (depth - 1)) (generateMoves G side board flags) rs
    = Some smp /\
    map fst smp = generateMoves G side board flags /\
    Forall (fun x => length (snd x) = Z.to_nat breadth) smp /\
    1 <= breadth /\
    smp = pre ++ s :: post /\
    v = QFin q /\
    py_truediv (fold_left Z.add (map snd (snd s)) 0) breadth = Ok q /\
    p = fst s :: rev (fst (last (snd s) ([], 0))) /\
    (forall x, In x pre ->
       exists qx,
         py_truediv (fold_left Z.add (map snd (snd x)) 0) breadth = Ok qx /\
         (q < qx)%Q) /\
    (forall x, In x post ->
       exists qx,
         py_truediv (fold_left Z.add (map snd (snd x)) 0) breadth = Ok qx /\
         (q <= qx)%Q) /\
    (forall side' board' flags' rs',
        samples G R chooser side' board' flags' (Z.to_nat breadth)
          (Z.to_nat (depth - 1)) (generateMoves G side' board' flags') rs'
        = Some smp ->
        stochastic G R chooser side' board' flags' depth breadth rs'
        = Ok (v, p, t)).
Proof.
  intros H.
  destruct (stochastic_ok_inv _ _ _ _ _ _ _ _ _ _ H) as (Hd & Hb & _).
  destruct (stochastic_samples _ _ _ _ _ _ _ _ _ _ _ _ H)
    as (smp & pre & s & post & Es & Et & Esmp & _ & Ep & q & Ev & Eq
        & Hpre & Hpost).
  destruct (samples_shape _ _ _ _ _ _ _ _ _ _ _ Es) as [Hk Hsh].
  assert (Hlen : forall x, In x smp ->
            sample_avg x
            = py_truediv (fold_left Z.add (map snd (snd x)) 0) breadth).
  { intros x Hx. rewrite Forall_forall in Hsh. destruct (Hsh x Hx) as [Hl _].
    unfold sample_avg, avg. rewrite length_map, Hl, Z2Nat.id by lia.
    reflexivity. }
  exists smp, pre, s, post, q.
  split; [exact Es|]. split; [exact Hk|].
  split.
  { eapply Forall_impl; [|exact Hsh]. intros x [Hx _]. exact Hx. }
  split; [exact Hb|]. split; [exact Esmp|]. split; [exact Ev|].
  split; [rewrite <- Hlen, Eq by (rewrite Esmp; apply in_elt); reflexivity|].
  split; [exact Ep|].
  split.
  { intros x Hx. rewrite <- Hlen
      by (rewrite Esmp; apply in_or_app; left; exact Hx). auto. }
  split.
  { intros x Hx. rewrite <- Hlen
      by (rewrite Esmp; apply in_or_app; right; right; exact Hx). auto. }
  intros side' board' flags' rs' Es'.
  rewrite (stochastic_by_samples _ _ _ _ _ _ _ _ _ _ Hd Hb Es) in H.
  rewrite (stochastic_by_samples _ _ _ _ _ _ _ _ _ _ Hd Hb Es').
  exact H.
Qed.

(** Depth 2, breadth 3 from the root of [rollout_game]: the leaves under
    first move 1 are 10, 20 and 10, whose quotient is the float
    13.333333333333334 (7505999378950827 / 2^49), above the exact mean
    40/3; the leaf under first move 2 is 12 each time, and the second
    first move is returned. *)
Lemma stochastic_returns_min_estimate_witness :
  stochastic rollout_game nat cycle_chooser false 0%nat tt 2 3 0%nat
  = Ok (QFin (12 # 1), [2%nat; 5%nat],
        Node [(1%nat, Node [(3%nat, Node []); (4%nat, Node [])]);
              (2%nat, Node [(5%nat, Node [])])]) /\
  py_truediv 40 3 = Ok (7505999378950827 # 562949953421312) /\
  exists (smp pre : list (nat * list (list nat * Z))) s post q,
    map fst smp = [1%nat; 2%nat] /\
    smp = pre ++ s :: post /\
    QFin (12 # 1) = QFin q /\
    py_truediv (fold_left Z.add (map snd (snd s)) 0) 3 = Ok q /\
    (forall x, In x pre ->
       exists qx,
         py_truediv (fold_left Z.add (map snd (snd x)) 0) 3 = Ok qx /\
         (q < qx)%Q).
Proof.
  assert (E : stochastic rollout_game nat cycle_chooser false 0%nat tt 2 3
                0%nat
              = Ok (QFin (12 # 1), [2%nat; 5%nat],
                    Node [(1%nat, Node [(3%nat, Node []); (4%nat, Node [])]);
                          (2%nat, Node [(5%nat, Node [])])]))
    by (vm_compute; reflexivity).
  split; [exact E|]. split; [vm_compute; reflexivity|].
  destruct (stochastic_returns_min_estimate rollout_game nat cycle_chooser
              false 0%nat tt 2 3 0%nat _ _ _ E)
    as (smp & pre & s & post & q & _ & H1 & _ & _ & H2 & H3 & H4 & _ & H5 & _).
  exists smp, pre, s, post, q. auto.
Defined.

(** C9, as the specification states it, fails: at depth 2 and breadth 2 from
    the root of [rollout_game], with a chooser that walks through the
    candidates, the tree recorded under first move 1 holds the paths of both
    rollouts (through 3 and through 4); it is not the unwinding of any one
    move sequence. *)
Lemma stochastic_tree_holds_two_rollouts :
  exists v p t sub,
    stochastic rollout_game nat cycle_chooser false 0%nat tt 2 2 0%nat
    = Ok (v, p, t) /\
    dict_get (Key_eq_dec rollout_game) 1%nat t = Some sub /\
    sub = Node [(3%nat, Node []); (4%nat, Node [])] /\
    forall mvs, sub <> unwind rollout_game mvs.
Proof.
  do 4 eexists. split; [vm_compute; reflexivity|].
  split; [vm_compute; reflexivity|]. split; [reflexivity|].
  intros [|m r]; simpl; discriminate.
Qed.

(** C9, amended. Whenever [stochastic] returns, its tree is built from the
    samples of the first moves in generation order: each first move's key is
    assigned the merge, in rollout order, of the chains of all its [breadth]
    rollouts, every rollout being [depth - 1] moves unwound into nested
    single-child nodes; merging a chain assigns its tail under its first
    move's key, so rollouts that begin with different moves all stay, and
    of rollouts that begin with the same move the last one stays.  When the
    keys of the first moves are distinct, the tree found under a first
    move's key is that merge. *)
Theorem stochastic_tree_merges_rollouts (G : Game) (R : Type)
    (chooser : R -> list (Move G) -> option (Move G * R))
    (side : bool) (board : Board G) (flags : Flags G) (depth breadth : Z)
    (rs : R) v p t :
  stochastic G R chooser side board flags depth breadth rs = Ok (v, p, t) ->
  exists smp,
    samples G R chooser side board flags (Z.to_nat breadth)
      (Z.to_nat (depth - 1)) (generateMoves G side board flags) rs
    = Some smp /\
    map fst smp = generateMoves G side board flags /\
    Forall (fun s => length (snd s) = Z.to_nat breadth /\
                     Forall (fun ro => length (fst ro) = Z.to_nat (depth - 1))
                       (snd s)) smp /\
    t = fold_left (sample_tree G) smp (Node []) /\
    (forall d m r,
        dict_update (Key_eq_dec G) d (unwind G (m :: r))
        = dict_set (Key_eq_dec G) (encode G m) (unwind G r) d) /\
    (NoDup (map (encode G) (generateMoves G side board flags)) ->
     forall s, In s smp ->
       dict_get (Key_eq_dec G) (encode G (fst s)) t
       = Some (merge_rollouts G (snd s) (Node []))).
Proof.
  intros H.
  destruct (stochastic_samples _ _ _ _ _ _ _ _ _ _ _ _ H)
    as (smp & pre & s & post & Es & Et & _).
  destruct (samples_shape _ _ _ _ _ _ _ _ _ _ _ Es) as [Hk Hsh].
  exists smp. split; [exact Es|]. split; [exact Hk|]. split; [exact Hsh|].
  split; [exact Et|]. split; [reflexivity|].
  intros Hnd s0 Hin. subst t. apply sample_trees_get; [|exact Hin].
  rewrite <- Hk, map_map in Hnd. exact Hnd.
Qed.

Lemma stochastic_tree_merges_rollouts_witness :
  stochastic rollout_game nat cycle_chooser false 0%nat tt 2 2 0%nat
  = Ok (QFin (12 # 1), [2%nat; 5%nat],
        Node [(1%nat, Node [(3%nat, Node []); (4%nat, Node [])]);
              (2%nat, Node [(5%nat, Node [])])]) /\
  exists smp : list (nat * list (list nat * Z)),
    map fst smp = [1%nat; 2%nat] /\
    Node [(1%nat, Node [(3%nat, Node []); (4%nat, Node [])]);
          (2%nat, Node [(5%nat, Node [])])]
    = fold_left (sample_tree rollout_game) smp (Node []).
Proof.
  split; [reflexivity|].
  destruct (stochastic_tree_merges_rollouts rollout_game nat cycle_chooser
              false 0%nat tt 2 2 0%nat _ _ _ eq_refl)
    as (smp & _ & H1 & _ & H2 & _).
  exists smp. auto.
Defined.

(** C10. At a position with a legal move and with a breadth of at least 1,
    [stochastic] with depth 1 raises an index error (the last element of the
    empty rollout path) and with depth 0 a division by zero (no sample);
    and whatever the arguments, a result means that the depth is at least
    2. *)
Theorem stochastic_needs_depth_two (G : Game) (R : Type)
    (chooser : R -> list (Move G) -> option (Move G * R))
    (side : bool) (board : Board G) (flags : Flags G) (breadth : Z) (rs : R)
    (m : Move G) (rest : list (Move G)) :
  generateMoves G side board flags = m :: rest -> 1 <= breadth ->
  stochastic G R chooser side board flags 1 breadth rs = Raise IndexError /\
  stochastic G R chooser side board flags 0 breadth rs
  = Raise ZeroDivisionError /\
  (forall side' board' flags' depth breadth' rs' r,
      stochastic G R chooser side' board' flags' depth breadth' rs' = Ok r ->
      2 <= depth).
Proof.
  intros Hm Hb. split; [|split].
  - eapply stochastic_depth_one; eauto.
  - eapply stochastic_depth_nonpositive; eauto. lia.
  - intros side' board' flags' depth breadth' rs' r H.
    apply stochastic_ok_inv in H. tauto.
Qed.

Lemma stochastic_needs_depth_two_witness :
  generateMoves rollout_game false 0%nat tt = [1%nat; 2%nat] /\ 1 <= 2 /\
  stochastic rollout_game nat cycle_chooser false 0%nat tt 1 2 0%nat
  = Raise IndexError /\
  stochastic rollout_game nat cycle_chooser false 0%nat tt 0 2 0%nat
  = Raise ZeroDivisionError.
Proof.
  split; [reflexivity|]. split; [lia|].
  destruct (stochastic_needs_depth_two rollout_game nat cycle_chooser
              false 0%nat tt 2 0%nat 1%nat [2%nat] eq_refl ltac:(lia))
    as (H1 & H2 & _).
  auto.
Defined.

(** ** Negative depths and non-positive breadths *)

(** With a negative depth and a legal move at every position the recursion
    never reaches the base case: no amount of fuel gives a result. *)
Lemma negative_depth_never_returns (G : Game) :
  (forall s b f, generateMoves G s b f <> []) ->
  forall fuel side board flags depth alpha beta,
    depth < 0 ->
    minimax G fuel side board flags depth = None /\
    alphabeta G fuel side board flags depth alpha beta = None.
Proof.
  intros Hall. induction fuel as [|n IH];
    intros side board flags depth alpha beta Hd; simpl;
    replace (depth =? 0) with false by (symmetry; apply Z.eqb_neq; lia).
  - auto.
  - destruct (generateMoves G side board flags) as [|m rest] eqn:Em;
      [exfalso; eapply Hall; eauto|].
    destruct side; simpl;
      destruct (makeMove G _ board m flags) as [[s' b'] f'];
      destruct (IH s' b' f' (depth - 1) alpha beta ltac:(lia)) as [-> ->];
      auto.
Qed.

(** C8, as the specification states it, fails: with depth -1 at position 2
    of [mate_game], which has no legal move, [minimax] and [alphabeta]
    return a result instead of failing. *)
Lemma negative_depth_returns_result :
  -1 < 0 /\
  minimax mate_game 1 false 2%nat tt (-1) = Some (NegInf, [None], Node []) /\
  alphabeta mate_game 1 false 2%nat tt (-1) NegInf PosInf
  = Some (NegInf, [None], Node []).
Proof. split; [lia|]. split; reflexivity. Qed.

(** C8, amended. Nothing validates the arguments.  With a negative depth,
    [minimax] and [alphabeta] behave as for any depth other than 0: at a
    position without a legal move they return the sentinel with [[None]]
    and the empty tree, and in a game with a legal move at every position
    they never return.  [stochastic] at a position with a legal move raises
    an unbound-variable error when the breadth is 0 or less, and a division
    by zero when the breadth is at least 1 and the depth is negative; at a
    position without a legal move it raises an index error. *)
Theorem no_argument_validation (G : Game) (R : Type)
    (chooser : R -> list (Move G) -> option (Move G * R))
    (side : bool) (board : Board G) (flags : Flags G) (depth breadth : Z)
    (alpha beta : EVal) (rs : R) :
  (depth < 0 -> generateMoves G side board flags = [] ->
   forall fuel,
     minimax G (S fuel) side board flags depth
     = Some (if side then PosInf else NegInf, [None], Node []) /\
     alphabeta G (S fuel) side board flags depth alpha beta
     = Some (if side then PosInf else NegInf, [None], Node [])) /\
  (depth < 0 -> (forall s b f, generateMoves G s b f <> []) ->
   forall fuel,
     minimax G fuel side board flags depth = None /\
     alphabeta G fuel side board flags depth alpha beta = None) /\
  (breadth <= 0 -> generateMoves G side board flags <> [] ->
   stochastic G R chooser side board flags depth breadth rs
   = Raise UnboundLocalError) /\
  (depth < 0 -> 1 <= breadth -> generateMoves G side board flags <> [] ->
   stochastic G R chooser side board flags depth breadth rs
   = Raise ZeroDivisionError) /\
  (generateMoves G side board flags = [] ->
   stochastic G R chooser side board flags depth breadth rs
   = Raise IndexError).
Proof.
  split; [|split; [|split; [|split]]].
  - intros Hd Hm fuel. apply no_moves_sentinel; [lia | exact Hm].
  - intros Hd Hall fuel. apply negative_depth_never_returns; assumption.
  - intros Hb Hm.
    destruct (generateMoves G side board flags) as [|m rest] eqn:Em;
      [congruence|].
    eapply stochastic_breadth_nonpositive; eauto.
  - intros Hd Hb Hm.
    destruct (generateMoves G side board flags) as [|m rest] eqn:Em;
      [congruence|].
    eapply stochastic_depth_nonpositive; eauto. lia.
  - apply stochastic_no_moves.
Qed.

Lemma no_argument_validation_witness :
  (-1 < 0 /\ generateMoves mate_game false 2%nat tt = [] /\
   minimax mate_game 1 false 2%nat tt (-1)
   = Some (NegInf, [None], Node [])) /\
  (0 <= 0 /\ generateMoves rollout_game false 0%nat tt <> [] /\
   stochastic rollout_game nat cycle_chooser false 0%nat tt 2 0 0%nat
   = Raise UnboundLocalError) /\
  (-1 < 0 /\ 1 <= 2 /\
   stochastic rollout_game nat cycle_chooser false 0%nat tt (-1) 2 0%nat
   = Raise ZeroDivisionError).
Proof.
  split; [|split].
  - split; [lia|]. split; [reflexivity|].
    destruct (no_argument_validation mate_game nat cycle_chooser false
                2%nat tt (-1) 1 NegInf PosInf 0%nat) as (H & _).
    apply (H ltac:(lia) eq_refl 0%nat).
  - split; [lia|]. split; [discriminate|].
    destruct (no_argument_validation rollout_game nat cycle_chooser false
                0%nat tt 2 0 NegInf PosInf 0%nat) as (_ & _ & H & _).
    apply H; [lia | discriminate].
  - split; [lia|]. split; [lia|].
    destruct (no_argument_validation rollout_game nat cycle_chooser false
                0%nat tt (-1) 2 NegInf PosInf 0%nat) as (_ & _ & _ & H & _).
    apply H; [lia | lia | discriminate].
Defined.

(** * Further properties of the searches *)

(** ** The line a search returns *)

Section Lines.
Variable G : Game.

(** What a loop ends with is what it started with or the result of the
    recursive call on one of the moves. *)
Lemma mm_max_loop_pick rec moves :
  forall v b l t v' b' l' t',
    mm_max_loop G rec moves v b l t = Some (v', b', l', t') ->
    (v' = v /\ b' = b /\ l' = l) \/
    (exists m rt, In m moves /\ rec m = Some (v', l', rt) /\ b' = Some m).
Proof.
  intros v b l t v' b' l' t' H.
  destruct (mm_max_loop_selection G _ _ _ _ _ _ _ _ _ _ H)
    as [(-> & -> & -> & _)|(pre & m & post & rt & -> & E & -> & _)].
  - left; auto.
  - right. exists m, rt. split; [apply in_elt | auto].
Qed.

Lemma mm_min_loop_pick rec moves :
  forall v b l t v' b' l' t',
    mm_min_loop G rec moves v b l t = Some (v', b', l', t') ->
    (v' = v /\ b' = b /\ l' = l) \/
    (exists m rt, In m moves /\ rec m = Some (v', l', rt) /\ b' = Some m).
Proof.
  intros v b l t v' b' l' t' H.
  destruct (mm_min_loop_selection G _ _ _ _ _ _ _ _ _ _ H)
    as [(-> & -> & -> & _)|(pre & m & post & rt & -> & E & -> & _)].
  - left; auto.
  - right. exists m, rt. split; [apply in_elt | auto].
Qed.

Lemma ab_max_loop_pick rec moves :
  forall v b l t alpha beta v' b' l' t',
    ab_max_loop G rec moves v b l t alpha beta = Some (v', b', l', t') ->
    (v' = v /\ b' = b /\ l' = l) \/
    (exists m a c rt,
        In m moves /\ rec m a c = Some (v', l', rt) /\ b' = Some m).
Proof.
  induction moves as [|move rest IH];
    intros v b l t alpha beta v' b' l' t' H; simpl in H.
  - inversion H; subst. left; auto.
  - destruct (rec move alpha beta) as [[[rv rl] rt]|] eqn:E; [|discriminate].
    destruct (ev_gtb rv v); cbn in H;
      match type of H with
      | context [ev_geb ?x beta] => destruct (ev_geb x beta)
      end.
    + inversion H; subst. right. exists move, alpha, beta, rt.
      split; [left; reflexivity | auto].
    + apply IH in H. destruct H as [(-> & -> & ->)|(m & a & c & rt' & Hin & Hm)].
      * right. exists move, alpha, beta, rt. split; [left; reflexivity | auto].
      * right. exists m, a, c, rt'. split; [right; exact Hin | exact Hm].
    + inversion H; subst. left; auto.
    + apply IH in H. destruct H as [H|(m & a & c & rt' & Hin & Hm)].
      * left; exact H.
      * right. exists m, a, c, rt'. split; [right; exact Hin | exact Hm].
Qed.

Lemma ab_min_loop_pick rec moves :
  forall v b l t alpha beta v' b' l' t',
    ab_min_loop G rec moves v b l t alpha beta = Some (v', b', l', t') ->
    (v' = v /\ b' = b /\ l' = l) \/
    (exists m a c rt,
        In m moves /\ rec m a c = Some (v', l', rt) /\ b' = Some m).
Proof.
  induction moves as [|move rest IH];
    intros v b l t alpha beta v' b' l' t' H; simpl in H.
  - inversion H; subst. left; auto.
  - destruct (rec move alpha beta) as [[[rv rl] rt]|] eqn:E; [|discriminate].
    destruct (ev_ltb rv v); cbn in H;
      match type of H with
      | context [ev_leb ?x alpha] => destruct (ev_leb x alpha)
      end.
    + inversion H; subst. right. exists move, alpha, beta, rt.
      split; [left; reflexivity | auto].
    + apply IH in H. destruct H as [(-> & -> & ->)|(m & a & c & rt' & Hin & Hm)].
      * right. exists move, alpha, beta, rt. split; [left; reflexivity | auto].
      * right. exists m, a, c, rt'. split; [right; exact Hin | exact Hm].
    + inversion H; subst. left; auto.
    + apply IH in H. destruct H as [H|(m & a & c & rt' & Hin & Hm)].
      * left; exact H.
      * right. exists m, a, c, rt'. split; [right; exact Hin | exact Hm].
Qed.

(** What a search returns at a depth other than 0: the sentinel with
    [[None]], or a generated move in front of what the recursive call on it
    returned. *)
Lemma minimax_pick fuel side board flags depth v p t :
  depth <> 0 ->
  minimax G (S fuel) side board flags depth = Some (v, p, t) ->
  (p = [None] /\ v = if side then PosInf else NegInf) \/
  (exists m rl rt,
      In m (generateMoves G side board flags) /\
      child_mm G fuel side board flags depth m = Some (v, rl, rt) /\
      p = Some m :: rl).
Proof.
  intros Hd H. rewrite minimax_S in H.
  apply Z.eqb_neq in Hd. rewrite Hd in H.
  destruct side; simpl in H;
    match type of H with
    | finish _ ?x = _ => destruct x as [[[[v' b'] l'] t']|] eqn:El
    end; simpl in H; inversion H; subst;
    [apply mm_min_loop_pick in El | apply mm_max_loop_pick in El];
    (destruct El as [(-> & -> & ->)|(m & rt & Hin & Em & ->)];
     [left; auto | right; exists m, l', rt; auto]).
Qed.

Lemma alphabeta_pick fuel side board flags depth alpha beta v p t :
  depth <> 0 ->
  alphabeta G (S fuel) side board flags depth alpha beta = Some (v, p, t) ->
  (p = [None] /\ v = if side then PosInf else NegInf) \/
  (exists m a c rl rt,
      In m (generateMoves G side board flags) /\
      child_ab G fuel side board flags depth m a c = Some (v, rl, rt) /\
      p = Some m :: rl).
Proof.
  intros Hd H. rewrite alphabeta_S in H.
  apply Z.eqb_neq in Hd. rewrite Hd in H.
  destruct side; simpl in H;
    match type of H with
    | finish _ ?x = _ => destruct x as [[[[v' b'] l'] t']|] eqn:El
    end; simpl in H; inversion H; subst;
    [apply ab_min_loop_pick in El | apply ab_max_loop_pick in El];
    (destruct El as [(-> & -> & ->)|(m & a & c & rt & Hin & Em & ->)];
     [left; auto | right; exists m, a, c, l', rt; auto]).
Qed.

End Lines.

Section LineValues.
Variable G : Game.

Lemma legal_line_cons side board flags m rl s' b' f' :
  In m (generateMoves G side board flags) ->
  makeMove G side board m flags = (s', b', f') ->
  legal_line G s' b' f' rl ->
  legal_line G side board flags (Some m :: rl).
Proof. intros Hin E Hl. simpl. rewrite E. auto. Qed.

Lemma line_value_cons side board flags depth v m rl s' b' f' :
  makeMove G side board m flags = (s', b', f') ->
  line_value G s' b' f' (depth - 1) v rl ->
  line_value G side board flags depth v (Some m :: rl).
Proof.
  intros E [H1 H2]. split.
  - intros [Hc|Hin]; [discriminate | auto].
  - intros Hn. destruct H2 as [Hlen Hv].
    + intros Hc. apply Hn. right. exact Hc.
    + split; [simpl length; lia|]. simpl follow. rewrite E. exact Hv.
Qed.

Lemma line_value_sentinel side board flags depth (s : bool) :
  line_value G side board flags depth (if s then PosInf else NegInf) [None].
Proof.
  split.
  - intros _. destruct s; auto.
  - intros Hn. exfalso. apply Hn. left. reflexivity.
Qed.

Lemma line_value_leaf side board flags :
  line_value G side board flags 0 (Fin (evaluate G board)) [].
Proof.
  split; [intros [] | intros _; split; reflexivity].
Qed.

Lemma minimax_line fuel :
  forall side board flags depth v p t,
    minimax G fuel side board flags depth = Some (v, p, t) ->
    legal_line G side board flags p /\
    line_value G side board flags depth v p /\
    (0 <= depth -> Z.of_nat (length p) <= depth) /\
    (depth <> 0 -> p <> []).
Proof.
  induction fuel as [|n IH]; intros side board flags depth v p t H.
  - simpl in H. destruct (depth =? 0) eqn:Ed; [|discriminate].
    apply Z.eqb_eq in Ed. inversion H; subst.
    split; [exact I|]. split; [apply line_value_leaf|].
    split; [simpl; lia | congruence].
  - destruct (Z.eq_dec depth 0) as [->|Hd].
    { simpl in H. inversion H; subst.
      split; [exact I|]. split; [apply line_value_leaf|].
      split; [simpl; lia | congruence]. }
    destruct (minimax_pick G _ _ _ _ _ _ _ _ Hd H)
      as [[-> ->]|(m & rl & rt & Hin & Ec & ->)].
    + split; [reflexivity|]. split; [apply line_value_sentinel|].
      split; [simpl; lia | discriminate].
    + unfold child_mm in Ec.
      destruct (makeMove G side board m flags) as [[s' b'] f'] eqn:Em.
      destruct (IH _ _ _ _ _ _ _ Ec) as (Hl & Hv & Hlen & _).
      split; [eapply legal_line_cons; eauto|].
      split; [eapply line_value_cons; eauto|].
      split; [simpl length; lia | discriminate].
Qed.

Lemma alphabeta_line fuel :
  forall side board flags depth alpha beta v p t,
    alphabeta G fuel side board flags depth alpha beta = Some (v, p, t) ->
    legal_line G side board flags p /\
    line_value G side board flags depth v p /\
    (0 <= depth -> Z.of_nat (length p) <= depth) /\
    (depth <> 0 -> p <> []).
Proof.
  induction fuel as [|n IH];
    intros side board flags depth alpha beta v p t H.
  - simpl in H. destruct (depth =? 0) eqn:Ed; [|discriminate].
    apply Z.eqb_eq in Ed. inversion H; subst.
    split; [exact I|]. split; [apply line_value_leaf|].
    split; [simpl; lia | congruence].
  - destruct (Z.eq_dec depth 0) as [->|Hd].
    { simpl in H. inversion H; subst.
      split; [exact I|]. split; [apply line_value_leaf|].
      split; [simpl; lia | congruence]. }
    destruct (alphabeta_pick G _ _ _ _ _ _ _ _ _ _ Hd H)
      as [[-> ->]|(m & a & c & rl & rt & Hin & Ec & ->)].
    + split; [reflexivity|]. split; [apply line_value_sentinel|].
      split; [simpl; lia | discriminate].
    + unfold child_ab in Ec.
      destruct (makeMove G side board m flags) as [[s' b'] f'] eqn:Em.
      destruct (IH _ _ _ _ _ _ _ _ _ Ec) as (Hl & Hv & Hlen & _).
      split; [eapply legal_line_cons; eauto|].
      split; [eapply line_value_cons; eauto|].
      split; [simpl length; lia | discriminate].
Qed.

(** With a legal move at every position no sentinel comes up. *)
Lemma minimax_finite :
  (forall s b f, generateMoves G s b f <> []) ->
  forall fuel side board flags depth v p t,
    minimax G fuel side board flags depth = Some (v, p, t) ->
    exists z, v = Fin z.
Proof.
  intros Hall. induction fuel as [|n IH];
    intros side board flags depth v p t H.
  - simpl in H. destruct (depth =? 0); [|discriminate].
    inversion H; eauto.
  - rewrite minimax_S in H. destruct (depth =? 0); [inversion H; eauto|].
    assert (Hfin : forall x rv rl rt,
      child_mm G n side board flags depth x = Some (rv, rl, rt) ->
      exists z, rv = Fin z).
    { intros x rv rl rt Ex. unfold child_mm in Ex.
      destruct (makeMove G side board x flags) as [[s' b'] f'].
      eapply IH; eauto. }
    specialize (Hall side board flags).
    destruct side; cbn [negb] in H;
      match type of H with
      | finish _ ?x = _ => destruct x as [[[[v' b'] l'] t']|] eqn:El
      end; simpl in H; inversion H; subst;
      [apply mm_min_loop_selection in El
      |apply mm_max_loop_selection in El];
      (destruct El as [(_ & _ & _ & Hle)
                      |(pre & x & post & rt & _ & Ex & _)];
       [|eapply Hfin; eauto]);
      (destruct (generateMoves G _ board flags) as [|m rest];
       [congruence|]);
      destruct (Hle m (or_introl eq_refl)) as (rv & rl & rt & Ex & Hv);
      destruct (Hfin _ _ _ _ Ex) as [z ->]; discriminate.
Qed.

End LineValues.

(** X1. Whatever [minimax] or [alphabeta] (with any bounds) returns, its
    move list is a legal line from the position searched: every move in it
    is one the generator yields at the position reached by the moves before
    it, and [None] can only be its last entry.  For a depth >= 0 the list
    is at most [depth] long, and it is empty only at depth 0. *)
Theorem search_line_is_legal (G : Game) (fuel : nat) (side : bool)
    (board : Board G) (flags : Flags G) (depth : Z) (alpha beta : EVal)
    v p t :
  minimax G fuel side board flags depth = Some (v, p, t) \/
  alphabeta G fuel side board flags depth alpha beta = Some (v, p, t) ->
  legal_line G side board flags p /\
  (0 <= depth -> Z.of_nat (length p) <= depth) /\
  (depth <> 0 -> p <> []).
Proof.
  intros [H|H];
    [apply minimax_line in H | apply alphabeta_line in H]; tauto.
Qed.

Lemma search_line_is_legal_witness :
  minimax pruning_game 2 false 0%nat tt 2
  = Some (Fin 3, [Some 1%nat; Some 3%nat],
          Node [(1%nat, Node [(3%nat, Node []); (4%nat, Node [])]);
                (2%nat, Node [(5%nat, Node []); (6%nat, Node [])])]) /\
  legal_line pruning_game false 0%nat tt [Some 1%nat; Some 3%nat].
Proof.
  split; [reflexivity|].
  apply (search_line_is_legal pruning_game 2 false 0%nat tt 2 NegInf PosInf
           (Fin 3) [Some 1%nat; Some 3%nat]
           (Node [(1%nat, Node [(3%nat, Node []); (4%nat, Node [])]);
                  (2%nat, Node [(5%nat, Node []); (6%nat, Node [])])])).
  left. reflexivity.
Defined.

(** X2. The value [minimax] or [alphabeta] (with any bounds) returns is the
    value of the line it returns: when the line holds no [None], it is as
    long as the depth and the value is the evaluation of the board reached
    by playing it; when the line ends in [None], the value is one of the two
    sentinels. *)
Theorem search_value_is_line_value (G : Game) (fuel : nat) (side : bool)
    (board : Board G) (flags : Flags G) (depth : Z) (alpha beta : EVal)
    v p t :
  minimax G fuel side board flags depth = Some (v, p, t) \/
  alphabeta G fuel side board flags depth alpha beta = Some (v, p, t) ->
  (In None p -> v = NegInf \/ v = PosInf) /\
  (~ In None p ->
   Z.of_nat (length p) = depth /\
   v = Fin (evaluate G (board_of (follow G side board flags p)))).
Proof.
  intros [H|H];
    [apply minimax_line in H | apply alphabeta_line in H];
    destruct H as (_ & Hv & _); exact Hv.
Qed.

Lemma search_value_is_line_value_witness :
  alphabeta pruning_game 2 false 0%nat tt 2 NegInf PosInf
  = Some (Fin 3, [Some 1%nat; Some 3%nat],
          Node [(1%nat, Node [(3%nat, Node []); (4%nat, Node [])]);
                (2%nat, Node [(5%nat, Node [])])]) /\
  Fin 3 = Fin (evaluate pruning_game
                 (board_of (follow pruning_game false 0%nat tt
                              [Some 1%nat; Some 3%nat]))).
Proof.
  split; [reflexivity|].
  destruct (search_value_is_line_value pruning_game 2 false 0%nat tt 2
              NegInf PosInf (Fin 3) [Some 1%nat; Some 3%nat]
              (Node [(1%nat, Node [(3%nat, Node []); (4%nat, Node [])]);
                     (2%nat, Node [(5%nat, Node [])])])
              (or_intror eq_refl)) as [_ H].
  apply H. intros [Hc|[Hc|[]]]; discriminate.
Defined.

(** X3. In a game with a legal move at every position, for every depth >= 0
    (and enough fuel) [minimax] and [alphabeta] with the default bounds
    return the same finite value and the same line; the line holds no
    [None], is legal, is exactly [depth] moves long, and the value is the
    evaluation of the board it leads to. *)
Theorem search_full_depth_line (G : Game) (fuel : nat) (side : bool)
    (board : Board G) (flags : Flags G) (depth : Z) :
  (forall s b f, generateMoves G s b f <> []) ->
  0 <= depth -> (Z.to_nat depth <= fuel)%nat ->
  exists z p tM tA,
    minimax G fuel side board flags depth = Some (Fin z, p, tM) /\
    alphabeta G fuel side board flags depth NegInf PosInf
    = Some (Fin z, p, tA) /\
    ~ In None p /\ legal_line G side board flags p /\
    Z.of_nat (length p) = depth /\
    z = evaluate G (board_of (follow G side board flags p)).
Proof.
  intros Hall Hd Hf.
  destruct (alphabeta_equals_minimax_total G fuel side board flags depth
              Hd Hf) as (v & p & tM & tA & Hm & Ha).
  destruct (minimax_finite G Hall _ _ _ _ _ _ _ _ Hm) as [z ->].
  destruct (minimax_line G _ _ _ _ _ _ _ _ Hm) as (Hl & [Hv1 Hv2] & _).
  assert (Hn : ~ In None p).
  { intros Hc. destruct (Hv1 Hc); discriminate. }
  destruct (Hv2 Hn) as [Hlen Hz].
  exists z, p, tM, tA.
  split; [exact Hm|]. split; [exact Ha|]. split; [exact Hn|].
  split; [exact Hl|]. split; [exact Hlen|]. congruence.
Qed.

Lemma search_full_depth_line_witness :
  (forall s b f, generateMoves ladder_game s b f <> []) /\
  0 <= 3 /\ (Z.to_nat 3 <= 3)%nat /\
  exists z p tM tA,
    minimax ladder_game 3 false 0%nat tt 3 = Some (Fin z, p, tM) /\
    alphabeta ladder_game 3 false 0%nat tt 3 NegInf PosInf
    = Some (Fin z, p, tA) /\
    ~ In None p /\ legal_line ladder_game false 0%nat tt p /\
    Z.of_nat (length p) = 3 /\
    z = evaluate ladder_game (board_of (follow ladder_game false 0%nat tt p)).
Proof.
  assert (H : forall s b f, generateMoves ladder_game s b f <> [])
    by (intros s b f; discriminate).
  split; [exact H|]. split; [lia|]. split; [simpl; lia|].
  apply (search_full_depth_line ladder_game 3 false 0%nat tt 3 H);
    [lia | simpl; lia].
Defined.

(** X4. At a depth other than 0, [minimax] either finds no recursive value
    off the sentinel its loop starts from (no move, or every move worth
    that sentinel) and returns the sentinel with [[None]], or returns the
    value and line of the first generated move with the best value: every
    earlier move is strictly worse, every later move is no better (greater
    is better for side False, smaller for side True). *)
Theorem minimax_selects_first_best (G : Game) (fuel : nat) (side : bool)
    (board : Board G) (flags : Flags G) (depth : Z) v p t :
  depth <> 0 ->
  minimax G (S fuel) side board flags depth = Some (v, p, t) ->
  let child := child_mm G fuel side board flags depth in
  (p = [None] /\ v = (if side then PosInf else NegInf) /\
   forall x, In x (generateMoves G side board flags) ->
             valued G child x (fun rv => rv = v)) \/
  (exists pre m post rl rt,
      generateMoves G side board flags = pre ++ m :: post /\
      child m = Some (v, rl, rt) /\ p = Some m :: rl /\
      (forall x, In x pre ->
         valued G child x
           (fun rv => if side then ev_lt v rv else ev_lt rv v)) /\
      (forall x, In x post ->
         valued G child x
           (fun rv => if side then ev_le v rv else ev_le rv v))).
Proof.
  intros Hd H child. rewrite minimax_S in H.
  apply Z.eqb_neq in Hd. rewrite Hd in H.
  fold child in H.
  destruct side; cbn [negb] in H;
    match type of H with
    | finish _ ?x = _ => destruct x as [[[[v' b'] l'] t']|] eqn:El
    end; simpl in H; inversion H; subst;
    [apply mm_min_loop_selection in El | apply mm_max_loop_selection in El];
    (destruct El as [(-> & -> & -> & Hall)
                    |(pre & m & post & rt & Eg & Em & -> & _ & Hpre & Hpost)];
     [left; split; [reflexivity|]; split; [reflexivity|];
      intros x Hx; destruct (Hall x Hx) as (rv & rl & rt & Ex & Hv);
      exists rv, rl, rt; split; [exact Ex | ev_order]
     |right; exists pre, m, post, l', rt; auto]).
Qed.

Lemma minimax_selects_first_best_witness :
  2 <> 0 /\
  exists pre m post rl rt,
    generateMoves pruning_game false 0%nat tt = pre ++ m :: post /\
    child_mm pruning_game 1 false 0%nat tt 2 m = Some (Fin 3, rl, rt) /\
    [Some 1%nat; Some 3%nat] = Some m :: rl.
Proof.
  split; [discriminate|].
  destruct (minimax_selects_first_best pruning_game 1 false 0%nat tt 2
              (Fin 3) [Some 1%nat; Some 3%nat]
              (Node [(1%nat, Node [(3%nat, Node []); (4%nat, Node [])]);
                     (2%nat, Node [(5%nat, Node []); (6%nat, Node [])])])
              ltac:(discriminate) eq_refl)
    as [(Hc & _)|(pre & m & post & rl & rt & H1 & H2 & H3 & _)];
    [discriminate|].
  exists pre, m, post, rl, rt. auto.
Defined.

(** X5. The window contract of [alphabeta]: when [minimax] returns value
    [m] and line [p] and [alpha < beta], [alphabeta] with these bounds
    returns too; if [m] lies strictly between the bounds it returns exactly
    [m] and [p]; if [m <= alpha] its value is at most [alpha]; if
    [beta <= m] its value is at least [beta]. *)
Theorem alphabeta_window_contract (G : Game) (fuel : nat) (side : bool)
    (board : Board G) (flags : Flags G) (depth : Z) (alpha beta : EVal)
    m p t :
  minimax G fuel side board flags depth = Some (m, p, t) ->
  ev_lt alpha beta ->
  exists r q t',
    alphabeta G fuel side board flags depth alpha beta = Some (r, q, t') /\
    (ev_lt alpha m -> ev_lt m beta -> r = m /\ q = p) /\
    (ev_le m alpha -> ev_le r alpha) /\
    (ev_le beta m -> ev_le beta r).
Proof.
  intros Hm Hab.
  destruct (alphabeta_sound G fuel _ _ _ _ _ _ _ Hm alpha beta)
    as (r & q & t' & Ha & Hs).
  destruct (Hs Hab) as (Hs1 & Hs2 & Hs3).
  exists r, q, t'. split; [exact Ha|]. split; [|split].
  - intros H1 H2. apply Hs1; left; assumption.
  - intros Hle.
    destruct (lowok_cases alpha m) as [L|(L & _)]; [|auto].
    destruct (Hs1 L) as [-> _]; [left; ev_order | exact Hle].
  - intros Hle.
    destruct (highok_cases m beta) as [L|(L & _)]; [|auto].
    destruct (Hs1 ltac:(left; ev_order) L) as [-> _]. exact Hle.
Qed.

Lemma alphabeta_window_contract_witness :
  ev_lt (Fin 4) (Fin 10) /\ ev_le (Fin 3) (Fin 4) /\
  exists r q t',
    alphabeta pruning_game 2 false 0%nat tt 2 (Fin 4) (Fin 10)
    = Some (r, q, t') /\
    ev_le r (Fin 4).
Proof.
  split; [reflexivity|]. split; [reflexivity|].
  destruct (alphabeta_window_contract pruning_game 2 false 0%nat tt 2
              (Fin 4) (Fin 10) (Fin 3) [Some 1%nat; Some 3%nat]
              (Node [(1%nat, Node [(3%nat, Node []); (4%nat, Node [])]);
                     (2%nat, Node [(5%nat, Node []); (6%nat, Node [])])])
              eq_refl eq_refl)
    as (r & q & t' & H1 & _ & H2 & _).
  exists r, q, t'. split; [exact H1 | apply H2; reflexivity].
Defined.

(** ** The tree of alpha-beta inside the tree of minimax *)

Lemma tree_prefix_Node {K} (ea em : list (K * MoveTree K)) :
  tree_prefix (Node ea) (Node em) = entries_prefix tree_prefix ea em.
Proof.
  revert em. induction ea as [|[ka sa] ra IH]; intros em.
  - reflexivity.
  - destruct em as [|[km sm] rm]; [reflexivity|].
    simpl in IH |- *. rewrite IH. reflexivity.
Qed.

Section TreePrefix.
Variable G : Game.
Hypothesis keys_nodup :
  forall side board flags,
    NoDup (map (encode G) (generateMoves G side board flags)).

Lemma entries_prefix_recorded recM recA :
  (forall m a b vm pm tm va pa ta,
      recM m = Some (vm, pm, tm) -> recA m a b = Some (va, pa, ta) ->
      tree_prefix ta tm) ->
  forall explored sa sm rest,
    Forall2 (recorded_ab (G := G) recA) explored sa ->
    Forall2 (recorded_mm (G := G) recM) explored sm ->
    entries_prefix tree_prefix sa (sm ++ rest).
Proof.
  intros Hp explored.
  induction explored as [|m ms IH]; intros sa sm rest Ha Hm;
    inversion Ha; inversion Hm; subst; simpl.
  - exact I.
  - destruct y as [ka ta], y0 as [km tm].
    destruct H1 as (Eka & a & b & va & pa & Ea).
    destruct H6 as (Ekm & vm & pm & Em). simpl in *.
    split; [congruence|]. split; [eapply Hp; eauto|].
    apply IH; assumption.
Qed.

Lemma alphabeta_tree_prefix fuel :
  forall side board flags depth alpha beta vm pm tm va pa ta,
    minimax G fuel side board flags depth = Some (vm, pm, tm) ->
    alphabeta G fuel side board flags depth alpha beta = Some (va, pa, ta) ->
    tree_prefix ta tm.
Proof.
  induction fuel as [|n IH];
    intros side board flags depth alpha beta vm pm tm va pa ta Hm Ha.
  - simpl in Hm, Ha. destruct (depth =? 0); [|discriminate].
    inversion Hm; inversion Ha; subst. exact I.
  - destruct (Z.eq_dec depth 0) as [->|Hd].
    + simpl in Hm, Ha. inversion Hm; inversion Ha; subst. exact I.
    + destruct (search_tree_shape G n side board flags depth
                  alpha beta Hd) as [H1 H2].
      destruct (H1 _ _ _ Hm) as (sm & HFm & -> & _).
      destruct (H2 _ _ _ Ha) as (ex & sk & sa & Hg & HFa & -> & _).
      pose proof (keys_nodup side board flags) as Hnd.
      rewrite Hg in HFm, Hnd.
      apply Forall2_app_inv_l in HFm.
      destruct HFm as (s1 & s2 & HF1 & HF2 & ->).
      rewrite !record_all_nodup.
      * cbn [entries app]. rewrite tree_prefix_Node.
        eapply entries_prefix_recorded; eauto.
        intros m a b vm' pm' tm' va' pa' ta' Em Ea.
        unfold child_mm, child_ab in Em, Ea.
        destruct (makeMove G side board m flags) as [[s' b'] f'].
        eapply IH; eauto.
      * simpl. rewrite map_app, (recorded_mm_keys _ _ _ _ HF1),
          (recorded_mm_keys _ _ _ _ HF2), <- map_app. exact Hnd.
      * simpl. rewrite (recorded_ab_keys _ _ _ _ HFa).
        rewrite map_app in Hnd. apply NoDup_app_remove_r in Hnd. exact Hnd.
Qed.

End TreePrefix.

(** X6. When the keys of the moves generated at one position are distinct,
    the tree [alphabeta] returns (for any bounds) is the tree [minimax]
    returns with branches cut: at every node its entries are the first
    entries of the minimax tree, with the same keys in the same order and
    sub-trees related in the same way. *)
Theorem alphabeta_tree_is_pruned_minimax_tree (G : Game) (fuel : nat)
    (side : bool) (board : Board G) (flags : Flags G) (depth : Z)
    (alpha beta : EVal) vm pm tm va pa ta :
  (forall s b f, NoDup (map (encode G) (generateMoves G s b f))) ->
  minimax G fuel side board flags depth = Some (vm, pm, tm) ->
  alphabeta G fuel side board flags depth alpha beta = Some (va, pa, ta) ->
  tree_prefix ta tm.
Proof. intros Hnd. apply alphabeta_tree_prefix. exact Hnd. Qed.

Lemma alphabeta_tree_is_pruned_minimax_tree_witness :
  (forall s b f,
      NoDup (map (encode pruning_game) (generateMoves pruning_game s b f)))
  /\
  tree_prefix
    (Node [(1%nat, Node [(3%nat, Node []); (4%nat, Node [])]);
           (2%nat, Node [(5%nat, Node [])])])
    (Node [(1%nat, Node [(3%nat, Node []); (4%nat, Node [])]);
           (2%nat, Node [(5%nat, Node []); (6%nat, Node [])])]).
Proof.
  split; [exact pruning_game_keys_nodup|].
  apply (alphabeta_tree_is_pruned_minimax_tree pruning_game 2 false 0%nat tt
           2 NegInf PosInf (Fin 3) [Some 1%nat; Some 3%nat] _
           (Fin 3) [Some 1%nat; Some 3%nat] _ pruning_game_keys_nodup);
    reflexivity.
Defined.

(** ** The returned line inside the returned tree *)

Section LineInTree.
Variable G : Game.

Local Notation tget := (dict_get (Key_eq_dec G)).
Local Notation tset := (dict_set (Key_eq_dec G)).

Lemma dict_get_set_other k k' v (t : MoveTree (Key G)) :
  k <> k' -> tget k (tset k' v t) = tget k t.
Proof. intros H. apply get_set_other. exact H. Qed.

Local Notation kept := (best_kept G).

Lemma kept_update move rest rl rt t :
  NoDup (map (encode G) (move :: rest)) ->
  line_in_tree G rl rt ->
  kept (Some move) rl (tset (encode G move) rt t) rest.
Proof.
  intros Hnd Hl. simpl in Hnd. inversion Hnd; subst. split; [|assumption].
  exists rt. split; [apply dict_get_set_same | exact Hl].
Qed.

Lemma kept_keep b l t move rest rt :
  kept b l t (move :: rest) ->
  kept b l (tset (encode G move) rt t) rest.
Proof.
  destruct b as [m|]; [|auto]. intros [(sub & Hg & Hl) Hn]. simpl in Hn.
  split; [|tauto].
  exists sub. split; [|exact Hl].
  rewrite dict_get_set_other; [exact Hg | intros E; apply Hn; left; congruence].
Qed.

Lemma kept_line b l t moves :
  kept b l t moves -> line_in_tree G (b :: l) t.
Proof. destruct b; simpl; [tauto | auto]. Qed.

Lemma mm_max_loop_kept rec moves :
  (forall m rv rl rt, rec m = Some (rv, rl, rt) -> line_in_tree G rl rt) ->
  forall v b l t v' b' l' t',
    NoDup (map (encode G) moves) -> kept b l t moves ->
    mm_max_loop G rec moves v b l t = Some (v', b', l', t') ->
    kept b' l' t' [].
Proof.
  intros Hrec. induction moves as [|move rest IH];
    intros v b l t v' b' l' t' Hnd Hk H; simpl in H.
  - inversion H; subst. exact Hk.
  - destruct (rec move) as [[[rv rl] rt]|] eqn:E; [|discriminate].
    assert (Hnd' : NoDup (map (encode G) rest))
      by (simpl in Hnd; inversion Hnd; assumption).
    destruct (ev_gtb rv v); eapply IH; try exact H; try exact Hnd'.
    + apply kept_update; eauto.
    + apply kept_keep; exact Hk.
Qed.

Lemma mm_min_loop_kept rec moves :
  (forall m rv rl rt, rec m = Some (rv, rl, rt) -> line_in_tree G rl rt) ->
  forall v b l t v' b' l' t',
    NoDup (map (encode G) moves) -> kept b l t moves ->
    mm_min_loop G rec moves v b l t = Some (v', b', l', t') ->
    kept b' l' t' [].
Proof.
  intros Hrec. induction moves as [|move rest IH];
    intros v b l t v' b' l' t' Hnd Hk H; simpl in H.
  - inversion H; subst. exact Hk.
  - destruct (rec move) as [[[rv rl] rt]|] eqn:E; [|discriminate].
    assert (Hnd' : NoDup (map (encode G) rest))
      by (simpl in Hnd; inversion Hnd; assumption).
    destruct (ev_ltb rv v); eapply IH; try exact H; try exact Hnd'.
    + apply kept_update; eauto.
    + apply kept_keep; exact Hk.
Qed.

Lemma kept_nil b l t moves : kept b l t moves -> kept b l t [].
Proof. destruct b; simpl; tauto. Qed.

Lemma ab_max_loop_kept rec moves :
  (forall m a c rv rl rt, rec m a c = Some (rv, rl, rt) ->
                          line_in_tree G rl rt) ->
  forall v b l t alpha beta v' b' l' t',
    NoDup (map (encode G) moves) -> kept b l t moves ->
    ab_max_loop G rec moves v b l t alpha beta = Some (v', b', l', t') ->
    kept b' l' t' [].
Proof.
  intros Hrec. induction moves as [|move rest IH];
    intros v b l t alpha beta v' b' l' t' Hnd Hk H; simpl in H.
  - inversion H; subst. exact Hk.
  - destruct (rec move alpha beta) as [[[rv rl] rt]|] eqn:E; [|discriminate].
    assert (Hnd' : NoDup (map (encode G) rest))
      by (simpl in Hnd; inversion Hnd; assumption).
    assert (Hu : kept (Some move) rl (tset (encode G move) rt t) rest)
      by (apply kept_update; eauto).
    assert (Hkk : kept b l (tset (encode G move) rt t) rest)
      by (apply kept_keep; exact Hk).
    destruct (ev_gtb rv v); cbn in H;
      match type of H with
      | context [ev_geb ?x beta] => destruct (ev_geb x beta)
      end;
      try (inversion H; subst; eapply kept_nil; eassumption);
      eapply IH; try exact H; assumption.
Qed.

Lemma ab_min_loop_kept rec moves :
  (forall m a c rv rl rt, rec m a c = Some (rv, rl, rt) ->
                          line_in_tree G rl rt) ->
  forall v b l t alpha beta v' b' l' t',
    NoDup (map (encode G) moves) -> kept b l t moves ->
    ab_min_loop G rec moves v b l t alpha beta = Some (v', b', l', t') ->
    kept b' l' t' [].
Proof.
  intros Hrec. induction moves as [|move rest IH];
    intros v b l t alpha beta v' b' l' t' Hnd Hk H; simpl in H.
  - inversion H; subst. exact Hk.
  - destruct (rec move alpha beta) as [[[rv rl] rt]|] eqn:E; [|discriminate].
    assert (Hnd' : NoDup (map (encode G) rest))
      by (simpl in Hnd; inversion Hnd; assumption).
    assert (Hu : kept (Some move) rl (tset (encode G move) rt t) rest)
      by (apply kept_update; eauto).
    assert (Hkk : kept b l (tset (encode G move) rt t) rest)
      by (apply kept_keep; exact Hk).
    destruct (ev_ltb rv v); cbn in H;
      match type of H with
      | context [ev_leb ?x alpha] => destruct (ev_leb x alpha)
      end;
      try (inversion H; subst; eapply kept_nil; eassumption);
      eapply IH; try exact H; assumption.
Qed.

Hypothesis keys_nodup :
  forall side board flags,
    NoDup (map (encode G) (generateMoves G side board flags)).

Lemma minimax_line_in_tree fuel :
  forall side board flags depth v p t,
    minimax G fuel side board flags depth = Some (v, p, t) ->
    line_in_tree G p t.
Proof.
  induction fuel as [|n IH]; intros side board flags depth v p t H.
  - simpl in H. destruct (depth =? 0); [|discriminate].
    inversion H; subst. exact I.
  - rewrite minimax_S in H.
    destruct (depth =? 0); [inversion H; subst; exact I|].
    assert (Hrec : forall m rv rl rt,
      child_mm G n side board flags depth m = Some (rv, rl, rt) ->
      line_in_tree G rl rt).
    { intros m rv rl rt E. unfold child_mm in E.
      destruct (makeMove G side board m flags) as [[s' b'] f'].
      eapply IH; eauto. }
    destruct side; cbn [negb] in H;
      match type of H with
      | finish _ ?x = _ => destruct x as [[[[v' b'] l'] t']|] eqn:El
      end; simpl in H; inversion H; subst;
      eapply kept_line;
      [eapply mm_min_loop_kept | eapply mm_max_loop_kept];
      try exact El; try exact Hrec; try apply keys_nodup; exact I.
Qed.

Lemma alphabeta_line_in_tree fuel :
  forall side board flags depth alpha beta v p t,
    alphabeta G fuel side board flags depth alpha beta = Some (v, p, t) ->
    line_in_tree G p t.
Proof.
  induction fuel as [|n IH];
    intros side board flags depth alpha beta v p t H.
  - simpl in H. destruct (depth =? 0); [|discriminate].
    inversion H; subst. exact I.
  - rewrite alphabeta_S in H.
    destruct (depth =? 0); [inversion H; subst; exact I|].
    assert (Hrec : forall m a c rv rl rt,
      child_ab G n side board flags depth m a c = Some (rv, rl, rt) ->
      line_in_tree G rl rt).
    { intros m a c rv rl rt E. unfold child_ab in E.
      destruct (makeMove G side board m flags) as [[s' b'] f'].
      eapply IH; eauto. }
    destruct side; cbn [negb] in H;
      match type of H with
      | finish _ ?x = _ => destruct x as [[[[v' b'] l'] t']|] eqn:El
      end; simpl in H; inversion H; subst;
      eapply kept_line;
      [eapply ab_min_loop_kept | eapply ab_max_loop_kept];
      try exact El; try exact Hrec; try apply keys_nodup; exact I.
Qed.

End LineInTree.

(** X7. When the keys of the moves generated at one position are distinct,
    the line [minimax] or [alphabeta] (with any bounds) returns can be read
    in the tree it returns: the key of the first move is in the tree, the
    key of the second in the tree found under the first, and so on down the
    line. *)
Theorem search_line_in_tree (G : Game) (fuel : nat) (side : bool)
    (board : Board G) (flags : Flags G) (depth : Z) (alpha beta : EVal)
    v p t :
  (forall s b f, NoDup (map (encode G) (generateMoves G s b f))) ->
  minimax G fuel side board flags depth = Some (v, p, t) \/
  alphabeta G fuel side board flags depth alpha beta = Some (v, p, t) ->
  line_in_tree G p t.
Proof.
  intros Hnd [H|H];
    [eapply minimax_line_in_tree | eapply alphabeta_line_in_tree]; eauto.
Qed.

Lemma search_line_in_tree_witness :
  (forall s b f,
      NoDup (map (encode pruning_game) (generateMoves pruning_game s b f)))
  /\
  line_in_tree pruning_game [Some 1%nat; Some 3%nat]
    (Node [(1%nat, Node [(3%nat, Node []); (4%nat, Node [])]);
           (2%nat, Node [(5%nat, Node [])])]).
Proof.
  split; [exact pruning_game_keys_nodup|].
  apply (search_line_in_tree pruning_game 2 false 0%nat tt 2 NegInf PosInf
           (Fin 3) _ _ pruning_game_keys_nodup).
  right. reflexivity.
Defined.

(** ** The two branches mirror each other *)

Lemma ev_ltb_neg a b : ev_ltb (ev_neg a) (ev_neg b) = ev_ltb b a.
Proof.
  destruct a, b; simpl; try reflexivity.
  destruct (Z.ltb_spec (- z) (- z0)), (Z.ltb_spec z0 z); try reflexivity; lia.
Qed.

Lemma ev_neg_involutive a : ev_neg (ev_neg a) = a.
Proof. destruct a; simpl; try reflexivity. rewrite Z.opp_involutive. reflexivity. Qed.

Section Mirror.
Variable G : Game.

Lemma mm_max_loop_mirror rec' rec moves :
  (forall m, rec' m = neg_result (rec m)) ->
  forall v b l t,
    mm_max_loop (mirror G) rec' moves (ev_neg v) b l t
    = neg_loop (mm_min_loop G rec moves v b l t).
Proof.
  intros Hrec. induction moves as [|move rest IH]; intros v b l t; simpl.
  - reflexivity.
  - rewrite Hrec. destruct (rec move) as [[[rv rl] rt]|]; [|reflexivity].
    simpl. unfold ev_gtb. rewrite ev_ltb_neg.
    destruct (ev_ltb rv v); apply IH.
Qed.

Lemma mm_min_loop_mirror rec' rec moves :
  (forall m, rec' m = neg_result (rec m)) ->
  forall v b l t,
    mm_min_loop (mirror G) rec' moves (ev_neg v) b l t
    = neg_loop (mm_max_loop G rec moves v b l t).
Proof.
  intros Hrec. induction moves as [|move rest IH]; intros v b l t; simpl.
  - reflexivity.
  - rewrite Hrec. destruct (rec move) as [[[rv rl] rt]|]; [|reflexivity].
    simpl. unfold ev_gtb. rewrite ev_ltb_neg.
    destruct (ev_ltb v rv); apply IH.
Qed.

Lemma ab_max_loop_mirror rec' rec moves :
  (forall m a c, rec' m (ev_neg c) (ev_neg a) = neg_result (rec m a c)) ->
  forall v b l t alpha beta,
    ab_max_loop (mirror G) rec' moves (ev_neg v) b l t
      (ev_neg beta) (ev_neg alpha)
    = neg_loop (ab_min_loop G rec moves v b l t alpha beta).
Proof.
  intros Hrec. induction moves as [|move rest IH];
    intros v b l t alpha beta; simpl.
  - reflexivity.
  - rewrite Hrec.
    destruct (rec move alpha beta) as [[[rv rl] rt]|]; [|reflexivity].
    simpl. unfold ev_gtb, ev_geb, ev_leb. rewrite ev_ltb_neg.
    destruct (ev_ltb rv v); cbn; rewrite !ev_ltb_neg;
      match goal with
      | |- context [ev_ltb alpha ?x] => destruct (ev_ltb alpha x)
      end; cbn; try reflexivity;
      match goal with
      | |- context [ev_ltb ?x beta] => destruct (ev_ltb x beta)
      end; apply IH.
Qed.

Lemma ab_min_loop_mirror rec' rec moves :
  (forall m a c, rec' m (ev_neg c) (ev_neg a) = neg_result (rec m a c)) ->
  forall v b l t alpha beta,
    ab_min_loop (mirror G) rec' moves (ev_neg v) b l t
      (ev_neg beta) (ev_neg alpha)
    = neg_loop (ab_max_loop G rec moves v b l t alpha beta).
Proof.
  intros Hrec. induction moves as [|move rest IH];
    intros v b l t alpha beta; simpl.
  - reflexivity.
  - rewrite Hrec.
    destruct (rec move alpha beta) as [[[rv rl] rt]|]; [|reflexivity].
    simpl. unfold ev_gtb, ev_geb, ev_leb. rewrite ev_ltb_neg.
    destruct (ev_ltb v rv); cbn; rewrite !ev_ltb_neg;
      match goal with
      | |- context [ev_ltb ?x beta] => destruct (ev_ltb x beta)
      end; cbn; try reflexivity;
      match goal with
      | |- context [ev_ltb alpha ?x] => destruct (ev_ltb alpha x)
      end; apply IH.
Qed.

Lemma finish_neg_loop (st : option (LoopSt G)) :
  finish (mirror G) (neg_loop st) = neg_result (finish G st).
Proof. destruct st as [[[[v b] l] t]|]; reflexivity. Qed.

Lemma minimax_mirror fuel :
  forall side board flags depth,
    minimax (mirror G) fuel side board flags depth
    = neg_result (minimax G fuel (negb side) board flags depth).
Proof.
  induction fuel as [|n IH]; intros side board flags depth.
  - simpl. destruct (depth =? 0); reflexivity.
  - rewrite !minimax_S. destruct (depth =? 0); [reflexivity|].
    assert (Hrec : forall m,
      child_mm (mirror G) n side board flags depth m
      = neg_result (child_mm G n (negb side) board flags depth m)).
    { intros m. unfold child_mm. simpl makeMove.
      destruct (makeMove G (negb side) board m flags) as [[s' b'] f'].
      rewrite IH, negb_involutive. reflexivity. }
    destruct side; cbn [negb]; rewrite <- finish_neg_loop; f_equal.
    + apply (mm_min_loop_mirror _ _ _ Hrec NegInf).
    + apply (mm_max_loop_mirror _ _ _ Hrec PosInf).
Qed.

Lemma alphabeta_mirror fuel :
  forall side board flags depth alpha beta,
    alphabeta (mirror G) fuel side board flags depth
      (ev_neg beta) (ev_neg alpha)
    = neg_result (alphabeta G fuel (negb side) board flags depth alpha beta).
Proof.
  induction fuel as [|n IH]; intros side board flags depth alpha beta.
  - simpl. destruct (depth =? 0); reflexivity.
  - rewrite !alphabeta_S. destruct (depth =? 0); [reflexivity|].
    assert (Hrec : forall m a c,
      child_ab (mirror G) n side board flags depth m (ev_neg c) (ev_neg a)
      = neg_result (child_ab G n (negb side) board flags depth m a c)).
    { intros m a c. unfold child_ab. simpl makeMove.
      destruct (makeMove G (negb side) board m flags) as [[s' b'] f'].
      rewrite IH, negb_involutive. reflexivity. }
    destruct side; cbn [negb]; rewrite <- finish_neg_loop; f_equal.
    + apply (ab_min_loop_mirror _ _ _ Hrec NegInf).
    + apply (ab_max_loop_mirror _ _ _ Hrec PosInf).
Qed.

End Mirror.

(** X8. The two branches of [minimax] mirror each other: searching the
    mirrored game (sides exchanged, evaluations negated) for one side gives
    the negated value, the same line and the same tree as searching the game
    itself for the other side; ties are broken the same way in both. *)
Theorem minimax_mirror_symmetry (G : Game) (fuel : nat) (side : bool)
    (board : Board G) (flags : Flags G) (depth : Z) :
  minimax (mirror G) fuel side board flags depth
  = neg_result (minimax G fuel (negb side) board flags depth).
Proof. apply minimax_mirror. Qed.

(** X9. The two branches of [alphabeta] mirror each other as well: in the
    mirrored game, with the bounds negated and exchanged, it returns the
    negated value, the same line and the same tree, so it cuts off at the
    same moves. *)
Theorem alphabeta_mirror_symmetry (G : Game) (fuel : nat) (side : bool)
    (board : Board G) (flags : Flags G) (depth : Z) (alpha beta : EVal) :
  alphabeta (mirror G) fuel side board flags depth (ev_neg beta) (ev_neg alpha)
  = neg_result (alphabeta G fuel (negb side) board flags depth alpha beta).
Proof. apply alphabeta_mirror. Qed.

(** ** More on stochastic search *)

(** X10. [backtrackPath] turns a non-empty path, which lists the moves
    latest first, into the chain of nested single-child nodes that starts
    with the last element of the path, whatever the dict it is given
    already holds and whether or not keys repeat along the path; it never
    raises a key error.  On the empty path it raises an index error. *)
Theorem backtrackPath_builds_chain (G : Game) (mTree : MoveTree (Key G))
    (path : list (Move G)) :
  (path = [] -> backtrackPath G mTree path = Raise IndexError) /\
  (path <> [] -> backtrackPath G mTree path = Ok (unwind G (rev path))).
Proof.
  split.
  - intros ->. reflexivity.
  - apply backtrackPath_unwind.
Qed.

(** The example of the source comment: the path 8, 7, ..., 1 gives
    {1: {2: {3: {4: {5: {6: {7: {8: {}}}}}}}}}. *)
Lemma backtrackPath_builds_chain_witness :
  [8; 7; 6; 5; 4; 3; 2; 1]%nat <> [] /\
  backtrackPath rollout_game (Node []) [8; 7; 6; 5; 4; 3; 2; 1]%nat
  = Ok (Node [(1, Node [(2, Node [(3, Node [(4, Node [(5, Node [(6,
        Node [(7, Node [(8, Node [])])])])])])])])])%nat.
Proof.
  split; [discriminate|].
  destruct (backtrackPath_builds_chain rollout_game (Node [])
              [8; 7; 6; 5; 4; 3; 2; 1]%nat) as [_ H].
  apply H. discriminate.
Defined.

Lemma list_eq_dec_nil {A} (l : list A) : {l = []} + {l <> []}.
Proof. destruct l; [left; reflexivity | right; discriminate]. Qed.

(** *** The quotient of integers that a float holds exactly *)

Lemma round_half_even_le num den K :
  0 < den -> num <= den * K -> round_half_even num den <= K.
Proof.
  intros Hd H. unfold round_half_even.
  pose proof (Z.div_mod num den ltac:(lia)) as E.
  pose proof (Z.mod_pos_bound num den Hd) as Hr.
  set (q := num / den) in *. set (r := num mod den) in *.
  assert (Hq : q <= K) by nia.
  destruct (Z.eq_dec q K) as [->|Hne].
  - assert (r = 0) by nia.
    replace (2 * r ?= den) with Lt by (symmetry; apply Z.compare_lt_iff; lia).
    lia.
  - destruct (2 * r ?= den); [destruct (Z.even q)| |]; lia.
Qed.

Lemma round_half_even_ge num den K :
  0 < den -> den * K <= num -> K <= round_half_even num den.
Proof.
  intros Hd H. unfold round_half_even.
  pose proof (Z.div_mod num den ltac:(lia)) as E.
  pose proof (Z.mod_pos_bound num den Hd) as Hr.
  set (q := num / den) in *. set (r := num mod den) in *.
  assert (Hq : K <= q) by nia.
  destruct (2 * r ?= den); [destruct (Z.even q)| |]; lia.
Qed.

(** The exponent [float_quotient] takes for the leading bit is not above
    the quotient. *)
Lemma lead_ge_pow2 x n :
  0 < x -> 0 < n ->
  let e0 := Z.log2 x - Z.log2 n in
  ge_pow2 x n (if ge_pow2 x n e0 then e0 else e0 - 1) = true.
Proof.
  intros Hx Hn e0.
  destruct (ge_pow2 x n e0) eqn:E; [exact E|].
  destruct (Z.log2_spec x Hx) as [Hx1 Hx2].
  destruct (Z.log2_spec n Hn) as [Hn1 Hn2].
  pose proof (Z.log2_nonneg x) as Lx. pose proof (Z.log2_nonneg n) as Ln.
  unfold ge_pow2. destruct (0 <=? e0 - 1) eqn:E1.
  - apply Z.leb_le in E1. apply Z.leb_le.
    assert (Hp : 2 ^ Z.log2 x = 2 ^ (e0 - 1) * 2 ^ Z.succ (Z.log2 n)).
    { rewrite <- Z.pow_add_r by lia. f_equal. unfold e0. lia. }
    assert (0 < 2 ^ (e0 - 1)) by (apply Z.pow_pos_nonneg; lia).
    nia.
  - apply Z.leb_gt in E1. apply Z.leb_le.
    assert (Hp : 2 ^ Z.succ (Z.log2 n) = 2 ^ Z.log2 x * 2 ^ (- (e0 - 1))).
    { rewrite <- Z.pow_add_r by lia. f_equal. unfold e0. lia. }
    assert (0 < 2 ^ (- (e0 - 1))) by (apply Z.pow_pos_nonneg; lia).
    nia.
Qed.

(** The quotient of [x > 0] by [n > 0], between the integers [L] and [U]
    that are at most 2^53: the rounded significand [m] at exponent [e]
    stays between them, and is in range. *)
Lemma float_core_bounds x n L U :
  0 < x -> 0 < n -> n * L <= x <= n * U -> U <= 2 ^ 53 ->
  let e0 := Z.log2 x - Z.log2 n in
  let lead := if ge_pow2 x n e0 then e0 else e0 - 1 in
  let e := Z.max (lead - 52) (-1074) in
  let m := if 0 <=? e then round_half_even x (n * 2 ^ e)
           else round_half_even (x * 2 ^ (- e)) n in
  if 0 <=? e then L <= m * 2 ^ e <= U
  else L * 2 ^ (- e) <= m <= U * 2 ^ (- e).
Proof.
  intros Hx Hn [HL HU] HU53 e0 lead e m.
  pose proof (lead_ge_pow2 x n Hx Hn) as Hlead. cbv zeta in Hlead.
  fold e0 in Hlead. fold lead in Hlead.
  assert (Hl53 : lead <= 53).
  { destruct (Z_le_gt_dec lead 53) as [|Hgt]; [assumption|exfalso].
    unfold ge_pow2 in Hlead.
    replace (0 <=? lead) with true in Hlead by (symmetry; apply Z.leb_le; lia).
    apply Z.leb_le in Hlead.
    assert (2 ^ 54 <= 2 ^ lead) by (apply Z.pow_le_mono_r; lia).
    assert (2 ^ 53 < 2 ^ 54) by (apply Z.pow_lt_mono_r; lia).
    nia. }
  unfold m. destruct (0 <=? e) eqn:Ee.
  - apply Z.leb_le in Ee.
    assert (Ele : e = lead - 52) by (unfold e in *; lia).
    unfold ge_pow2 in Hlead.
    replace (0 <=? lead) with true in Hlead by (symmetry; apply Z.leb_le; lia).
    apply Z.leb_le in Hlead.
    assert (Hp : 2 ^ lead = 2 ^ e * 2 ^ 52).
    { rewrite <- Z.pow_add_r by lia. f_equal. lia. }
    assert (He01 : e = 0 \/ e = 1) by lia.
    destruct He01 as [He0|He1].
    + rewrite He0. change (2 ^ 0) with 1. rewrite !Z.mul_1_r.
      split; [apply round_half_even_ge | apply round_half_even_le]; lia.
    + rewrite He1 in *. change (2 ^ 1) with 2 in *.
      assert (Ex : x = n * 2 ^ 53).
      { change (2 ^ 53) with (2 * 2 ^ 52). nia. }
      assert (EU : U = 2 ^ 53) by nia.
      assert (Em : round_half_even x (n * 2) = 2 ^ 52).
      { apply Z.le_antisymm;
          [apply round_half_even_le | apply round_half_even_ge];
          try lia; rewrite Ex; change (2 ^ 53) with (2 * 2 ^ 52); lia. }
      assert (L <= 2 ^ 53) by nia.
      rewrite Em, EU. change (2 ^ 52 * 2) with (2 ^ 53). lia.
  - apply Z.leb_gt in Ee.
    assert (0 < 2 ^ (- e)) by (apply Z.pow_pos_nonneg; lia).
    split; [apply round_half_even_ge | apply round_half_even_le];
      try lia; nia.
Qed.

Lemma sum_bounds lo hi vals : forall a,
  Forall (fun z => lo <= z <= hi) vals ->
  a + Z.of_nat (length vals) * lo <= fold_left Z.add vals a
  <= a + Z.of_nat (length vals) * hi.
Proof.
  induction vals as [|z r IH]; intros a H; simpl fold_left.
  - simpl. lia.
  - inversion H; subst. specialize (IH (a + z) H3).
    change (length (z :: r)) with (S (length r)). lia.
Qed.

Lemma py_truediv_bounds a n lo hi :
  0 < n -> n * lo <= a <= n * hi -> - 2 ^ 53 <= lo -> hi <= 2 ^ 53 ->
  exists q, py_truediv a n = Ok q /\ (inject_Z lo <= q <= inject_Z hi)%Q.
Proof.
  intros Hn [Hlo Hhi] Hl Hh. unfold py_truediv.
  replace (n =? 0) with false by (symmetry; apply Z.eqb_neq; lia).
  unfold float_quotient.
  destruct (Z.eqb_spec a 0) as [->|Ha].
  { exists (0 # 1). split; [reflexivity|].
    unfold Qle, inject_Z. cbn [Qnum Qden]. nia. }
  rewrite (Z.abs_eq n) by lia. rewrite (Z.sgn_pos n) by lia.
  rewrite Z.mul_1_r.
  assert (HB : exists L U, n * L <= Z.abs a <= n * U /\ U <= 2 ^ 53 /\
             lo <= Z.sgn a * L /\ lo <= Z.sgn a * U /\
             Z.sgn a * L <= hi /\ Z.sgn a * U <= hi /\
             (Z.sgn a = 1 \/ Z.sgn a = -1)).
  { destruct (Z_lt_le_dec 0 a) as [Hp|Hp].
    - exists lo, hi. rewrite (Z.abs_eq a), (Z.sgn_pos a) by lia.
      assert (lo <= hi) by nia. lia.
    - exists (- hi), (- lo). rewrite (Z.abs_neq a), (Z.sgn_neg a) by lia.
      assert (lo <= hi) by nia. lia. }
  destruct HB as (L & U & HLU & HU & B1 & B2 & B3 & B4 & Hs).
  pose proof (float_core_bounds (Z.abs a) n L U ltac:(lia) Hn HLU HU) as HC.
  cbv zeta in HC.
  remember (Z.max ((if ge_pow2 (Z.abs a) n (Z.log2 (Z.abs a) - Z.log2 n)
                    then Z.log2 (Z.abs a) - Z.log2 n
                    else Z.log2 (Z.abs a) - Z.log2 n - 1) - 52) (-1074))
    as e eqn:Ee.
  remember (if 0 <=? e then round_half_even (Z.abs a) (n * 2 ^ e)
            else round_half_even (Z.abs a * 2 ^ (- e)) n) as m eqn:Em.
  clear Ee Em.
  destruct (0 <=? e) eqn:E0.
  - apply Z.leb_le in E0.
    replace (2 ^ 1024 <=? m * 2 ^ e) with false.
    2:{ symmetry. apply Z.leb_gt.
        assert (2 ^ 53 < 2 ^ 1024) by (apply Z.pow_lt_mono_r; lia). lia. }
    cbn [andb]. eexists. split; [reflexivity|].
    rewrite Qred_correct. unfold Qle, inject_Z. cbn [Qnum Qden].
    rewrite !Z.mul_1_r.
    destruct Hs as [Hs|Hs]; rewrite Hs in *; nia.
  - apply Z.leb_gt in E0. cbn [andb]. eexists. split; [reflexivity|].
    rewrite Qred_correct. unfold Qle, inject_Z. cbn [Qnum Qden].
    assert (Hp : 0 < 2 ^ (- e)) by (apply Z.pow_pos_nonneg; lia).
    rewrite Z2Pos.id by exact Hp. rewrite !Z.mul_1_r.
    destruct Hs as [Hs|Hs]; rewrite Hs in *; nia.
Qed.

Lemma avg_bounds lo hi vals :
  vals <> [] -> Forall (fun z => lo <= z <= hi) vals ->
  - 2 ^ 53 <= lo -> hi <= 2 ^ 53 ->
  exists q, avg vals = Ok q /\ (inject_Z lo <= q <= inject_Z hi)%Q.
Proof.
  intros Hne H Hl Hh. unfold avg. apply py_truediv_bounds; try assumption.
  - destruct vals; [congruence | simpl length; lia].
  - pose proof (sum_bounds lo hi vals 0 H). lia.
Qed.

Section StochasticOutcome.
Variable G : Game.
Variable R : Type.
Variable chooser : R -> list (Move G) -> option (Move G * R).

Lemma min_loop_index avgs :
  avgs <> [] ->
  forall mn idx, min_loop 0 avgs QInf 0 = (mn, idx) ->
  (idx < length avgs)%nat.
Proof.
  intros Hne mn idx H. apply min_loop_selects in H.
  destruct H as [(_ & _ & Hall)|(pre & q & post & -> & _ & -> & _)].
  - destruct avgs as [|a r]; [congruence|].
    specialize (Hall a (or_introl eq_refl)). discriminate.
  - rewrite length_app. simpl. lia.
Qed.

Lemma sample_avgs_length {M} (smp : list (M * list (list M * Z))) qs :
  sample_avgs smp = Ok qs -> length qs = length smp.
Proof.
  intros H. apply sample_avgs_Forall2 in H. symmetry.
  eapply Forall2_length; eauto.
Qed.

(** The estimates are floats, unless one is out of range. *)
Lemma sample_avgs_cases {M} (smp : list (M * list (list M * Z))) :
  Forall (fun s => snd s <> []) smp ->
  (exists qs, sample_avgs smp = Ok qs) \/
  sample_avgs smp = Raise OverflowError.
Proof.
  induction 1 as [|s smp Hs _ IH]; cbn [sample_avgs]; [eauto|].
  unfold sample_avg.
  assert (Hm : map snd (snd s) <> [])
    by (destruct (snd s); [congruence | discriminate]).
  destruct (avg_nonempty _ Hm) as [[q ->]| ->]; [|right; reflexivity].
  cbn [bind]. destruct IH as [[qs ->]| ->]; [|right; reflexivity].
  left. eexists. reflexivity.
Qed.

Lemma samples_nonempty side board flags j k moves rs smp :
  samples G R chooser side board flags (S j) k moves rs = Some smp ->
  Forall (fun s => snd s <> []) smp.
Proof.
  intros H. destruct (samples_shape _ _ _ _ _ _ _ _ _ _ _ H) as [_ Hsh].
  eapply Forall_impl; [|exact Hsh]. intros s [Hl _].
  destruct (snd s); [discriminate | discriminate].
Qed.

Lemma stochastic_some_samples side board flags depth breadth rs smp qs :
  2 <= depth -> 1 <= breadth ->
  generateMoves G side board flags <> [] ->
  samples G R chooser side board flags (Z.to_nat breadth)
    (Z.to_nat (depth - 1)) (generateMoves G side board flags) rs = Some smp ->
  sample_avgs smp = Ok qs ->
  exists r, stochastic G R chooser side board flags depth breadth rs = Ok r.
Proof.
  intros Hd Hb Hm Es Eq.
  rewrite (stochastic_by_samples _ _ _ _ _ _ _ _ _ _ Hd Hb Es), Eq.
  cbn [bind].
  destruct (min_loop 0 qs QInf 0) as [mn idx] eqn:El.
  destruct (samples_shape _ _ _ _ _ _ _ _ _ _ _ Es) as [Hk _].
  pose proof (sample_avgs_length _ _ Eq) as Hlen.
  assert (Hne : qs <> []).
  { destruct smp; [simpl in Hk; congruence|].
    destruct qs; [discriminate | discriminate]. }
  pose proof (min_loop_index _ Hne _ _ El) as Hi.
  destruct (nth_error (map sample_path smp) idx) eqn:En; [eauto|].
  apply nth_error_None in En. rewrite length_map in En. lia.
Qed.

Lemma rollouts_values j k : forall pos rs ros rs',
  rollouts G R chooser j k pos rs = Some (ros, rs') ->
  Forall (fun ro => exists b, snd ro = evaluate G b) ros.
Proof.
  induction j as [|j IH]; intros pos rs ros rs' H; simpl in H.
  - inversion H; subst. constructor.
  - destruct (play G R chooser k pos rs) as [[[mvs [[s' b'] f']] rs1]|];
      [|discriminate].
    destruct (rollouts G R chooser j k pos rs1) as [[ros1 rs2]|] eqn:E2;
      [|discriminate].
    inversion H; subst. constructor; [simpl; eauto | eapply IH; eauto].
Qed.

Lemma samples_values side board flags j k moves : forall rs smp,
  samples G R chooser side board flags j k moves rs = Some smp ->
  Forall (fun s => Forall (fun ro => exists b, snd ro = evaluate G b) (snd s))
    smp.
Proof.
  induction moves as [|m rest IH]; intros rs smp H; simpl in H.
  - inversion H; subst. constructor.
  - destruct (rollouts G R chooser j k (makeMove G side board m flags) rs)
      as [[ros rs1]|] eqn:E; [|discriminate].
    destruct (samples G R chooser side board flags j k rest rs1)
      as [l|] eqn:E2; [|discriminate].
    inversion H; subst.
    constructor; [simpl; eapply rollouts_values; eauto | eapply IH; eauto].
Qed.


(** What a rollout adds to the samples is the evaluation of a board. *)
Lemma sample_avgs_bounded (smp : list (Move G * list (list (Move G) * Z))) :
  (forall b, - 2 ^ 53 <= evaluate G b <= 2 ^ 53) ->
  Forall (fun s => snd s <> []) smp ->
  Forall (fun s => Forall (fun ro => exists b, snd ro = evaluate G b) (snd s))
    smp ->
  exists qs, sample_avgs smp = Ok qs.
Proof.
  intros Hr Hne Hv. induction smp as [|s smp IH]; cbn [sample_avgs]; [eauto|].
  inversion Hne; subst. inversion Hv; subst.
  unfold sample_avg at 1.
  destruct (avg_bounds (- 2 ^ 53) (2 ^ 53) (map snd (snd s)))
    as (q & -> & _); try lia.
  - destruct (snd s); [congruence | discriminate].
  - rewrite Forall_forall in H3 |- *. intros z Hz.
    apply in_map_iff in Hz. destruct Hz as (ro & <- & Hro).
    destruct (H3 ro Hro) as [b ->]. apply Hr.
  - cbn [bind]. destruct (IH H2 H4) as [qs ->]. eexists. reflexivity.
Qed.

(** With evaluations that a float holds exactly, no quotient is out of
    range. *)
Lemma moves_loop_bounded side board flags depth breadth moves :
  (forall b, - 2 ^ 53 <= evaluate G b <= 2 ^ 53) ->
  2 <= depth -> 1 <= breadth ->
  forall moveList avgs mt path rs,
    moves_loop G R chooser side board flags depth breadth moves
      moveList avgs mt path rs <> Raise OverflowError.
Proof.
  intros Hr Hd Hb.
  induction moves as [|i_move rest IH]; intros moveList avgs mt path rs.
  - discriminate.
  - cbn [moves_loop].
    rewrite (breadth_loop_rollouts G R chooser _ depth i_move _ _ _ _ _
               (Node [])) by (auto; apply dict_get_set_same).
    destruct (rollouts G R chooser (Z.to_nat breadth) (Z.to_nat (depth - 1))
                (makeMove G side board i_move flags) rs)
      as [[ros rs1]|] eqn:E; [|discriminate].
    unfold bind at 1.
    destruct (rollouts_length _ _ _ _ _ _ _ _ _ E) as [Hlen _].
    assert (Hne : ros <> [])
      by (destruct ros; [simpl in Hlen; lia | discriminate]).
    rewrite (final_path_last ros path Hne). cbn [app].
    destruct (avg_bounds (- 2 ^ 53) (2 ^ 53) (map snd ros))
      as (q & -> & _); try lia.
    + destruct ros; [congruence | discriminate].
    + pose proof (rollouts_values _ _ _ _ _ _ E) as Hv.
      rewrite Forall_forall in Hv |- *. intros z Hz.
      apply in_map_iff in Hz. destruct Hz as (ro & <- & Hro).
      destruct (Hv ro Hro) as [b ->]. apply Hr.
    + cbn [bind]. apply IH.
Qed.

End StochasticOutcome.

(** X11. The outcomes of [stochastic], case by case: without a legal move
    an index error; else with a breadth of 0 or less an unbound-variable
    error; else with a depth of 0 or less a division by zero; else with
    depth 1 an index error; else, when the chooser raises during a rollout,
    the chooser's error, or an overflow error from the quotient of an
    earlier first move; else, when a quotient is too large for a float, an
    overflow error; else a result.  So it never raises a key error, and it
    returns a result exactly when there is a legal move, the breadth is at
    least 1, the depth at least 2, the chooser answers in every rollout and
    every quotient is a float.  When every evaluation is at most 2^53 in
    absolute value there is no overflow error, and the last condition
    falls away. *)
Theorem stochastic_outcomes (G : Game) (R : Type)
    (chooser : R -> list (Move G) -> option (Move G * R))
    (side : bool) (board : Board G) (flags : Flags G) (depth breadth : Z)
    (rs : R) :
  let run := stochastic G R chooser side board flags depth breadth rs in
  let smp := samples G R chooser side board flags (Z.to_nat breadth)
               (Z.to_nat (depth - 1)) (generateMoves G side board flags) rs in
  (generateMoves G side board flags = [] -> run = Raise IndexError) /\
  (generateMoves G side board flags <> [] ->
   (breadth <= 0 -> run = Raise UnboundLocalError) /\
   (1 <= breadth -> depth <= 0 -> run = Raise ZeroDivisionError) /\
   (1 <= breadth -> depth = 1 -> run = Raise IndexError) /\
   (1 <= breadth -> 2 <= depth -> smp = None ->
    run = Raise ChooserError \/ run = Raise OverflowError) /\
   (1 <= breadth -> 2 <= depth -> forall s, smp = Some s ->
    (sample_avgs s = Raise OverflowError /\ run = Raise OverflowError) \/
    ((exists qs, sample_avgs s = Ok qs) /\ exists r, run = Ok r))) /\
  run <> Raise KeyError /\ run <> Raise OutOfFuel /\
  ((exists r, run = Ok r) <->
   generateMoves G side board flags <> [] /\ 1 <= breadth /\ 2 <= depth /\
   exists s qs, smp = Some s /\ sample_avgs s = Ok qs) /\
  ((forall b, - 2 ^ 53 <= evaluate G b <= 2 ^ 53) ->
   run <> Raise OverflowError /\
   ((exists r, run = Ok r) <->
    generateMoves G side board flags <> [] /\ 1 <= breadth /\ 2 <= depth /\
    smp <> None)).
Proof.
  intros run smp.
  assert (H0 : generateMoves G side board flags = [] ->
               run = Raise IndexError) by apply stochastic_no_moves.
  assert (H1 : generateMoves G side board flags <> [] ->
   (breadth <= 0 -> run = Raise UnboundLocalError) /\
   (1 <= breadth -> depth <= 0 -> run = Raise ZeroDivisionError) /\
   (1 <= breadth -> depth = 1 -> run = Raise IndexError) /\
   (1 <= breadth -> 2 <= depth -> smp = None ->
    run = Raise ChooserError \/ run = Raise OverflowError) /\
   (1 <= breadth -> 2 <= depth -> forall s, smp = Some s ->
    (sample_avgs s = Raise OverflowError /\ run = Raise OverflowError) \/
    ((exists qs, sample_avgs s = Ok qs) /\ exists r, run = Ok r))).
  { intros Hm.
    assert (Em : exists m rest,
               generateMoves G side board flags = m :: rest).
    { destruct (generateMoves G side board flags) as [|m rest];
        [congruence | eauto]. }
    destruct Em as (m & rest & Em).
    split; [|split; [|split; [|split]]].
    - intros Hb. eapply stochastic_breadth_nonpositive; eauto.
    - intros Hb Hd. eapply stochastic_depth_nonpositive; eauto.
    - intros Hb ->. eapply stochastic_depth_one; eauto.
    - intros Hb Hd Hs. unfold run, stochastic.
      destruct (moves_loop_no_samples G R chooser side board flags depth
                  breadth _ Hd Hb [] [] (Node []) None rs Hs) as [E|E];
        rewrite E; [left | right]; reflexivity.
    - intros Hb Hd s Hs.
      assert (Hne : Forall (fun x => snd x <> []) s).
      { unfold smp in Hs.
        destruct (Z.to_nat breadth) as [|j] eqn:Ej; [lia|].
        eapply samples_nonempty; eauto. }
      destruct (sample_avgs_cases s Hne) as [[qs Eq]|Eq].
      + right. split; [eauto|].
        unfold run. eapply stochastic_some_samples; eauto.
      + left. split; [exact Eq|]. unfold run.
        rewrite (stochastic_by_samples _ _ _ _ _ _ _ _ _ _ Hd Hb Hs), Eq.
        reflexivity. }
  assert (Hcases : forall e, run = Raise e ->
            e = IndexError \/ e = UnboundLocalError \/
            e = ZeroDivisionError \/ e = ChooserError \/
            (e = OverflowError /\ 1 <= breadth /\ 2 <= depth)).
  { intros e He.
    destruct (list_eq_dec_nil (generateMoves G side board flags)) as [Em|Em].
    - rewrite H0 in He by exact Em. inversion He; auto.
    - destruct (H1 Em) as (A & B & C & D & E).
      destruct (Z_le_gt_dec breadth 0);
        [rewrite A in He by lia; inversion He; auto|].
      destruct (Z_le_gt_dec depth 0);
        [rewrite B in He by lia; inversion He; auto|].
      destruct (Z.eq_dec depth 1);
        [rewrite C in He by lia; inversion He; auto|].
      destruct smp as [s|] eqn:Es.
      + destruct (E ltac:(lia) ltac:(lia) s eq_refl)
          as [[_ Er]|[_ [r Er]]]; [|congruence].
        rewrite Er in He. inversion He. do 4 right.
        split; [reflexivity | lia].
      + destruct (D ltac:(lia) ltac:(lia) eq_refl) as [Er|Er];
          rewrite Er in He; inversion He; [auto|]. do 4 right.
        split; [reflexivity | lia]. }
  assert (Hiff : (exists r, run = Ok r) <->
    generateMoves G side board flags <> [] /\ 1 <= breadth /\ 2 <= depth /\
    exists s qs, smp = Some s /\ sample_avgs s = Ok qs).
  { split.
    - intros [r Hr]. destruct (stochastic_ok_inv _ _ _ _ _ _ _ _ _ _ Hr)
        as (Hd & Hb & Hm).
      split; [exact Hm|]. split; [exact Hb|]. split; [exact Hd|].
      destruct (H1 Hm) as (_ & _ & _ & D & E).
      destruct smp as [s|] eqn:Es.
      + destruct (E Hb Hd s eq_refl) as [[_ Er]|[[qs Eq] _]];
          [congruence | eauto].
      + destruct (D Hb Hd eq_refl) as [Er|Er]; congruence.
    - intros (Hm & Hb & Hd & s & qs & Es & Eq).
      destruct (H1 Hm) as (_ & _ & _ & _ & E).
      destruct (E Hb Hd s Es) as [[Eo _]|[_ Er]]; [congruence | exact Er]. }
  split; [exact H0|]. split; [exact H1|].
  split; [intros Hc; destruct (Hcases _ Hc) as [H|[H|[H|[H|[H _]]]]];
          discriminate|].
  split; [intros Hc; destruct (Hcases _ Hc) as [H|[H|[H|[H|[H _]]]]];
          discriminate|].
  split; [exact Hiff|].
  intros Hr.
  assert (Hno : run <> Raise OverflowError).
  { intros Hc. destruct (Hcases _ Hc) as [H|[H|[H|[H|(_ & Hb & Hd)]]]];
      try discriminate.
    unfold run, stochastic in Hc.
    destruct (moves_loop G R chooser side board flags depth breadth
                (generateMoves G side board flags) [] [] (Node []) None rs)
      as [[[ml qs] mt]|e] eqn:El.
    - cbn [bind] in Hc. destruct (min_loop 0 qs QInf 0) as [mn idx].
      destruct (nth_error ml idx); discriminate.
    - cbn [bind] in Hc. inversion Hc; subst e.
      exact (moves_loop_bounded G R chooser side board flags depth breadth
               _ Hr Hd Hb _ _ _ _ _ El). }
  split; [exact Hno|].
  rewrite Hiff. split.
  - intros (Hm & Hb & Hd & s & qs & Es & _).
    split; [exact Hm|]. split; [exact Hb|]. split; [exact Hd|]. congruence.
  - intros (Hm & Hb & Hd & Hs).
    split; [exact Hm|]. split; [exact Hb|]. split; [exact Hd|].
    destruct smp as [s|] eqn:Es; [|congruence].
    exists s. destruct (H1 Hm) as (_ & _ & _ & _ & E).
    destruct (E Hb Hd s eq_refl) as [[_ Er]|[[qs Eq] _]];
      [contradiction | eauto].
Qed.

(** Depth 3 from the root of [rollout_game] asks the chooser for a move at
    a leaf; depth 2 with breadth 2 gives a result. *)
Lemma stochastic_outcomes_witness :
  generateMoves rollout_game false 0%nat tt <> [] /\ 1 <= 2 /\ 2 <= 2 /\
  (forall b, - 2 ^ 53 <= evaluate rollout_game b <= 2 ^ 53) /\
  exists r,
    stochastic rollout_game nat cycle_chooser false 0%nat tt 2 2 0%nat = Ok r.
Proof.
  assert (Hr : forall b, - 2 ^ 53 <= evaluate rollout_game b <= 2 ^ 53).
  { intros b. do 6 (destruct b as [|b]; [simpl; lia|]). simpl. lia. }
  split; [discriminate|]. split; [lia|]. split; [lia|]. split; [exact Hr|].
  destruct (stochastic_outcomes rollout_game nat cycle_chooser false 0%nat tt
              2 2 0%nat) as (_ & _ & _ & _ & _ & H).
  destruct (H Hr) as [_ [_ H2]]. apply H2.
  split; [discriminate|]. split; [lia|]. split; [lia|]. discriminate.
Defined.

Lemma last_in {A} (l : list A) d : l <> [] -> In (last l d) l.
Proof.
  induction l as [|a r IH]; [congruence|]. intros _.
  destruct r as [|b r]; [left; reflexivity|].
  right. change (last (a :: b :: r) d) with (last (b :: r) d).
  apply IH. discriminate.
Qed.

Section StochasticShape.
Variable G : Game.
Variable R : Type.
Variable chooser : R -> list (Move G) -> option (Move G * R).

Lemma sample_trees_keys smp : forall (t : MoveTree (Key G)) k,
  In k (keys (fold_left (sample_tree G) smp t)) <->
  In k (keys t) \/ In k (map (fun s => encode G (fst s)) smp).
Proof.
  induction smp as [|s smp IH]; intros t k; simpl.
  - tauto.
  - rewrite IH. unfold sample_tree, keys, dict_set. simpl.
    rewrite set_assoc_keys. intuition congruence.
Qed.

Lemma stochastic_shape side board flags depth breadth rs v p t :
  stochastic G R chooser side board flags depth breadth rs = Ok (v, p, t) ->
  Z.of_nat (length p) = depth /\
  (exists m tail, p = m :: tail /\ In m (generateMoves G side board flags)) /\
  (forall k, In k (keys t) <->
             In k (map (encode G) (generateMoves G side board flags))).
Proof.
  intros H.
  destruct (stochastic_ok_inv _ _ _ _ _ _ _ _ _ _ H) as (Hd & Hb & _).
  destruct (stochastic_samples _ _ _ _ _ _ _ _ _ _ _ _ H)
    as (smp & pre & s & post & Es & -> & Esmp & _ & -> & _).
  destruct (samples_shape _ _ _ _ _ _ _ _ _ _ _ Es) as [Hk Hsh].
  assert (Hs : In s smp) by (rewrite Esmp; apply in_elt).
  rewrite Forall_forall in Hsh. destruct (Hsh s Hs) as [Hlen Hros].
  split; [|split].
  - unfold sample_path. simpl length. rewrite length_rev.
    assert (Hne : snd s <> []) by (destruct (snd s); [simpl in Hlen; lia | discriminate]).
    rewrite Forall_forall in Hros.
    rewrite (Hros _ (last_in (snd s) ([], 0) Hne)). lia.
  - exists (fst s), (rev (fst (last (snd s) ([], 0)))).
    split; [reflexivity|]. rewrite <- Hk. apply in_map. exact Hs.
  - intros k. rewrite sample_trees_keys, <- Hk, map_map. simpl. tauto.
Qed.

(** A rollout that comes to a position without a move asks the chooser to
    choose from the empty list. *)
Lemma stochastic_stuck_rollout side board flags depth breadth rs m rest :
  (forall r, chooser r [] = None) ->
  generateMoves G side board flags = m :: rest ->
  (let '(s', b', f') := makeMove G side board m flags in
   generateMoves G s' b' f' = []) ->
  2 <= depth -> 1 <= breadth ->
  stochastic G R chooser side board flags depth breadth rs
  = Raise ChooserError.
Proof.
  intros Hch Em Hstuck Hd Hb.
  unfold stochastic. rewrite Em. cbn [moves_loop].
  rewrite (breadth_loop_rollouts G R chooser _ depth m _ _ _ _ _ (Node []))
    by (auto; apply dict_get_set_same).
  destruct (Z.to_nat breadth) as [|j] eqn:Ej; [lia|].
  destruct (Z.to_nat (depth - 1)) as [|k] eqn:Ek; [lia|].
  cbn [rollouts play].
  destruct (makeMove G side board m flags) as [[s' b'] f'].
  rewrite Hstuck, Hch. reflexivity.
Qed.

End StochasticShape.

(** X12. Whenever [stochastic] returns, its move list is exactly [depth]
    moves long and starts with a generated first move, and the keys at the
    top of its tree are those of the generated first moves: every first
    move is recorded, whether or not it is the one returned. *)
Theorem stochastic_result_shape (G : Game) (R : Type)
    (chooser : R -> list (Move G) -> option (Move G * R))
    (side : bool) (board : Board G) (flags : Flags G) (depth breadth : Z)
    (rs : R) v p t :
  stochastic G R chooser side board flags depth breadth rs = Ok (v, p, t) ->
  Z.of_nat (length p) = depth /\
  (exists m tail, p = m :: tail /\ In m (generateMoves G side board flags)) /\
  (forall k, In k (keys t) <->
             In k (map (encode G) (generateMoves G side board flags))).
Proof. apply stochastic_shape. Qed.

Lemma stochastic_result_shape_witness :
  stochastic rollout_game nat cycle_chooser false 0%nat tt 2 2 0%nat
  = Ok (QFin (12 # 1), [2%nat; 5%nat],
        Node [(1%nat, Node [(3%nat, Node []); (4%nat, Node [])]);
              (2%nat, Node [(5%nat, Node [])])]) /\
  Z.of_nat (length [2%nat; 5%nat]) = 2.
Proof.
  split; [reflexivity|].
  destruct (stochastic_result_shape rollout_game nat cycle_chooser false
              0%nat tt 2 2 0%nat _ _ _ eq_refl) as [H _].
  exact H.
Defined.

(** X13. When a first move leads to a position without a legal move and
    the depth is at least 2, the rollout asks the chooser to choose from an
    empty list; with a chooser that raises on the empty list, as
    [random.choice] does, [stochastic] ends in that error. *)
Theorem stochastic_fails_on_stuck_rollout (G : Game) (R : Type)
    (chooser : R -> list (Move G) -> option (Move G * R))
    (side : bool) (board : Board G) (flags : Flags G) (depth breadth : Z)
    (rs : R) (m : Move G) (rest : list (Move G)) :
  (forall r, chooser r [] = None) ->
  generateMoves G side board flags = m :: rest ->
  (let '(s', b', f') := makeMove G side board m flags in
   generateMoves G s' b' f' = []) ->
  2 <= depth -> 1 <= breadth ->
  stochastic G R chooser side board flags depth breadth rs
  = Raise ChooserError.
Proof. apply stochastic_stuck_rollout. Qed.

Lemma stochastic_fails_on_stuck_rollout_witness :
  (forall r, cycle_chooser r [] = None) /\
  generateMoves mate_game true 1%nat tt = [2%nat] /\
  generateMoves mate_game false 2%nat tt = [] /\ 2 <= 2 /\ 1 <= 1 /\
  stochastic mate_game nat cycle_chooser true 1%nat tt 2 1 0%nat
  = Raise ChooserError.
Proof.
  split; [reflexivity|]. split; [reflexivity|]. split; [reflexivity|].
  split; [lia|]. split; [lia|].
  apply (stochastic_fails_on_stuck_rollout mate_game nat cycle_chooser true
           1%nat tt 2 1 0%nat 2%nat []); try reflexivity; lia.
Defined.

(** X14. The value [stochastic] returns stays within the range of the
    evaluator, for a range that floats hold exactly: if every board
    evaluates between [lo] and [hi], and these are at most 2^53 in absolute
    value, so is the returned value. *)
Theorem stochastic_value_in_range (G : Game) (R : Type)
    (chooser : R -> list (Move G) -> option (Move G * R))
    (side : bool) (board : Board G) (flags : Flags G) (depth breadth : Z)
    (rs : R) (lo hi : Z) v p t :
  (forall b, lo <= evaluate G b <= hi) ->
  - 2 ^ 53 <= lo -> hi <= 2 ^ 53 ->
  stochastic G R chooser side board flags depth breadth rs = Ok (v, p, t) ->
  exists q, v = QFin q /\ (inject_Z lo <= q /\ q <= inject_Z hi)%Q.
Proof.
  intros Hr Hlo Hhi H.
  destruct (stochastic_samples _ _ _ _ _ _ _ _ _ _ _ _ H)
    as (smp & pre & s & post & Es & _ & Esmp & _ & _ & q & -> & Eq & _).
  destruct (stochastic_ok_inv _ _ _ _ _ _ _ _ _ _ H) as (_ & Hb & _).
  destruct (samples_shape _ _ _ _ _ _ _ _ _ _ _ Es) as [_ Hsh].
  pose proof (samples_values _ _ _ _ _ _ _ _ _ _ _ Es) as Hv.
  assert (Hs : In s smp) by (rewrite Esmp; apply in_elt).
  rewrite Forall_forall in Hsh, Hv.
  destruct (Hsh s Hs) as [Hlen _]. specialize (Hv s Hs).
  exists q. split; [reflexivity|].
  destruct (avg_bounds lo hi (map snd (snd s))) as (q' & Eq' & Hq');
    try assumption.
  - destruct (snd s); [simpl in Hlen; lia | discriminate].
  - rewrite Forall_forall in Hv |- *. intros z Hz.
    apply in_map_iff in Hz. destruct Hz as (ro & <- & Hro).
    destruct (Hv ro Hro) as [b ->]. apply Hr.
  - unfold sample_avg in Eq. rewrite Eq in Eq'. inversion Eq'; subst q'.
    exact Hq'.
Qed.

Lemma stochastic_value_in_range_witness :
  (forall b, 0 <= evaluate rollout_game b <= 20) /\
  - 2 ^ 53 <= 0 /\ 20 <= 2 ^ 53 /\
  exists q, QFin (12 # 1) = QFin q /\
            (inject_Z 0 <= q /\ q <= inject_Z 20)%Q.
Proof.
  assert (H : forall b, 0 <= evaluate rollout_game b <= 20).
  { intros b. do 6 (destruct b as [|b]; [simpl; lia|]). simpl. lia. }
  split; [exact H|]. split; [lia|]. split; [lia|].
  apply (stochastic_value_in_range rollout_game nat cycle_chooser false
           0%nat tt 2 2 0%nat 0 20 _ [2%nat; 5%nat]
           (Node [(1%nat, Node [(3%nat, Node []); (4%nat, Node [])]);
                  (2%nat, Node [(5%nat, Node [])])]) H);
    [lia | lia | reflexivity].
Defined.

(** ** A chooser without state *)

Lemma sum_repeat z j : forall a,
  fold_left Z.add (repeat z j) a = a + Z.of_nat j * z.
Proof.
  induction j as [|j IH]; intros a; simpl repeat; simpl fold_left.
  - simpl. lia.
  - rewrite IH. lia.
Qed.

(** The quotient of equal evaluations that a float holds exactly is that
    evaluation. *)
Lemma avg_repeat z j q :
  - 2 ^ 53 <= z <= 2 ^ 53 ->
  avg (repeat z (S j)) = Ok q -> (q == inject_Z z)%Q.
Proof.
  intros Hz H.
  destruct (avg_bounds z z (repeat z (S j))) as (q' & Eq' & Hq1 & Hq2);
    try lia.
  - discriminate.
  - rewrite Forall_forall. intros x Hx. apply repeat_spec in Hx. lia.
  - rewrite H in Eq'. inversion Eq'; subst q'. apply Qle_antisym; assumption.
Qed.

Lemma last_repeat {A} (x : A) j : forall d, last (repeat x (S j)) d = x.
Proof.
  induction j as [|j IH]; intros d; [reflexivity|].
  change (repeat x (S (S j))) with (x :: repeat x (S j)).
  rewrite last_cons. apply IH.
Qed.

Section FixedChooser.
Variable G : Game.
Variable pick : list (Move G) -> option (Move G).

Local Notation ch := (fixed_chooser pick).

Lemma merge_repeat_chain m r z j :
  merge_rollouts G (repeat (m :: r, z) j) (unwind G (m :: r))
  = unwind G (m :: r).
Proof.
  unfold merge_rollouts. induction j as [|j IH]; [reflexivity|].
  simpl repeat. simpl fold_left.
  replace (dict_update (Key_eq_dec G) (Node [(encode G m, unwind G r)])
             (Node [(encode G m, unwind G r)]))
    with (unwind G (m :: r)); [exact IH|].
  unfold dict_update, dict_set. simpl.
  destruct (Key_eq_dec G (encode G m) (encode G m)); [reflexivity | congruence].
Qed.

Lemma merge_repeat m r z j :
  merge_rollouts G (repeat (m :: r, z) (S j)) (Node [])
  = unwind G (m :: r).
Proof. apply (merge_repeat_chain m r z j). Qed.

Lemma rollouts_fixed j k pos :
  rollouts G unit ch (S j) k pos tt
  = match play G unit ch k pos tt with
    | None => None
    | Some (mvs, (_, b', _), _) => Some (repeat (mvs, evaluate G b') (S j), tt)
    end.
Proof.
  induction j as [|j IH].
  - simpl. destruct (play G unit ch k pos tt)
      as [[[mvs [[s' b'] f']] []]|]; reflexivity.
  - change (rollouts G unit ch (S (S j)) k pos tt)
      with (match play G unit ch k pos tt with
            | None => None
            | Some (mvs, (_, b', _), rs') =>
                match rollouts G unit ch (S j) k pos rs' with
                | None => None
                | Some (ros, rs'') => Some ((mvs, evaluate G b') :: ros, rs'')
                end
            end).
    destruct (play G unit ch k pos tt) as [[[mvs [[s' b'] f']] []]|] eqn:E;
      [|reflexivity].
    rewrite IH. reflexivity.
Qed.

Lemma samples_fixed side board flags depth j moves smp :
  samples G unit ch side board flags (S j) (Z.to_nat (depth - 1)) moves tt
  = Some smp ->
  (forall m, In m moves ->
     play G unit ch (Z.to_nat (depth - 1)) (makeMove G side board m flags) tt
     <> None) /\
  smp = map (fun m =>
               (m, repeat (fst (fixed_line G pick side board flags depth m),
                           fixed_leaf G pick side board flags depth m) (S j)))
          moves.
Proof.
  revert smp. induction moves as [|m rest IH]; intros smp H.
  - simpl in H. inversion H; subst. split; [intros m [] | reflexivity].
  - cbn [samples] in H. rewrite rollouts_fixed in H.
    unfold fixed_leaf, fixed_line.
    destruct (play G unit ch (Z.to_nat (depth - 1))
                (makeMove G side board m flags) tt)
      as [[[mvs [[s' b'] f']] u]|] eqn:E; [|discriminate].
    destruct (samples G unit ch side board flags (S j) (Z.to_nat (depth - 1))
                rest tt) as [l|] eqn:E2; [|discriminate].
    inversion H; subst. destruct (IH _ eq_refl) as [H1 H2].
    split.
    + intros x [<-|Hx]; [rewrite E; discriminate | auto].
    + simpl map. rewrite E. simpl. f_equal. exact H2.
Qed.

End FixedChooser.

(** X15. With a chooser whose answer depends on the candidates alone, all
    rollouts of a first move are the same rollout.  Whenever [stochastic]
    then returns (the keys of the first moves being distinct, and every
    evaluation at most 2^53 in absolute value, which a float holds
    exactly): the tree
    under every first move is the unwinding of that one rollout, the
    returned value equals the evaluation of the leaf of the returned first
    move's rollout, that leaf is strictly below the leaf of every earlier
    first move and at most the leaf of every later one, and the returned
    list is the first move followed by its rollout, latest move first. *)
Theorem stochastic_with_fixed_chooser (G : Game)
    (pick : list (Move G) -> option (Move G))
    (side : bool) (board : Board G) (flags : Flags G) (depth breadth : Z)
    v p t :
  NoDup (map (encode G) (generateMoves G side board flags)) ->
  (forall b, - 2 ^ 53 <= evaluate G b <= 2 ^ 53) ->
  stochastic G unit (fixed_chooser pick) side board flags depth breadth tt
  = Ok (v, p, t) ->
  let line := fixed_line G pick side board flags depth in
  let leaf := fixed_leaf G pick side board flags depth in
  exists pre m post q,
    generateMoves G side board flags = pre ++ m :: post /\
    v = QFin q /\ (q == inject_Z (leaf m))%Q /\
    p = m :: rev (fst (line m)) /\
    (forall x, In x (generateMoves G side board flags) ->
       play G unit (fixed_chooser pick) (Z.to_nat (depth - 1))
         (makeMove G side board x flags) tt <> None /\
       dict_get (Key_eq_dec G) (encode G x) t
       = Some (unwind G (fst (line x)))) /\
    (forall x, In x pre -> leaf m < leaf x) /\
    (forall x, In x post -> leaf m <= leaf x).
Proof.
  intros Hnd Hr H line leaf.
  destruct (stochastic_ok_inv _ _ _ _ _ _ _ _ _ _ H) as (Hd & Hb & _).
  destruct (stochastic_samples _ _ _ _ _ _ _ _ _ _ _ _ H)
    as (smp & pre_s & s & post_s & Es & Et & Esmp & _ & Ep & q & Ev & Eq
        & Hpre & Hpost).
  destruct (Z.to_nat breadth) as [|j] eqn:Ej; [lia|].
  destruct (samples_fixed _ _ _ _ _ _ _ _ _ Es) as [Hplay Emap].
  fold line leaf in Emap.
  set (g := fun m => (m, repeat (fst (line m), leaf m) (S j))) in *.
  rewrite Esmp in Emap. symmetry in Emap.
  apply map_eq_app in Emap. destruct Emap as (pre & l2 & Eg & Epre & E2).
  destruct l2 as [|m post]; [discriminate|].
  simpl in E2. inversion E2 as [[Es' Epost]]. clear E2.
  assert (Hmean : forall x qx, sample_avg (g x) = Ok qx ->
                              (qx == inject_Z (leaf x))%Q).
  { intros x qx. unfold sample_avg, g. cbn [snd].
    rewrite map_repeat. cbn [snd]. apply avg_repeat.
    unfold leaf, fixed_leaf. apply Hr. }
  assert (Hq : (q == inject_Z (leaf m))%Q)
    by (apply Hmean; rewrite Es'; exact Eq).
  exists pre, m, post, q.
  split; [exact Eg|]. split; [exact Ev|].
  split; [exact Hq|].
  split.
  { rewrite Ep, <- Es'. unfold sample_path, g. cbn [fst snd].
    rewrite last_repeat. reflexivity. }
  split.
  { intros x Hx. split; [apply Hplay; exact Hx|].
    rewrite Et.
    assert (Hin : In (g x) smp).
    { rewrite Esmp, <- Epre, <- Es', <- Epost.
      change (map g pre ++ g m :: map g post) with (map g pre ++ map g (m :: post)).
      rewrite <- map_app, <- Eg. apply in_map. exact Hx. }
    assert (Hnd' : NoDup (map (fun s0 => encode G (fst s0)) smp)).
    { rewrite Esmp, <- Epre, <- Es', <- Epost.
      change (map g pre ++ g m :: map g post)
        with (map g pre ++ map g (m :: post)).
      rewrite <- map_app, <- Eg, map_map. exact Hnd. }
    pose proof (sample_trees_get G smp (Node []) (g x) Hnd' Hin) as Hget.
    unfold g in Hget. cbn [fst snd] in Hget. rewrite Hget.
    assert (Hl : length (fst (line x)) = Z.to_nat (depth - 1)).
    { unfold line, fixed_line. specialize (Hplay x Hx).
      destruct (play G unit (fixed_chooser pick) (Z.to_nat (depth - 1))
                  (makeMove G side board x flags) tt)
        as [[[mvs pos'] u]|] eqn:E; [|congruence].
      simpl. eapply play_length; eauto. }
    destruct (fst (line x)) as [|m0 r0]; [simpl in Hl; lia|].
    rewrite merge_repeat. reflexivity. }
  split.
  - intros x Hx.
    destruct (Hpre (g x)) as (qx & Ex & Hlt);
      [rewrite <- Epre; apply in_map; exact Hx|].
    rewrite (Hmean _ _ Ex), Hq in Hlt. rewrite <- Zlt_Qlt in Hlt. exact Hlt.
  - intros x Hx.
    destruct (Hpost (g x)) as (qx & Ex & Hle);
      [rewrite <- Epost; apply in_map; exact Hx|].
    rewrite (Hmean _ _ Ex), Hq in Hle. rewrite <- Zle_Qle in Hle. exact Hle.
Qed.

Lemma stochastic_with_fixed_chooser_witness :
  NoDup (map (encode rollout_game) (generateMoves rollout_game false 0%nat tt))
  /\
  (forall b, - 2 ^ 53 <= evaluate rollout_game b <= 2 ^ 53) /\
  stochastic rollout_game unit (fixed_chooser (@hd_error nat)) false 0%nat tt
    2 3 tt
  = Ok (QFin (10 # 1), [1%nat; 3%nat],
        Node [(1%nat, Node [(3%nat, Node [])]);
              (2%nat, Node [(5%nat, Node [])])]) /\
  exists pre m post q,
    generateMoves rollout_game false 0%nat tt = pre ++ m :: post /\
    QFin (10 # 1) = QFin q /\
    (q == inject_Z (fixed_leaf rollout_game (@hd_error nat) false 0%nat tt
                      2 m))%Q.
Proof.
  assert (Hnd : NoDup (map (encode rollout_game)
                         (generateMoves rollout_game false 0%nat tt)))
    by (repeat constructor; simpl; intuition discriminate).
  assert (Hr : forall b, - 2 ^ 53 <= evaluate rollout_game b <= 2 ^ 53).
  { intros b. do 6 (destruct b as [|b]; [simpl; lia|]). simpl. lia. }
  split; [exact Hnd|]. split; [exact Hr|]. split; [reflexivity|].
  destruct (stochastic_with_fixed_chooser rollout_game (@hd_error nat)
              false 0%nat tt 2 3 _ _ _ Hnd Hr eq_refl)
    as (pre & m & post & q & H1 & H2 & H3 & _).
  exists pre, m, post, q. auto.
Defined.

(** ** The value minimax computes *)

Lemma fold_max_spec l :
  (forall y, In y l -> ev_le y (fold_right ev_max NegInf l)) /\
  (fold_right ev_max NegInf l = NegInf \/ In (fold_right ev_max NegInf l) l).
Proof.
  induction l as [|a l [IH1 IH2]]; cbn [fold_right].
  - split; [intros y [] | left; reflexivity].
  - set (x := fold_right ev_max NegInf l) in *. unfold ev_max.
    destruct (ev_ltb a x) eqn:E.
    + split.
      * intros y [<-|Hy]; [ev_order | auto].
      * destruct IH2 as [H|H]; [left; exact H | right; right; exact H].
    + split.
      * intros y [<-|Hy]; [ev_order | specialize (IH1 y Hy); ev_order].
      * right; left; reflexivity.
Qed.

Lemma fold_min_spec l :
  (forall y, In y l -> ev_le (fold_right ev_min PosInf l) y) /\
  (fold_right ev_min PosInf l = PosInf \/ In (fold_right ev_min PosInf l) l).
Proof.
  induction l as [|a l [IH1 IH2]]; cbn [fold_right].
  - split; [intros y [] | left; reflexivity].
  - set (x := fold_right ev_min PosInf l) in *. unfold ev_min.
    destruct (ev_ltb x a) eqn:E.
    + split.
      * intros y [<-|Hy]; [ev_order | auto].
      * destruct IH2 as [H|H]; [left; exact H | right; right; exact H].
    + split.
      * intros y [<-|Hy]; [ev_order | specialize (IH1 y Hy); ev_order].
      * right; left; reflexivity.
Qed.

Lemma max_unique l x :
  (forall y, In y l -> ev_le y x) -> (x = NegInf \/ In x l) ->
  x = fold_right ev_max NegInf l.
Proof.
  intros H1 H2. destruct (fold_max_spec l) as [F1 F2].
  assert (A : ev_le (fold_right ev_max NegInf l) x)
    by (destruct F2 as [->|F2]; [ev_order | auto]).
  assert (B : ev_le x (fold_right ev_max NegInf l))
    by (destruct H2 as [->|H2]; [apply ev_le_NegInf | auto]).
  ev_order.
Qed.

Lemma min_unique l x :
  (forall y, In y l -> ev_le x y) -> (x = PosInf \/ In x l) ->
  x = fold_right ev_min PosInf l.
Proof.
  intros H1 H2. destruct (fold_min_spec l) as [F1 F2].
  assert (A : ev_le x (fold_right ev_min PosInf l))
    by (destruct F2 as [->|F2]; [ev_order | auto]).
  assert (B : ev_le (fold_right ev_min PosInf l) x)
    by (destruct H2 as [->|H2]; [apply ev_le_PosInf | auto]).
  ev_order.
Qed.

Section GameValue.
Variable G : Game.

(** The value [minimax] returns is no worse than the recursive value of any
    generated move. *)
Lemma minimax_bounds_children fuel side board flags depth v p t :
  depth <> 0 ->
  minimax G (S fuel) side board flags depth = Some (v, p, t) ->
  forall x, In x (generateMoves G side board flags) ->
    valued G (child_mm G fuel side board flags depth) x
      (fun rv => if side then ev_le v rv else ev_le rv v).
Proof.
  intros Hd H. rewrite minimax_S in H.
  apply Z.eqb_neq in Hd. rewrite Hd in H.
  destruct side; cbn [negb] in H;
    match type of H with
    | finish _ ?x = _ => destruct x as [[[[v' b'] l'] t']|] eqn:El
    end; simpl in H; inversion H; subst;
    [apply mm_min_loop_selection in El | apply mm_max_loop_selection in El];
    (destruct El as [(-> & _ & _ & Hall)
                    |(pre & m & post & rt & Eg & Em & _ & _ & Hpre & Hpost)];
     [exact Hall|]);
    intros x Hx; rewrite Eg in Hx; apply in_app_or in Hx;
    (destruct Hx as [Hx|[<-|Hx]];
     [destruct (Hpre x Hx) as (rv & rl & rt' & Ex & Hv);
      exists rv, rl, rt'; split; [exact Ex | ev_order]
     |exists v, l', rt; split; [exact Em | ev_order]
     |exact (Hpost x Hx)]).
Qed.

Lemma minimax_game_value fuel :
  forall side board flags depth v p t,
    0 <= depth ->
    minimax G fuel side board flags depth = Some (v, p, t) ->
    v = game_value G (Z.to_nat depth) side board flags.
Proof.
  induction fuel as [|n IH]; intros side board flags depth v p t Hd H.
  - simpl in H. destruct (depth =? 0) eqn:E; [|discriminate].
    apply Z.eqb_eq in E. subst. inversion H; reflexivity.
  - destruct (Z.eq_dec depth 0) as [->|Hd0].
    { simpl in H. inversion H; reflexivity. }
    replace (Z.to_nat depth) with (S (Z.to_nat (depth - 1))) by lia.
    cbn [game_value].
    set (val := fun m => let '(s', b', f') := makeMove G side board m flags in
                         game_value G (Z.to_nat (depth - 1)) s' b' f').
    assert (Hval : forall x rv rl rt,
      child_mm G n side board flags depth x = Some (rv, rl, rt) ->
      rv = val x).
    { intros x rv rl rt Ex. unfold child_mm, val in *.
      destruct (makeMove G side board x flags) as [[s' b'] f'].
      eapply IH; [lia | exact Ex]. }
    pose proof (minimax_bounds_children _ _ _ _ _ _ _ _ Hd0 H) as Hb.
    destruct (minimax_pick G _ _ _ _ _ _ _ _ Hd0 H)
      as [[_ Hv]|(m & rl & rt & Hin & Ec & _)].
    + destruct side; [apply min_unique | apply max_unique];
        try (left; exact Hv);
        intros y Hy; apply in_map_iff in Hy; destruct Hy as (x & <- & Hx);
        destruct (Hb x Hx) as (rv & rl & rt & Ex & Hle);
        rewrite <- (Hval _ _ _ _ Ex); exact Hle.
    + destruct side; [apply min_unique | apply max_unique];
        try (right; rewrite (Hval _ _ _ _ Ec); apply in_map; exact Hin);
        intros y Hy; apply in_map_iff in Hy; destruct Hy as (x & <- & Hx);
        destruct (Hb x Hx) as (rv & rl' & rt' & Ex & Hle);
        rewrite <- (Hval _ _ _ _ Ex); exact Hle.
Qed.

End GameValue.

(** X16. For every depth >= 0 (and enough fuel) the value [minimax] returns,
    and with it the value [alphabeta] returns with the default bounds, is
    the textbook value of the position searched [depth] plies deep: the
    evaluation at depth 0, else the greatest (side False) or least (side
    True) of the values one move away, and the sentinel -inf or +inf where
    there is no move. *)
Theorem minimax_computes_game_value (G : Game) (fuel : nat) (side : bool)
    (board : Board G) (flags : Flags G) (depth : Z) :
  0 <= depth -> (Z.to_nat depth <= fuel)%nat ->
  exists p tM tA,
    minimax G fuel side board flags depth
    = Some (game_value G (Z.to_nat depth) side board flags, p, tM) /\
    alphabeta G fuel side board flags depth NegInf PosInf
    = Some (game_value G (Z.to_nat depth) side board flags, p, tA).
Proof.
  intros Hd Hf.
  destruct (alphabeta_equals_minimax_total G fuel side board flags depth
              Hd Hf) as (v & p & tM & tA & Hm & Ha).
  pose proof (minimax_game_value G _ _ _ _ _ _ _ _ Hd Hm) as Ev.
  subst v. eauto.
Qed.

Lemma minimax_computes_game_value_witness :
  0 <= 2 /\ (Z.to_nat 2 <= 2)%nat /\
  game_value pruning_game 2 false 0%nat tt = Fin 3 /\
  exists p tM tA,
    minimax pruning_game 2 false 0%nat tt 2
    = Some (game_value pruning_game (Z.to_nat 2) false 0%nat tt, p, tM) /\
    alphabeta pruning_game 2 false 0%nat tt 2 NegInf PosInf
    = Some (game_value pruning_game (Z.to_nat 2) false 0%nat tt, p, tA).
Proof.
  split; [lia|]. split; [simpl; lia|]. split; [reflexivity|].
  apply (minimax_computes_game_value pruning_game 2 false 0%nat tt 2);
    [lia | simpl; lia].
Defined.

(** ** random *)

Section Random.
Variable G : Game.
Variable R : Type.
Variable chooser : R -> list (Move G) -> option (Move G * R).

Lemma random_no_moves side board flags rs :
  generateMoves G side board flags = [] ->
  random G R chooser side board flags rs
  = Ok (evaluate G board, [], Node []).
Proof. intros H. unfold random. rewrite H. reflexivity. Qed.

Lemma random_some_moves side board flags rs :
  generateMoves G side board flags <> [] ->
  random G R chooser side board flags rs
  = match chooser rs (generateMoves G side board flags) with
    | None => Raise ChooserError
    | Some (move, _) =>
        Ok (evaluate G (board_of (makeMove G side board move flags)),
            [move], Node [(encode G move, Node [])])
    end.
Proof.
  intros H. unfold random.
  destruct (generateMoves G side board flags) as [|m rest]; [congruence|].
  cbn [length Nat.ltb Nat.leb].
  destruct (chooser rs (m :: rest)) as [[move r']|]; [|reflexivity].
  destruct (makeMove G side board move flags) as [[s' b'] f']. reflexivity.
Qed.

End Random.

(** X17. [random] against [minimax] at depth 1: at a position with a legal
    move and with a chooser that answers with one of the candidates,
    whatever [random] returns is one generated move, the evaluation of the
    board after it and a tree with that move alone; [minimax] at depth 1
    records that move too, and its value is at least that evaluation for
    side False and at most that evaluation for side True. *)
Theorem random_no_better_than_minimax (G : Game) (R : Type)
    (chooser : R -> list (Move G) -> option (Move G * R))
    (side : bool) (board : Board G) (flags : Flags G) (rs : R) v p t :
  (forall r l m r', chooser r l = Some (m, r') -> In m l) ->
  generateMoves G side board flags <> [] ->
  random G R chooser side board flags rs = Ok (v, p, t) ->
  exists move vm pm tm,
    In move (generateMoves G side board flags) /\
    p = [move] /\ t = Node [(encode G move, Node [])] /\
    v = evaluate G (board_of (makeMove G side board move flags)) /\
    minimax G 1 side board flags 1 = Some (Fin vm, pm, tm) /\
    (if side then vm <= v else v <= vm) /\
    In (encode G move) (keys tm).
Proof.
  intros Hch Hm H. rewrite random_some_moves in H by exact Hm.
  destruct (chooser rs (generateMoves G side board flags))
    as [[move r']|] eqn:Ec; [|discriminate].
  inversion H; subst v p t. clear H.
  pose proof (Hch _ _ _ _ Ec) as Hin.
  destruct (minimax_total G 1 side board flags 1 ltac:(lia) ltac:(simpl; lia))
    as [[[vm pm] tm] Em].
  assert (Hd : 1 <> 0) by discriminate.
  assert (Hchild : forall x,
    child_mm G 0 side board flags 1 x
    = Some (Fin (evaluate G (board_of (makeMove G side board x flags))),
            [], Node [])).
  { intros x. unfold child_mm.
    destruct (makeMove G side board x flags) as [[s' b'] f']. reflexivity. }
  destruct (minimax_bounds_children G _ _ _ _ _ _ _ _ Hd Em move Hin)
    as (rv & rl & rt & Ex & Hle).
  rewrite Hchild in Ex. inversion Ex; subst rv rl rt. clear Ex.
  assert (Hfin : exists z, vm = Fin z).
  { destruct (minimax_pick G _ _ _ _ _ _ _ _ Hd Em)
      as [[_ ->]|(m & rl & rt & _ & Ex & _)].
    - destruct side; discriminate.
    - rewrite Hchild in Ex. inversion Ex. eauto. }
  destruct Hfin as [z ->].
  exists move, z, pm, tm.
  split; [exact Hin|]. split; [reflexivity|]. split; [reflexivity|].
  split; [reflexivity|]. split; [exact Em|].
  split.
  - destruct side; unfold ev_le in Hle; simpl in Hle;
      apply Z.ltb_ge in Hle; exact Hle.
  - destruct (search_tree_shape G 0 side board flags 1 NegInf PosInf Hd)
      as [H1 _].
    destruct (H1 _ _ _ Em) as (subs & _ & _ & Hk).
    apply Hk. apply in_map. exact Hin.
Qed.

Lemma random_no_better_than_minimax_witness :
  (forall r l m r', cycle_chooser r l = Some (m, r') -> In m l) /\
  generateMoves pruning_game true 1%nat tt <> [] /\
  random pruning_game nat cycle_chooser true 1%nat tt 1%nat
  = Ok (5, [4%nat], Node [(4%nat, Node [])]) /\
  exists vm pm tm,
    minimax pruning_game 1 true 1%nat tt 1 = Some (Fin vm, pm, tm) /\
    vm <= 5.
Proof.
  assert (Hch : forall r l m r',
             cycle_chooser r l = Some (m, r') -> In m l).
  { intros r l m r' H. unfold cycle_chooser in H.
    destruct l as [|a l'] eqn:El; [discriminate|]. rewrite <- El in *.
    assert (Em : m = nth (Nat.modulo r (length l)) l O) by congruence.
    rewrite Em. apply nth_In. apply Nat.mod_upper_bound.
    rewrite El. discriminate. }
  split; [exact Hch|]. split; [discriminate|]. split; [reflexivity|].
  destruct (random_no_better_than_minimax pruning_game nat cycle_chooser
              true 1%nat tt 1%nat _ _ _ Hch ltac:(discriminate) eq_refl)
    as (move & vm & pm & tm & _ & _ & _ & _ & H1 & H2 & _).
  exists vm, pm, tm. auto.
Defined.

(** X18. A position without a legal move, three ways: [random] returns the
    evaluation of the board with an empty list and an empty tree without
    asking the chooser, [minimax] and [alphabeta] at a depth other than 0
    return the sentinel with [[None]], and [stochastic] raises an index
    error.  [random] only ever asks the chooser about a non-empty list: with
    a chooser that answers on every non-empty list it always returns. *)
Theorem no_legal_move_three_ways (G : Game) (R : Type)
    (chooser : R -> list (Move G) -> option (Move G * R))
    (fuel : nat) (side : bool) (board : Board G) (flags : Flags G)
    (depth breadth : Z) (alpha beta : EVal) (rs : R) :
  (generateMoves G side board flags = [] ->
   random G R chooser side board flags rs
   = Ok (evaluate G board, [], Node []) /\
   (depth <> 0 ->
    minimax G (S fuel) side board flags depth
    = Some (if side then PosInf else NegInf, [None], Node []) /\
    alphabeta G (S fuel) side board flags depth alpha beta
    = Some (if side then PosInf else NegInf, [None], Node [])) /\
   stochastic G R chooser side board flags depth breadth rs
   = Raise IndexError) /\
  ((forall r l, l <> [] -> chooser r l <> None) ->
   exists res, random G R chooser side board flags rs = Ok res).
Proof.
  split.
  - intros Hm. split; [apply random_no_moves; exact Hm|].
    split; [intros Hd; apply no_moves_sentinel; assumption|].
    apply stochastic_no_moves; exact Hm.
  - intros Hch.
    destruct (list_eq_dec_nil (generateMoves G side board flags)) as [E|E].
    + rewrite random_no_moves by exact E. eauto.
    + rewrite random_some_moves by exact E.
      specialize (Hch rs _ E).
      destruct (chooser rs (generateMoves G side board flags))
        as [[move r']|]; [eauto | congruence].
Qed.

Lemma no_legal_move_three_ways_witness :
  generateMoves mate_game false 2%nat tt = [] /\ 1 <> 0 /\
  random mate_game nat cycle_chooser false 2%nat tt 0%nat
  = Ok (7, [], Node []) /\
  minimax mate_game 1 false 2%nat tt 1 = Some (NegInf, [None], Node []) /\
  stochastic mate_game nat cycle_chooser false 2%nat tt 2 2 0%nat
  = Raise IndexError.
Proof.
  split; [reflexivity|]. split; [discriminate|].
  destruct (no_legal_move_three_ways mate_game nat cycle_chooser 0 false
              2%nat tt 1 2 NegInf PosInf 0%nat) as [H _].
  destruct (H eq_refl) as (H1 & H2 & _).
  destruct (H2 ltac:(discriminate)) as [H3 _].
  split; [exact H1|]. split; [exact H3|]. reflexivity.
Defined.

(** ** generateMoves *)

Lemma NoDup_map_injective {A B} (f : A -> B) (l : list A) :
  (forall x y, f x = f y -> x = y) -> NoDup l -> NoDup (map f l).
Proof.
  intros Hf H. induction H as [|a l Hn Hl IH]; simpl; constructor.
  - intros Hin. apply in_map_iff in Hin. destruct Hin as (x & E & Hx).
    apply Hf in E. subst. contradiction.
  - exact IH.
Qed.

Section GenerateMovesFacts.
Variables LBoard LFlags Piece Square Promote : Type.
Variable pieces : bool -> LBoard -> list Piece.
Variable fro_of : Piece -> Square.
Variable availableMoves : bool -> LBoard -> Piece -> LFlags -> list Square.
Variable getPromote : bool -> LBoard -> Square -> Square -> Promote.

Local Notation gen :=
  (generateMoves_lib LBoard LFlags Piece Square Promote pieces fro_of
     availableMoves getPromote).

Lemma generateMoves_lib_in side board flags fro to pr :
  In (fro, to, pr) (gen side board flags) <->
  exists piece,
    In piece (pieces side board) /\ fro = fro_of piece /\
    In to (availableMoves side board piece flags) /\
    pr = getPromote side board fro to.
Proof.
  unfold generateMoves_lib. rewrite in_flat_map. split.
  - intros (piece & Hp & Hin). apply in_map_iff in Hin.
    destruct Hin as (to' & E & Hto). inversion E; subst.
    exists piece. auto.
  - intros (piece & Hp & -> & Hto & ->). exists piece. split; [exact Hp|].
    apply in_map_iff. exists to. auto.
Qed.

Lemma generateMoves_lib_nodup_list side board flags (ps : list Piece) :
  NoDup (map fro_of ps) ->
  (forall piece, NoDup (availableMoves side board piece flags)) ->
  NoDup (flat_map
           (fun piece =>
              map (fun to => (fro_of piece, to,
                              getPromote side board (fro_of piece) to))
                (availableMoves side board piece flags)) ps).
Proof.
  intros Hp Ha. induction ps as [|piece ps IH]; simpl.
  - constructor.
  - simpl in Hp. inversion Hp as [|x xs Hnotin Hnd']; subst.
    apply NoDup_app.
    + apply NoDup_map_injective; [|apply Ha].
      intros x y E. inversion E; reflexivity.
    + apply IH; assumption.
    + intros mv Hin1 Hin2. apply in_map_iff in Hin1.
      destruct Hin1 as (to & <- & _). apply in_flat_map in Hin2.
      destruct Hin2 as (piece' & Hp' & Hin). apply in_map_iff in Hin.
      destruct Hin as (to' & E & _). inversion E as [[Efro Eto Epr]].
      apply Hnotin. rewrite <- Efro. apply in_map. exact Hp'.
Qed.

End GenerateMovesFacts.

(** X19. [generateMoves] yields exactly the moves (fro, to, promote) with
    [fro] the square of a piece of the side to move, [to] one of that
    piece's available squares and [promote] what the library says for
    them; and when the pieces of that side stand on distinct squares and no
    piece's available squares repeat, it yields no move twice, so an
    injective encoder gives distinct keys. *)
Theorem generateMoves_yields_each_move_once
    (LBoard LFlags Piece Square Promote Key : Type)
    (pieces : bool -> LBoard -> list Piece) (fro_of : Piece -> Square)
    (availableMoves : bool -> LBoard -> Piece -> LFlags -> list Square)
    (getPromote : bool -> LBoard -> Square -> Square -> Promote)
    (encode : Square * Square * Promote -> Key)
    (side : bool) (board : LBoard) (flags : LFlags) :
  let moves := generateMoves_lib LBoard LFlags Piece Square Promote pieces
                 fro_of availableMoves getPromote side board flags in
  (forall fro to pr,
      In (fro, to, pr) moves <->
      exists piece,
        In piece (pieces side board) /\ fro = fro_of piece /\
        In to (availableMoves side board piece flags) /\
        pr = getPromote side board fro to) /\
  (NoDup (map fro_of (pieces side board)) ->
   (forall piece, NoDup (availableMoves side board piece flags)) ->
   NoDup moves /\
   ((forall x y, encode x = encode y -> x = y) -> NoDup (map encode moves))).
Proof.
  intros moves. split.
  - intros fro to pr. apply generateMoves_lib_in.
  - intros Hp Ha.
    assert (Hn : NoDup moves)
      by (apply generateMoves_lib_nodup_list; assumption).
    split; [exact Hn|]. intros Hinj.
    apply NoDup_map_injective; assumption.
Qed.

Lemma generateMoves_yields_each_move_once_witness :
  NoDup (map (fun p : nat => p) [1; 2]%nat) /\
  (forall piece : nat, NoDup [piece + 10; piece + 20]%nat) /\
  NoDup (generateMoves_lib unit unit nat nat bool
           (fun _ _ => [1; 2]%nat) (fun p => p)
           (fun _ _ p _ => [p + 10; p + 20]%nat)
           (fun _ _ _ to => Nat.eqb to 22) false tt tt).
Proof.
  assert (H1 : NoDup (map (fun p : nat => p) [1; 2]%nat))
    by (repeat constructor; simpl; intuition discriminate).
  assert (H2 : forall piece : nat, NoDup [piece + 10; piece + 20]%nat).
  { intros piece. repeat constructor; simpl; intuition lia. }
  split; [exact H1|]. split; [exact H2|].
  destruct (generateMoves_yields_each_move_once unit unit nat nat bool nat
              (fun _ _ => [1; 2]%nat) (fun p => p)
              (fun _ _ p _ => [p + 10; p + 20]%nat)
              (fun _ _ _ to => Nat.eqb to 22) (fun _ => O) false tt tt)
    as [_ H].
  destruct (H H1 H2) as [Hn _]. exact Hn.
Defined.

(** ** How deep the trees go *)

Lemma height_Node {K} (es : list (K * MoveTree K)) :
  height (Node es) = heights es.
Proof.
  induction es as [|[k sub] r IH]; [reflexivity|].
  simpl in IH |- *. rewrite IH. reflexivity.
Qed.

Section Heights.
Variable G : Game.

Lemma heights_set_assoc k v (es : list (Key G * MoveTree (Key G))) :
  (heights (set_assoc (Key_eq_dec G) k v es)
   <= Nat.max (S (height v)) (heights es))%nat.
Proof.
  induction es as [|[k' v'] r IH]; cbn [set_assoc heights].
  - lia.
  - destruct (Key_eq_dec G k k'); cbn [heights]; lia.
Qed.

Lemma height_record_all h subs : forall t : MoveTree (Key G),
  Forall (fun kv => (height (snd kv) <= h)%nat) subs ->
  (height (record_all (Key_eq_dec G) subs t) <= Nat.max (S h) (height t))%nat.
Proof.
  unfold record_all.
  induction subs as [|[k v] r IH]; intros t H; cbn [fold_left].
  - lia.
  - inversion H as [|x xs Hv Hr]; subst. cbn [fst snd] in *.
    specialize (IH (dict_set (Key_eq_dec G) k v t) Hr).
    assert (Hs : (height (dict_set (Key_eq_dec G) k v t)
                  <= Nat.max (S (height v)) (height t))%nat).
    { unfold dict_set. destruct t as [es]. rewrite !height_Node.
      cbn [entries]. apply heights_set_assoc. }
    lia.
Qed.

Lemma minimax_height fuel :
  forall side board flags depth v p t,
    0 <= depth ->
    minimax G fuel side board flags depth = Some (v, p, t) ->
    (height t <= Z.to_nat depth)%nat.
Proof.
  induction fuel as [|n IH]; intros side board flags depth v p t Hd H.
  - simpl in H. destruct (depth =? 0); [|discriminate].
    inversion H; subst. cbn [height]. lia.
  - destruct (Z.eq_dec depth 0) as [->|Hd0].
    { simpl in H. inversion H; subst. cbn [height]. lia. }
    destruct (search_tree_shape G n side board flags depth NegInf PosInf Hd0)
      as [H1 _].
    destruct (H1 _ _ _ H) as (subs & HF & -> & _).
    assert (Hs : Forall (fun kv => (height (snd kv)
                                    <= Z.to_nat (depth - 1))%nat) subs).
    { clear - HF IH Hd Hd0. induction HF as [|m kv ms ss Hr _ IHF];
        constructor; [|exact IHF].
      destruct Hr as (_ & rv & rl & Er). unfold child_mm in Er.
      destruct (makeMove G side board m flags) as [[s' b'] f'].
      eapply IH; [|exact Er]. lia. }
    pose proof (height_record_all _ _ (Node []) Hs) as Hh.
    change (height (@Node (Key G) [])) with O in Hh. lia.
Qed.

Lemma alphabeta_height fuel :
  forall side board flags depth alpha beta v p t,
    0 <= depth ->
    alphabeta G fuel side board flags depth alpha beta = Some (v, p, t) ->
    (height t <= Z.to_nat depth)%nat.
Proof.
  induction fuel as [|n IH];
    intros side board flags depth alpha beta v p t Hd H.
  - simpl in H. destruct (depth =? 0); [|discriminate].
    inversion H; subst. cbn [height]. lia.
  - destruct (Z.eq_dec depth 0) as [->|Hd0].
    { simpl in H. inversion H; subst. cbn [height]. lia. }
    destruct (search_tree_shape G n side board flags depth alpha beta Hd0)
      as [_ H2].
    destruct (H2 _ _ _ H) as (ex & sk & subs & _ & HF & -> & _).
    assert (Hs : Forall (fun kv => (height (snd kv)
                                    <= Z.to_nat (depth - 1))%nat) subs).
    { clear - HF IH Hd Hd0. induction HF as [|m kv ms ss Hr _ IHF];
        constructor; [|exact IHF].
      destruct Hr as (_ & a & c & rv & rl & Er). unfold child_ab in Er.
      destruct (makeMove G side board m flags) as [[s' b'] f'].
      eapply IH; [|exact Er]. lia. }
    pose proof (height_record_all _ _ (Node []) Hs) as Hh.
    change (height (@Node (Key G) [])) with O in Hh. lia.
Qed.

Lemma keys_nil_iff (t : MoveTree (Key G)) : t = Node [] <-> keys t = [].
Proof.
  destruct t as [[|e es]]; unfold keys; simpl; split; congruence.
Qed.

Lemma search_tree_empty fuel side board flags depth alpha beta v p t :
  depth <> 0 ->
  minimax G (S fuel) side board flags depth = Some (v, p, t) \/
  alphabeta G (S fuel) side board flags depth alpha beta = Some (v, p, t) ->
  (t = Node [] <-> generateMoves G side board flags = []).
Proof.
  intros Hd H.
  destruct (search_tree_shape G fuel side board flags depth alpha beta Hd)
    as [H1 H2].
  assert (Hk : exists explored skipped,
    generateMoves G side board flags = explored ++ skipped /\
    (skipped <> [] -> explored <> []) /\
    forall k, In k (keys t) <-> In k (map (encode G) explored)).
  { destruct H as [H|H].
    - destruct (H1 _ _ _ H) as (subs & _ & _ & Hk).
      exists (generateMoves G side board flags), [].
      split; [rewrite app_nil_r; reflexivity|]. split; [congruence | exact Hk].
    - destruct (H2 _ _ _ H) as (ex & sk & subs & Hg & _ & _ & Hk & Hc).
      exists ex, sk. split; [exact Hg|]. split; [|exact Hk].
      intros Hs. apply Hc. exact Hs. }
  destruct Hk as (ex & sk & Hg & Hc & Hk). rewrite keys_nil_iff, Hg.
  split.
  - intros E. rewrite E in Hk.
    destruct ex as [|m ex].
    + destruct sk as [|m sk]; [reflexivity|].
      exfalso. apply Hc; [discriminate | reflexivity].
    + exfalso. apply (Hk (encode G m)). left. reflexivity.
  - intros E. apply app_eq_nil in E. destruct E as [-> _].
    destruct (keys t) as [|k ks]; [reflexivity|].
    exfalso. apply (Hk k). left. reflexivity.
Qed.

End Heights.

(** X20. For a depth >= 0 the tree [minimax] or [alphabeta] (with any
    bounds) returns is at most [depth] levels deep; at a depth other than 0
    it is empty exactly when the position has no legal move, so alpha-beta
    always records at least the first move of a position it searches. *)
Theorem search_tree_depth (G : Game) (fuel : nat) (side : bool)
    (board : Board G) (flags : Flags G) (depth : Z) (alpha beta : EVal)
    v p t :
  0 <= depth ->
  minimax G fuel side board flags depth = Some (v, p, t) \/
  alphabeta G fuel side board flags depth alpha beta = Some (v, p, t) ->
  (height t <= Z.to_nat depth)%nat /\
  (depth <> 0 -> (t = Node [] <-> generateMoves G side board flags = [])).
Proof.
  intros Hd H. split.
  - destruct H as [H|H];
      [eapply minimax_height | eapply alphabeta_height]; eauto.
  - intros Hd0. destruct fuel as [|n].
    + exfalso. apply Z.eqb_neq in Hd0.
      destruct H as [H|H]; simpl in H; rewrite Hd0 in H; discriminate.
    + eapply search_tree_empty; eauto.
Qed.

Lemma search_tree_depth_witness :
  0 <= 2 /\
  (height (Node [(1%nat, Node [(3%nat, Node []); (4%nat, Node [])]);
                 (2%nat, Node [(5%nat, Node [])])]) <= Z.to_nat 2)%nat.
Proof.
  split; [lia|].
  destruct (search_tree_depth pruning_game 2 false 0%nat tt 2 NegInf PosInf
              (Fin 3) [Some 1%nat; Some 3%nat]
              (Node [(1%nat, Node [(3%nat, Node []); (4%nat, Node [])]);
                     (2%nat, Node [(5%nat, Node [])])])
              ltac:(lia) (or_intror eq_refl)) as [H _].
  exact H.
Defined.
